(** * refl1d: the statistical-model core and the Chebyshev profile engine

    A shallow embedding of [refl1d/cheby.py] (function [cheby_profile]) and of
    [dream/model.py] (classes [MCMCModel], [Density], [LogDensity],
    [Simulation], [MVNormal], [Mixture]), with the properties the
    specification states about them.

    Numbers.  numpy's float64 arithmetic is idealised: a finite value is a
    real number, and the three special values (+inf, -inf, nan) are kept where
    the code can produce them ([xreal], used for [dream/model.py]).  Rounding
    and signed zeros are not modelled.  Of the ends of the float64 range only
    those of [exp] are modelled, the one operation here that leaves the range
    at arguments of moderate size.  The profile engine only ever combines
    finite values with [+], [-], [*], [cos], [sin], so it is stated over [R].

    Language level.  The sources are read with the semantics of Python 2,
    the language of the repository ([gui/app_panel.py] uses the [print]
    statement and [cPickle]): [zip] returns a list, and [/] is true
    division, which [dream/model.py] asks for with
    [from __future__ import division]. *)

From Stdlib Require Import Reals Lra Lia String Bool Arith ZArith List.
Import ListNotations.
Open Scope R_scope.

Set Implicit Arguments.

(* ================================================================== *)
(** * Part I.  numpy arrays, complex numbers and the discrete transform *)
(* ================================================================== *)

Module Numpy.

(** A numpy value of the kind the code handles: a scalar (a 0-d array or a
    Python number) or a one-dimensional array. *)
Inductive ndarray (A : Type) : Type :=
| Scalar (x : A)
| Array (xs : list A).

Arguments Scalar {A} x.
Arguments Array {A} xs.

Definition nd_map {A B} (f : A -> B) (a : ndarray A) : ndarray B :=
  match a with
  | Scalar x => Scalar (f x)
  | Array xs => Array (map f xs)
  end.

Fixpoint zip_with {A B C} (f : A -> B -> C) (xs : list A) (ys : list B) : list C :=
  match xs, ys with
  | x :: xs', y :: ys' => f x y :: zip_with f xs' ys'
  | _, _ => []
  end.

(** Element-wise binary operation with scalar broadcasting.  Two arrays are
    combined position by position; inside [cheby_profile] both always have
    the shape of [t], so the length mismatch numpy would reject cannot
    arise there. *)
Definition broadcast {A B C} (f : A -> B -> C) (a : ndarray A) (b : ndarray B) : ndarray C :=
  match a, b with
  | Scalar x, Scalar y => Scalar (f x y)
  | Scalar x, Array ys => Array (map (f x) ys)
  | Array xs, Scalar y => Array (map (fun x => f x y) xs)
  | Array xs, Array ys => Array (zip_with f xs ys)
  end.

Definition nd_add := broadcast Rplus.
Definition nd_sub := broadcast Rminus.
Definition nd_mul := broadcast Rmult.

(** [l[0::2]]; [l[1::2]] is [step2 (tl l)]. *)
Fixpoint step2 {A} (l : list A) : list A :=
  match l with
  | [] => []
  | a :: l' => a :: match l' with
                    | [] => []
                    | _ :: l'' => step2 l''
                    end
  end.

(** [numpy.arange(n)] *)
Definition arange (n : nat) : list nat := seq 0 n.

(** [numpy.hstack((a, b))] on one-dimensional arrays *)
Definition hstack {A} (a b : list A) : list A := a ++ b.

(** Complex numbers as pairs (real part, imaginary part). *)
Definition C : Type := R * R.

Definition RtoC (x : R) : C := (x, 0).
Definition Cadd (a b : C) : C := (fst a + fst b, snd a + snd b).
Definition Copp (a : C) : C := (- fst a, - snd a).
Definition Cmul (a b : C) : C :=
  (fst a * fst b - snd a * snd b, fst a * snd b + snd a * fst b).
(** complex divided by a real number *)
Definition Cdiv_R (a : C) (r : R) : C := (fst a / r, snd a / r).
(** [numpy.exp] on a complex argument *)
Definition Cexp (z : C) : C := (exp (fst z) * cos (snd z), exp (fst z) * sin (snd z)).
(** [numpy.real] *)
Definition real (z : C) : R := fst z.
(** the imaginary literal [bj] *)
Definition imag_lit (b : R) : C := (0, b).

Definition Csum (l : list C) : C := fold_right Cadd (RtoC 0) l.

(** [numpy.fft.fft], by the definition its documentation gives:
    [A_k = sum_{m=0}^{n-1} a_m * exp(-2 pi i m k / n)] for [k = 0..n-1]. *)
Definition fft (a : list C) : list C :=
  let n := length a in
  map (fun k =>
         Csum (map (fun m => Cmul (nth m a (RtoC 0))
                                  (Cexp (imag_lit (- (2 * PI * INR m * INR k / INR n)))))
                   (seq 0 n)))
      (seq 0 n).

End Numpy.

(* ================================================================== *)
(** * Part II.  refl1d/cheby.py *)
(* ================================================================== *)

Module Cheby.
Import Numpy.

Declare Scope nd_scope.
Delimit Scope nd_scope with nd.
Infix "+" := nd_add : nd_scope.
Infix "-" := nd_sub : nd_scope.
Infix "*" := nd_mul : nd_scope.

(** One pass of the loop body [d, dd = y*d + (c_j - dd), d]. *)
Definition crenshaw_step (y : ndarray R) (acc : ndarray R * ndarray R) (c_j : R)
  : ndarray R * ndarray R :=
  let '(d, dd) := acc in
  ((y * d + (Scalar c_j - dd))%nd, d).

(** [cheby_profile(control, t, method)] *)
Definition cheby_profile (control : list R) (t : ndarray R) (method : string) : ndarray R :=
  let n := length control in
  if Nat.eqb n 0 then (Scalar 0%R * t)%nd
  else
    let c := control in
    let c :=
      if String.eqb method "interp" then
        (* DCT calculation of chebyshev coefficients *)
        let w := map (fun j => Cexp (Cmul (Cdiv_R (Cmul (Copp (imag_lit 0.5)) (RtoC PI)) (INR n))
                                          (RtoC (INR j))))
                     (arange n) in
        let y := hstack (step2 c) (rev (step2 (tl c))) in
        map (fun z => (2 / INR n) * real z) (zip_with Cmul (fft (map RtoC y)) w)
      else c in
    (* Crenshaw recursion from numerical recipes sec. 5.8 *)
    let y := (Scalar 4%R * t - Scalar 2%R)%nd in
    let '(d, dd) := fold_left (crenshaw_step y) (rev (tl c)) (Scalar 0, Scalar 0) in
    (y * (Scalar 0.5%R * d) + (Scalar (0.5 * nth 0 c 0)%R - dd))%nd.

End Cheby.

(* ================================================================== *)
(** * Part III.  Python values: floats with special values, exceptions *)
(* ================================================================== *)

Module Py.
Import Numpy.

(** A float64 value with rounding idealised away: a real number, or one of
    the special values. *)
Inductive xreal : Type :=
| Fin (r : R)
| PInf
| NInf
| NaN.

(** Sign of a real number. *)
Definition Rsgn (r : R) : comparison :=
  if Rlt_dec 0 r then Gt else if Rlt_dec r 0 then Lt else Eq.

Definition xneg (a : xreal) : xreal :=
  match a with
  | Fin r => Fin (- r)
  | PInf => NInf
  | NInf => PInf
  | NaN => NaN
  end.

Definition xadd (a b : xreal) : xreal :=
  match a, b with
  | NaN, _ | _, NaN => NaN
  | PInf, NInf | NInf, PInf => NaN
  | PInf, _ | _, PInf => PInf
  | NInf, _ | _, NInf => NInf
  | Fin x, Fin y => Fin (x + y)
  end.

Definition xsub (a b : xreal) : xreal := xadd a (xneg b).

(** an infinity carrying the sign [s]; [Eq] is the invalid product [0 * inf] *)
Definition inf_of_sign (s : comparison) : xreal :=
  match s with Gt => PInf | Lt => NInf | Eq => NaN end.

Definition xsgn (a : xreal) : option comparison :=
  match a with
  | Fin r => Some (Rsgn r)
  | PInf => Some Gt
  | NInf => Some Lt
  | NaN => None
  end.

Definition sign_mul (s1 s2 : comparison) : comparison :=
  match s1, s2 with
  | Eq, _ | _, Eq => Eq
  | Gt, s | s, Gt => s
  | Lt, Lt => Gt
  end.

Definition xmul (a b : xreal) : xreal :=
  match a, b with
  | NaN, _ | _, NaN => NaN
  | Fin x, Fin y => Fin (x * y)
  | Fin x, PInf | PInf, Fin x => inf_of_sign (Rsgn x)
  | Fin x, NInf | NInf, Fin x => inf_of_sign (sign_mul Lt (Rsgn x))
  | PInf, PInf | NInf, NInf => PInf
  | PInf, NInf | NInf, PInf => NInf
  end.

(** numpy division: a zero divisor gives an infinity or nan (with a
    warning), never an exception; the zero is taken as positive. *)
Definition xdiv (a b : xreal) : xreal :=
  match a, b with
  | NaN, _ | _, NaN => NaN
  | Fin x, Fin y =>
      match Rsgn y with
      | Eq => inf_of_sign (Rsgn x)
      | _ => Fin (x / y)
      end
  | Fin _, (PInf | NInf) => Fin 0
  | PInf, Fin y => match Rsgn y with Lt => NInf | _ => PInf end
  | NInf, Fin y => match Rsgn y with Lt => PInf | _ => NInf end
  | (PInf | NInf), (PInf | NInf) => NaN
  end.

Definition xabs (a : xreal) : xreal :=
  match a with
  | Fin r => Fin (Rabs r)
  | PInf | NInf => PInf
  | NaN => NaN
  end.

(** The ends of the float64 range, for a correctly rounded result: a value
    of at least [2^1024 - 2^970] rounds to [inf], a positive value of at
    most [2^-1075], half the least positive float, rounds to [0]. *)
Definition float_overflow : R := 2 ^ 1024 - 2 ^ 970.
Definition float_underflow : R := / 2 ^ 1075.

(** [numpy.exp]: beyond the float64 range it overflows to [inf] or
    underflows to [0], with a RuntimeWarning and no exception. *)
Definition xexp (a : xreal) : xreal :=
  match a with
  | Fin r =>
      if Rle_dec float_overflow (exp r) then PInf
      else if Rle_dec (exp r) float_underflow then Fin 0
      else Fin (exp r)
  | PInf => PInf
  | NInf => Fin 0
  | NaN => NaN
  end.

(** [numpy.log]: [log(0)] is [-inf] and the logarithm of a negative number
    is [nan], each with a RuntimeWarning and no exception. *)
Definition xlog (a : xreal) : xreal :=
  match a with
  | Fin r =>
      match Rsgn r with
      | Gt => Fin (ln r)
      | Eq => NInf
      | Lt => NaN
      end
  | PInf => PInf
  | NInf => NaN
  | NaN => NaN
  end.

Definition is_integer (q : R) : bool :=
  if Req_dec_T (IZR (Int_part q)) q then true else false.

Definition is_odd_integer (q : R) : bool :=
  is_integer q && Z.odd (Int_part q).

(** [x ** p] on float64 (the C library's [pow]). *)
Definition xpow (a p : xreal) : xreal :=
  match a, p with
  | _, Fin q =>
      match Rsgn q with
      | Eq => Fin 1
      | sq =>
          match a with
          | NaN => NaN
          | Fin b =>
              match Rsgn b with
              | Gt => Fin (Rpower b q)
              | Eq => match sq with Gt => Fin 0 | _ => PInf end
              | Lt => if is_integer q
                      then Fin ((if Z.odd (Int_part q) then -1 else 1) * Rpower (- b) q)
                      else NaN
              end
          | PInf => match sq with Gt => PInf | _ => Fin 0 end
          | NInf => match sq with
                    | Gt => if is_odd_integer q then NInf else PInf
                    | _ => Fin 0
                    end
          end
      end
  | Fin b, (PInf | NInf) =>
      match Rsgn (Rabs b - 1), p with
      | Eq, _ => Fin 1
      | Gt, PInf | Lt, NInf => PInf
      | _, _ => Fin 0
      end
  | (PInf | NInf), PInf => PInf
  | (PInf | NInf), NInf => Fin 0
  | _, NaN => match a with
              | Fin b => if Req_dec_T b 1 then Fin 1 else NaN
              | _ => NaN
              end
  | NaN, _ => NaN
  end.

(** [numpy.sum] over a Python list or an array: [0.0] for an empty one. *)
Definition np_sum (p : list xreal) : xreal := fold_left xadd p (Fin 0).

(** ** Exceptions and the two monads *)

(** An exception, identified by the name of its class. *)
Record exn : Type := Exception { exn_class : string; exn_msg : string }.

Definition TypeError (msg : string) : exn := Exception "TypeError" msg.
Definition ValueError (msg : string) : exn := Exception "ValueError" msg.
Definition LinAlgError (msg : string) : exn := Exception "LinAlgError" msg.
Definition ZeroDivisionError (msg : string) : exn := Exception "ZeroDivisionError" msg.

(** A computation that returns or raises. *)
Definition result (A : Type) : Type := (exn + A)%type.

Definition ok {A} (a : A) : result A := inr a.
Definition raise {A} (e : exn) : result A := inl e.
Definition rbind {A B} (c : result A) (k : A -> result B) : result B :=
  match c with
  | inl e => inl e
  | inr a => k a
  end.

(** A computation that also reads and writes the interpreter state [W]: the
    attributes of the live objects and the state of the random generators. *)
Definition py (W A : Type) : Type := W -> result (A * W).

Definition ret {W A} (a : A) : py W A := fun w => inr (a, w).
Definition throw {W A} (e : exn) : py W A := fun _ => inl e.
Definition bind {W A B} (c : py W A) (k : A -> py W B) : py W B :=
  fun w => match c w with
           | inl e => inl e
           | inr (a, w') => k a w'
           end.
Definition lift {W A} (c : result A) : py W A :=
  fun w => match c with
           | inl e => inl e
           | inr a => inr (a, w)
           end.

Declare Scope py_scope.
Delimit Scope py_scope with py.
Notation "x <- c ;; k" := (bind c (fun x => k))
  (at level 61, c at next level, right associativity) : py_scope.
Notation "x <-! c ;; k" := (rbind c (fun x => k))
  (at level 61, c at next level, right associativity) : py_scope.

End Py.

(* ================================================================== *)
(** * Part IV.  numpy.linalg on real matrices *)
(* ================================================================== *)

Module Linalg.
Import Numpy Py.

(** A two-dimensional array, as the list of its rows. *)
Definition matrix : Type := list (list R).

(** [numpy.asarray] of a list of rows: a two-dimensional array when the
    rows have one length; numpy refuses a ragged list. *)
Definition rectangular (a : list (list R)) : bool :=
  match a with
  | [] => true
  | row0 :: rest => forallb (fun row => Nat.eqb (length row) (length row0)) rest
  end.

Definition asarray (a : list (list R)) : result matrix :=
  if rectangular a then ok a
  else raise (ValueError "setting an array element with a sequence. The requested array has an inhomogeneous shape").

Definition is_square (a : matrix) : bool :=
  forallb (fun row => Nat.eqb (length row) (length a)) a.

Definition dot (u v : list R) : R :=
  fold_right Rplus 0 (zip_with Rmult u v).

(** The Cholesky factor of the symmetric matrix stored in the lower triangle
    of [a], by elimination of the leading row and column: with
    [a = [[a00, _], [col, c]]] the factor is [[[l, 0], [col/l, L']]] where
    [l = sqrt a00] and [L'] is the factor of [c - (col/l)(col/l)^T].  It
    does not exist when a pivot [a00] is not positive.  Entries above the
    diagonal are never read, as in LAPACK's [potrf]. *)
Fixpoint chol (n : nat) (a : matrix) : option matrix :=
  match n, a with
  | O, _ => Some []
  | S n', row0 :: rest =>
      let a00 := hd 0 row0 in
      if Rlt_dec 0 a00 then
        let l := sqrt a00 in
        let b := map (fun row => hd 0 row / l) rest in
        let s := zip_with (fun bi row => zip_with (fun bj x => x - bi * bj) b (tl row)) b rest in
        match chol n' s with
        | None => None
        | Some L' => Some ((l :: repeat 0 n') :: zip_with cons b L')
        end
      else None
  | S _, [] => None
  end.

(** [numpy.linalg.cholesky]: raises [LinAlgError] when the argument is not
    a square two-dimensional array or the factorisation fails. *)
Definition cholesky (a : matrix) : result matrix :=
  match a with
  | [] => raise (LinAlgError "1-dimensional array given. Array must be at least two-dimensional")
  | _ :: _ =>
      if is_square a then
        match chol (length a) a with
        | Some L => ok L
        | None => raise (LinAlgError "Matrix is not positive definite")
        end
      else raise (LinAlgError "Last 2 dimensions of the array must be square")
  end.

(** Inverse of a lower-triangular matrix by forward substitution, block by
    block; [None] when a diagonal entry is zero. *)
Fixpoint inv_lower (n : nat) (L : matrix) : option matrix :=
  match n, L with
  | O, _ => Some []
  | S n', row0 :: rest =>
      let l := hd 0 row0 in
      if Req_dec_T l 0 then None
      else
        match inv_lower n' (map (@tl R) rest) with
        | None => None
        | Some Li =>
            let v := map (hd 0) rest in
            let col := map (fun row => - dot row v / l) Li in
            Some ((/ l :: repeat 0 n') :: zip_with cons col Li)
        end
  | S _, [] => None
  end.

(** [numpy.linalg.inv], on the lower-triangular matrices this module passes
    to it (the Cholesky factor). *)
Definition inv (a : matrix) : result matrix :=
  match inv_lower (length a) a with
  | Some Li => ok Li
  | None => raise (LinAlgError "Singular matrix")
  end.

(** [numpy.diag] of a square matrix *)
Definition diag (a : matrix) : list R :=
  map (fun i => nth i (nth i a []) 0) (seq 0 (length a)).

(** [numpy.dot(v, m)] of a vector and a matrix: [v] as a row times [m]. *)
Definition dot_vm (v : list R) (m : matrix) : result (list R) :=
  if Nat.eqb (length v) (length m) then
    ok (map (fun j => dot v (map (fun row => nth j row 0) m)) (seq 0 (length (hd [] m))))
  else raise (ValueError "shapes not aligned").

(** Element-wise operation on two one-dimensional arrays, with numpy's
    broadcasting of a length-one operand. *)
Definition broadcast1 {A} (f : A -> A -> A) (xs ys : list A) : result (list A) :=
  if Nat.eqb (length xs) (length ys) then ok (zip_with f xs ys)
  else
    match xs, ys with
    | [x], _ => ok (map (f x) ys)
    | _, [y] => ok (map (fun x => f x y) xs)
    | _, _ => raise (ValueError "operands could not be broadcast together")
    end.

(** The same on scalars and arrays. *)
Definition nd_op {A} (f : A -> A -> A) (a b : ndarray A) : result (ndarray A) :=
  match a, b with
  | Scalar x, Scalar y => ok (Scalar (f x y))
  | Scalar x, Array ys => ok (Array (map (f x) ys))
  | Array xs, Scalar y => ok (Array (map (fun x => f x y) xs))
  | Array xs, Array ys => rbind (broadcast1 f xs ys) (fun zs => ok (Array zs))
  end.

(** [numpy.sum] of a scalar or an array *)
Definition nd_sum (a : ndarray xreal) : xreal :=
  match a with
  | Scalar x => x
  | Array xs => np_sum xs
  end.

End Linalg.

(* ================================================================== *)
(** * Part V.  dream/model.py *)
(* ================================================================== *)

Module Model.
Import Numpy Py Linalg.
Local Open Scope py_scope.

(** A point of parameter space. *)
Definition vector : Type := list R.

(** A reference to an object the module only stores ([bounds], [labels]):
    [None] is Python's [None]. *)
Definition objref : Type := option nat.

(** The random number source handed to [nllf]; its default is the module
    [numpy.random].  The generator's state is part of the interpreter
    state. *)
Inductive rng : Type :=
| numpy_random
| rng_object (id : nat).

(** ** class MCMCModel

    An object that exposes [nllf]: the bound method, acting on the
    interpreter state [W]. *)
Record MCMCModel (W : Type) : Type := { nllf : vector -> rng -> py W xreal }.

Arguments nllf {W} _ _ _ _.

(** The base class's own [nllf] is [raise NotImplemented]; [NotImplemented]
    is not an exception, so the statement raises [TypeError]. *)
Definition MCMCModel_nllf {W} (x : vector) (RNG : rng) : py W xreal :=
  throw (TypeError "exceptions must be old-style classes or derived from BaseException, not NotImplementedType").

(** The list comprehension [[g(x) for x in pop]], evaluated left to right. *)
Fixpoint comprehension {W A B} (g : A -> py W B) (pop : list A) : py W (list B) :=
  match pop with
  | [] => ret []
  | x :: pop' => (v <- g x ;; vs <- comprehension g pop' ;; ret (v :: vs))
  end.

(** [log_density(self, pop, RNG)]: [array([-self.nllf(x, RNG) for x in pop])] *)
Definition log_density {W} (self : MCMCModel W) (pop : list vector) (RNG : rng)
  : py W (list xreal) :=
  comprehension (fun x => v <- nllf self x RNG ;; ret (xneg v)) pop.

(** ** class Density *)
Module Density.
Record t : Type := { f : vector -> xreal; bounds : objref; labels : objref }.

Definition __init__ (f : vector -> xreal) (bounds labels : objref) : t :=
  {| f := f; bounds := bounds; labels := labels |}.

Definition nllf {W} (self : t) (x : vector) (RNG : rng) : py W xreal :=
  ret (xneg (xlog (f self x))).

Definition model {W} (self : t) : MCMCModel W := {| Model.nllf := nllf self |}.
End Density.

(** ** class LogDensity *)
Module LogDensity.
Record t : Type := { f : vector -> xreal; bounds : objref; labels : objref }.

Definition __init__ (f : vector -> xreal) (bounds labels : objref) : t :=
  {| f := f; bounds := bounds; labels := labels |}.

Definition nllf {W} (self : t) (x : vector) (RNG : rng) : py W xreal :=
  ret (xneg (f self x)).

Definition model {W} (self : t) : MCMCModel W := {| Model.nllf := nllf self |}.
End LogDensity.

(** ** class Simulation

    The numbers the constructor is handed ([sigma], [gamma]) and the ones
    [exppow_pars] returns are Python numbers or numpy values, and the two
    divide differently: Python raises ZeroDivisionError at a zero divisor,
    numpy returns an infinity or nan. *)

(** A Python number ([int] or [float]), or a numpy value (a float64 scalar
    or an array). *)
Inductive number : Type :=
| PyNum (v : xreal)
| Np (a : ndarray xreal).

(** The numpy value an operand is converted to when the other operand is
    a numpy value. *)
Definition to_nd (a : number) : ndarray xreal :=
  match a with
  | PyNum v => Scalar v
  | Np a => a
  end.

(** A Python number equal to zero *)
Definition is_zero (y : xreal) : bool :=
  match y with
  | Fin r => if Req_dec_T r 0 then true else false
  | _ => false
  end.

(** [a + b]: Python's addition of two Python numbers, numpy's otherwise. *)
Definition num_add (a b : number) : result number :=
  match a, b with
  | PyNum x, PyNum y => ok (PyNum (xadd x y))
  | _, _ => r <-! nd_op xadd (to_nd a) (to_nd b) ;; ok (Np r)
  end.

(** [a / b], true division: Python's division of two Python numbers, which
    raises at a zero divisor (its message also names the operand type),
    numpy's otherwise. *)
Definition num_div (a b : number) : result number :=
  match a, b with
  | PyNum x, PyNum y =>
      if is_zero y then raise (ZeroDivisionError "division by zero")
      else ok (PyNum (xdiv x y))
  | _, _ => r <-! nd_op xdiv (to_nd a) (to_nd b) ;; ok (Np r)
  end.

Module Simulation.
Record t : Type := {
  f : option (vector -> ndarray xreal);
  bounds : objref;
  labels : objref;
  data : option (ndarray xreal);
  sigma : number;
  gamma : number;
  _offset : xreal;
  _cB : number;
  _pow : number
}.

(** [numpy.ones_like]; of [None] it is the 0-d array holding [1]. *)
Definition ones_like (data : option (ndarray xreal)) : ndarray xreal :=
  match data with
  | None => Scalar (Fin 1)
  | Some d => nd_map (fun _ => Fin 1) d
  end.

Section Exppow.
(** [exppow.exppow_pars], of the module [dream/exppow.py]: the pair
    [(cB, wB)] of the exponential power density for a given [gamma], or the
    exception it raises. *)
Variable exppow_pars : number -> result (number * number).

(** [__init__(self, f=None, bounds=None, data=None, sigma=1, gamma=0, labels=None)] *)
Definition __init__ (f : option (vector -> ndarray xreal)) (bounds : objref)
    (data : option (ndarray xreal)) (sigma gamma : number) (labels : objref)
  : result t :=
  pars <-! exppow_pars gamma ;;
  let '(cB, wB) := pars in
  q <-! num_div wB sigma ;;
  q1 <-! nd_op xmul (to_nd q) (ones_like data) ;;
  g1 <-! num_add (PyNum (Fin 1)) gamma ;;
  pw <-! num_div (PyNum (Fin 2)) g1 ;;
  ok {| f := f; bounds := bounds; labels := labels;
        data := data; sigma := sigma; gamma := gamma;
        _offset := nd_sum (nd_map xlog q1);
        _cB := cB;
        _pow := pw |}.
End Exppow.

(** [v - data].  With [data = None] numpy subtracts [None] from each
    element of [v], which raises TypeError at the first one; an empty array
    has none. *)
Definition sub_data (v : ndarray xreal) (data : option (ndarray xreal))
  : result (ndarray xreal) :=
  match data with
  | Some d => nd_op xsub v d
  | None =>
      match v with
      | Array [] => ok (Array [])
      | _ => raise (TypeError "unsupported operand type(s) for -: 'float' and 'NoneType'")
      end
  end.

(** [nllf(self, x, RNG)].  [err] is a numpy value, so every operation on it
    is numpy's. *)
Definition nllf {W} (self : t) (x : vector) (RNG : rng) : py W xreal :=
  match f self with
  | None => throw (TypeError "'NoneType' object is not callable")
  | Some f =>
      lift (err <-! sub_data (f x) (data self) ;;
            e1 <-! nd_op xdiv err (to_nd (sigma self)) ;;
            e2 <-! nd_op xpow (nd_map xabs e1) (to_nd (_pow self)) ;;
            e3 <-! nd_op xmul (to_nd (_cB self)) e2 ;;
            let log_p := xsub (_offset self) (nd_sum e3) in
            ok (xneg log_p))
  end.

Definition model {W} (self : t) : MCMCModel W := {| Model.nllf := nllf self |}.
End Simulation.

(** ** class MVNormal *)
Module MVNormal.
Record t : Type := { mu : list R; sigma : matrix; _rinv : matrix; _C : R }.

Definition __init__ (mu : list R) (sigma : list (list R)) : result t :=
  sigma_a <-! asarray sigma ;;
  (* Precompute sigma contributions *)
  r <-! cholesky sigma ;;
  rinv <-! inv r ;;
  ok {| mu := mu; sigma := sigma_a;
        _rinv := rinv;
        _C := 0.5 * INR (length mu) * ln (2 * PI) + fold_right Rplus 0 (diag r) |}.

Definition nllf {W} (self : t) (x : vector) (RNG : rng) : py W xreal :=
  lift (xm <-! broadcast1 Rminus x (mu self) ;;
        v <-! dot_vm xm (_rinv self) ;;
        let y := _C self + 0.5 * fold_right Rplus 0 (map (fun a => a ^ 2) v) in
        ok (Fin y)).

Definition model {W} (self : t) : MCMCModel W := {| Model.nllf := nllf self |}.
End MVNormal.

(** ** class Mixture *)

(** The Python objects a caller can put in the argument list of
    [Mixture(...)]. *)
Inductive pyobj (W : Type) : Type :=
| PyNone
| PyFloat (v : xreal)
| PyStr (s : string)
| PyObject (id : nat)
| PyModel (M : MCMCModel W).

Arguments PyNone {W}.
Arguments PyFloat {W} v.
Arguments PyStr {W} s.
Arguments PyObject {W} id.
Arguments PyModel {W} M.

(** [hasattr(M, 'nllf')] *)
Definition hasattr_nllf {W} (M : pyobj W) : bool :=
  match M with
  | PyModel _ => true
  | _ => false
  end.

(** [numpy.isscalar(w)]: true of the Python and numpy numbers, and of
    strings. *)
Definition isscalar {W} (w : pyobj W) : bool :=
  match w with
  | PyFloat _ | PyStr _ => true
  | _ => false
  end.

(** [a + w] for a number [a] *)
Definition py_add {W} (a : xreal) (w : pyobj W) : result xreal :=
  match w with
  | PyFloat v => ok (xadd a v)
  | _ => raise (TypeError "unsupported operand type(s) for +")
  end.

(** [w * v] for a float [v] *)
Definition py_mul {W} (w : pyobj W) (v : xreal) : result xreal :=
  match w with
  | PyFloat a => ok (xmul a v)
  | _ => raise (TypeError "unsupported operand type(s) for *")
  end.

(** The builtin [sum], which [numpy.sum] hands a generator to: the items
    are added to [0] from left to right. *)
Fixpoint builtin_sum {W} (acc : xreal) (ws : list (pyobj W)) : result xreal :=
  match ws with
  | [] => ok acc
  | w :: ws' => a <-! py_add acc w ;; builtin_sum a ws'
  end.

(** The call [M.nllf(x, RNG)] *)
Definition call_nllf {W} (M : pyobj W) (x : vector) (RNG : rng) : py W xreal :=
  match M with
  | PyModel m => nllf m x RNG
  | _ => throw (Exception "AttributeError" "object has no attribute 'nllf'")
  end.

Module Mixture.
(** [pairs] is the list [zip(models, weights)]; [weight] is the sum of the
    weights. *)
Record t (W : Type) : Type := { pairs : list (pyobj W * pyobj W); weight : xreal }.

Arguments pairs {W} _.
Arguments weight {W} _.

(** [__init__(self, *args)] *)
Definition __init__ {W} (args : list (pyobj W)) : result (t W) :=
  let models := step2 args in
  let weights := step2 (tl args) in
  if negb (Nat.eqb (length args mod 2) 0)
     || negb (forallb hasattr_nllf models)
     || negb (forallb isscalar weights)
  then raise (TypeError "Expected MixtureModel(M1,w1,M2,w2,...)")
  else
    let pairs := combine models weights in
    weight <-! builtin_sum (Fin 0) weights ;;
    ok {| pairs := pairs; weight := weight |}.

(** [nllf(self, x, RNG)].  The comprehension runs through the list of
    pairs and calls the components in order; the object itself is only
    read. *)
Definition nllf {W} (self : t W) (x : vector) (RNG : rng) : py W xreal :=
  p <- comprehension
         (fun Mw : pyobj W * pyobj W =>
            v <- call_nllf (fst Mw) x RNG ;; lift (py_mul (snd Mw) (xexp (xneg v))))
         (pairs self) ;;
  ret (xneg (xlog (xdiv (np_sum p) (weight self)))).

Definition model {W} (self : t W) : MCMCModel W := {| Model.nllf := nllf self |}.
End Mixture.

End Model.

(* ================================================================== *)
(** * Part V-b.  refl1d/cheby.py: the layers *)
(* ================================================================== *)

Module ChebyLayers.
Import Numpy Cheby Py Linalg.
Local Open Scope py_scope.

(** [numpy.imag] *)
Definition imag (z : C) : R := snd z.

(** [numpy.clip(a, lo, hi)]: [minimum(maximum(a, lo), hi)], element by
    element. *)
Definition clip (a : ndarray R) (lo hi : R) : ndarray R :=
  nd_map (fun v => Rmin (Rmax v lo) hi) a.

(** The collaborator [slabs]: [microslabs(thickness)] returns the widths
    [Pw] and the depths [Pz] of the microslabs of a layer; what a layer
    passes to [extend(rho=[...], irho=[...], w=...)] is the result of
    rendering it. *)
Module Slabs.
Record t : Type := { microslabs : R -> list R * list R }.
Record extension : Type := { rho : ndarray R; irho : ndarray R; w : list R }.
End Slabs.

(** [Pz/thickness] for the array [Pz].  At a zero thickness numpy divides
    all the same and leaves nan or inf at every depth, values the reals do
    not have: the model has no value there, unless [Pz] is empty. *)
Definition normalized_depth (Pz : list R) (thickness : R) : option (list R) :=
  if Req_dec_T thickness 0 then
    match Pz with
    | [] => Some []
    | _ :: _ => None
    end
  else Some (map (fun z => z / thickness) Pz).

(** ** class FreeformCheby; the parameters are held by their values. *)
Module FreeformCheby.
Record t : Type := {
  name : string;
  method : string;
  thickness : R;
  rho : list R;
  irho : list R
}.

(** [render(self, probe, slabs)]; the probe is not used. *)
Definition render (self : t) (slabs : Slabs.t) : option Slabs.extension :=
  let thickness := thickness self in
  let '(Pw, Pz) := Slabs.microslabs slabs thickness in
  match normalized_depth Pz thickness with
  | None => None
  | Some t =>
      let Prho := cheby_profile (rho self) (Array t) (method self) in
      let Pirho := cheby_profile (irho self) (Array t) (method self) in
      Some {| Slabs.rho := Prho; Slabs.irho := Pirho; Slabs.w := Pw |}
  end.
End FreeformCheby.

(** ** class ChebyVF *)
Module ChebyVF.

(** [a[0]], which raises on a scalar and on an empty array. *)
Definition index0 {A} (a : ndarray A) : option A :=
  match a with
  | Array (x :: _) => Some x
  | _ => None
  end.

(** [re + 1j*im] *)
Definition complex_of (re im : ndarray R) : result (ndarray C) :=
  nd_op Cadd (nd_map RtoC re) (nd_map (fun b => Cmul (imag_lit 1) (RtoC b)) im).

Section Probe.
Variable Probe : Type.

(** A material: [sld(probe)] returns the real and the imaginary scattering
    length density. *)
Record Material : Type := { sld : Probe -> ndarray R * ndarray R }.

Record t : Type := {
  thickness : R;
  interface : R;
  length : R;
  solvent : Material;
  material : Material;
  vf : list R;
  method : string
}.

(** [render(self, probe, slabs)]; [S'] is the source's [S].  [None] where
    the normalized depth has no real value. *)
Definition render (self : t) (probe : Probe) (slabs : Slabs.t)
  : option (result Slabs.extension) :=
  let '(Mr, Mi) := sld (material self) probe in
  let '(Sr, Si) := sld (solvent self) probe in
  match complex_of Mr Mi with
  | inl e => Some (inl e)
  | inr M =>
      match complex_of Sr Si with
      | inl e => Some (inl e)
      | inr S' =>
          (* Temporary hack *)
          let '(M, S') := match index0 M, index0 S' with
                         | Some m0, Some s0 => (Scalar m0, Scalar s0)
                         | _, _ => (M, S')
                         end in
          let thickness := thickness self in
          let '(Pw, Pz) := Slabs.microslabs slabs thickness in
          match normalized_depth Pz thickness with
          | None => None
          | Some t =>
              let vf := cheby_profile (vf self) (Array t) (method self) in
              let vf := clip vf 0 1 in
              Some (Mvf <-! nd_op Cmul M (nd_map RtoC vf) ;;
                    Svf <-! nd_op Cmul S' (nd_map RtoC (nd_map (fun v => 1 - v) vf)) ;;
                    P <-! nd_op Cadd Mvf Svf ;;
                    let Pr := nd_map real P in
                    let Pi := nd_map imag P in
                    ok {| Slabs.rho := Pr; Slabs.irho := Pi; Slabs.w := Pw |})
          end
      end
  end.
End Probe.
End ChebyVF.

End ChebyLayers.

(* ================================================================== *)
(** * Part VI.  Properties of dream/model.py *)
(* ================================================================== *)

Module ModelProofs.
Import Numpy Py Linalg Model.

(** ** Signs and the special values *)

Lemma Rsgn_pos (r : R) : 0 < r -> Rsgn r = Gt.
Proof.
  intros H. unfold Rsgn. destruct (Rlt_dec 0 r); [reflexivity | contradiction].
Qed.

Lemma Rsgn_neg (r : R) : r < 0 -> Rsgn r = Lt.
Proof.
  intros H. unfold Rsgn.
  destruct (Rlt_dec 0 r); [lra |].
  destruct (Rlt_dec r 0); [reflexivity | contradiction].
Qed.

Lemma Rsgn_zero (r : R) : r = 0 -> Rsgn r = Eq.
Proof.
  intros ->. unfold Rsgn.
  destruct (Rlt_dec 0 0); [lra |]. destruct (Rlt_dec 0 0); [lra | reflexivity].
Qed.

Lemma xlog_zero : xlog (Fin 0) = NInf.
Proof. unfold xlog. now rewrite Rsgn_zero. Qed.

Lemma xlog_negative (r : R) : r < 0 -> xlog (Fin r) = NaN.
Proof. intros H. unfold xlog. now rewrite Rsgn_neg. Qed.

Lemma xlog_positive (r : R) : 0 < r -> xlog (Fin r) = Fin (ln r).
Proof. intros H. unfold xlog. now rewrite Rsgn_pos. Qed.

Lemma xneg_involutive (v : xreal) : xneg (xneg v) = v.
Proof. destruct v; simpl; try reflexivity. now rewrite Ropp_involutive. Qed.

(** ** The range of exp *)

(** [exp r] is within the float64 range. *)
Definition exp_in_range (r : R) : Prop := float_underflow < exp r < float_overflow.

(** The value [v] of a negative log likelihood is one whose likelihood
    [exp(-v)] is representable: a special value, or a number with
    [exp(-v)] within the float64 range. *)
Definition exp_representable (v : xreal) : Prop :=
  match v with
  | Fin r => exp_in_range (- r)
  | _ => True
  end.


Lemma exp_le_pow3 (n : nat) : exp (INR n) <= 3 ^ n.
Proof.
  induction n as [| n IH]; [simpl; rewrite exp_0; lra |].
  rewrite S_INR, exp_plus. change (3 ^ S n) with (3 * 3 ^ n).
  pose proof exp_le_3 as H1. pose proof (exp_pos (INR n)) as H2. pose proof (exp_pos 1) as H3.
  nra.
Qed.

Lemma pow3_600 : 3 ^ 600 <= 2 ^ 960.
Proof.
  assert (H : 3 ^ (5 * 120) <= 2 ^ (8 * 120)).
  { rewrite (pow_mult 3 5 120), (pow_mult 2 8 120). apply pow_incr. simpl. lra. }
  exact H.
Qed.

Lemma float_overflow_large : 2 ^ 970 <= float_overflow.
Proof.
  unfold float_overflow.
  assert (E : 2 ^ 1024 = 2 ^ 970 * 2 ^ 54) by (rewrite <- pow_add; reflexivity).
  rewrite E.
  pose proof (pow_lt 2 970 ltac:(lra)) as H.
  assert (H54 : 2 ^ 1 <= 2 ^ 54) by (apply (Rle_pow 2 1 54); [lra | lia]).
  rewrite pow_1 in H54.
  nra.
Qed.

Lemma exp_600 : exp 600 <= 2 ^ 960.
Proof.
  replace 600 with (INR 600) by (rewrite INR_IZR_INZ; reflexivity).
  eapply Rle_trans; [apply exp_le_pow3 | apply pow3_600].
Qed.

Lemma exp_monotone (x y : R) : x <= y -> exp x <= exp y.
Proof. intros [H | ->]; [left; now apply exp_increasing | right; reflexivity]. Qed.

Lemma exp_in_range_600 (r : R) : -600 <= r <= 600 -> exp_in_range r.
Proof.
  intros [Hlo Hhi]. unfold exp_in_range, float_underflow.
  pose proof exp_600 as H600.
  pose proof (pow_lt 2 960 ltac:(lra)) as P960.
  assert (H1 : 2 ^ 960 < 2 ^ 970) by (apply Rlt_pow; [lra | lia]).
  assert (H2 : 2 ^ 960 < 2 ^ 1075) by (apply Rlt_pow; [lra | lia]).
  split.
  - apply Rlt_le_trans with (/ 2 ^ 960).
    + apply Rinv_lt_contravar; [| exact H2]. apply Rmult_lt_0_compat; lra.
    + apply Rle_trans with (exp (- 600)); [| apply exp_monotone; lra].
      replace (-600) with (- (600)) by lra.
      rewrite exp_Ropp. apply Rinv_le_contravar; [apply exp_pos | exact H600].
  - apply Rle_lt_trans with (exp 600); [apply exp_monotone; lra |].
    pose proof float_overflow_large. lra.
Qed.






(** ** Density *)

(** C4, as stated, fails: where the density function returns [-1] the
    result is [nan], not [+inf]. *)
Lemma Density_nllf_negative_is_nan :
  Density.nllf (Density.__init__ (fun _ => Fin (-1)) None None) [] numpy_random tt
    = inr (NaN, tt)
  /\ NaN <> PInf.
Proof.
  split; [| discriminate].
  cbv [Density.nllf Density.__init__ Density.f ret].
  rewrite xlog_negative by lra. reflexivity.
Qed.

(** C4 (amended).  [Density.nllf] never raises.  Where the density function
    returns exactly [0] it returns [+inf]; where the density function
    returns a negative number, or [-inf], it returns [nan]; at a positive
    density [r] it returns [-log r]. *)
Theorem Density_nllf_nonpositive :
  forall (W : Type) (self : Density.t) (x : vector) (RNG : rng) (w : W),
  exists v : xreal,
    Density.nllf self x RNG w = inr (v, w)
    /\ (Density.f self x = Fin 0 -> v = PInf)
    /\ (forall r, Density.f self x = Fin r -> r < 0 -> v = NaN)
    /\ (Density.f self x = NInf -> v = NaN)
    /\ (forall r, Density.f self x = Fin r -> 0 < r -> v = Fin (- ln r)).
Proof.
  intros W self x RNG w.
  exists (xneg (xlog (Density.f self x))).
  split; [reflexivity |].
  repeat split.
  - intros ->. now rewrite xlog_zero.
  - intros r -> Hr. now rewrite xlog_negative.
  - intros ->. reflexivity.
  - intros r -> Hr. now rewrite xlog_positive.
Qed.

(** ** Simulation *)

Lemma nd_op_scalar_l {A} (f : A -> A -> A) (a : A) (b : ndarray A) :
  nd_op f (Scalar a) b = inr (broadcast f (Scalar a) b).
Proof. destruct b; reflexivity. Qed.

Lemma nd_op_scalar_r {A} (f : A -> A -> A) (a : ndarray A) (b : A) :
  nd_op f a (Scalar b) = inr (broadcast f a (Scalar b)).
Proof. destruct a; reflexivity. Qed.

Lemma nd_op_error {A} (f : A -> A -> A) (a b : ndarray A) (e : exn) :
  nd_op f a b = inl e -> exn_class e = "ValueError"%string.
Proof.
  intros He.
  destruct a as [x | xs], b as [y | ys]; try discriminate.
  cbn [nd_op] in He. unfold broadcast1 in He.
  destruct (Nat.eqb (length xs) (length ys)); [discriminate |].
  destruct xs as [| x [| x' xs']]; destruct ys as [| y [| y' ys']];
    try discriminate; cbn [rbind raise] in He; injection He as <-; reflexivity.
Qed.

Lemma is_zero_true (y : xreal) : is_zero y = true <-> y = Fin 0.
Proof.
  destruct y as [r | | |]; cbn [is_zero]; try (split; discriminate).
  destruct (Req_dec_T r 0) as [-> | Hr]; [split; reflexivity |].
  split; [discriminate |]. intros H. injection H as H. contradiction.
Qed.

(** The division [a / b] that Python carries out itself, at a zero
    divisor. *)
Definition python_zero_division (a b : number) : Prop :=
  (exists x, a = PyNum x) /\ b = PyNum (Fin 0).

Lemma num_div_error (a b : number) (e : exn) :
  num_div a b = inl e ->
  (python_zero_division a b /\ exn_class e = "ZeroDivisionError"%string)
  \/ exn_class e = "ValueError"%string.
Proof.
  destruct a as [x | a], b as [y | b]; cbn [num_div to_nd].
  - destruct (is_zero y) eqn:Hz; [| discriminate].
    intros He. injection He as <-. left. split; [| reflexivity].
    apply is_zero_true in Hz. subst y. split; [eexists |]; reflexivity.
  - destruct (nd_op xdiv (Scalar x) b) as [e0 | r] eqn:H; [| discriminate].
    intros He. injection He as <-. right. exact (nd_op_error _ _ _ H).
  - destruct (nd_op xdiv a (Scalar y)) as [e0 | r] eqn:H; [| discriminate].
    intros He. injection He as <-. right. exact (nd_op_error _ _ _ H).
  - destruct (nd_op xdiv a b) as [e0 | r] eqn:H; [| discriminate].
    intros He. injection He as <-. right. exact (nd_op_error _ _ _ H).
Qed.

Lemma num_div_zero (a b : number) :
  python_zero_division a b -> num_div a b = inl (ZeroDivisionError "division by zero").
Proof.
  intros [[x ->] ->]. cbn [num_div].
  rewrite (proj2 (is_zero_true (Fin 0)) eq_refl). reflexivity.
Qed.

(** A scalar divisor, other than a Python zero under a Python number, never
    makes the division raise. *)
Lemma num_div_scalar (a b : number) (s : xreal) :
  to_nd b = Scalar s -> ~ python_zero_division a b -> exists q, num_div a b = inr q.
Proof.
  intros Hb Hnz.
  destruct a as [x | a], b as [y | b]; cbn [num_div to_nd] in *.
  - destruct (is_zero y) eqn:Hz; [| eexists; reflexivity].
    exfalso. apply Hnz. apply is_zero_true in Hz. subst y.
    split; [eexists |]; reflexivity.
  - subst b. cbn [nd_op rbind ok]. eexists. reflexivity.
  - rewrite nd_op_scalar_r. cbn [rbind ok]. eexists. reflexivity.
  - subst b. rewrite nd_op_scalar_r. cbn [rbind ok]. eexists. reflexivity.
Qed.

Lemma num_add_one (gamma : number) : exists g1, num_add (PyNum (Fin 1)) gamma = inr g1.
Proof.
  destruct gamma as [g | g]; cbn [num_add to_nd]; [eexists; reflexivity |].
  rewrite nd_op_scalar_l. cbn [rbind ok]. eexists. reflexivity.
Qed.

(** [1 + gamma] is a Python zero exactly when [gamma] is the Python number
    [-1]. *)
Lemma one_plus_gamma_zero (gamma g1 : number) :
  num_add (PyNum (Fin 1)) gamma = inr g1 ->
  (python_zero_division (PyNum (Fin 2)) g1 <-> gamma = PyNum (Fin (-1))).
Proof.
  destruct gamma as [g | g]; cbn [num_add to_nd].
  - intros H. injection H as <-. split.
    + intros [_ H]. injection H as H.
      destruct g as [r | | |]; cbn [xadd] in H; try discriminate.
      injection H as H. do 2 f_equal. lra.
    + intros H. injection H as ->. split; [eexists; reflexivity |].
      cbn [xadd]. do 2 f_equal. lra.
  - rewrite nd_op_scalar_l. cbn [rbind ok]. intros H. injection H as <-.
    split; [intros [_ H] | intros H]; discriminate.
Qed.

(** Modelled from the spec: [exppow.exppow_pars], whose module
    [dream/exppow.py] is not among the sources, at [gamma = 0], where the
    density is the Gaussian one: [cB = 1/2] and [wB = 1/sqrt(2 pi)].  It
    serves only to run the constructor on a concrete input. *)
Definition gauss_pars (gamma : number) : result (number * number) :=
  ok (PyNum (Fin (1 / 2)), PyNum (Fin (/ sqrt (2 * PI)))).

(** C5, as stated, fails: a Simulation built with every argument left at
    its default, [data] absent, is constructed without any error. *)
Lemma Simulation_without_data_constructs :
  exists self : Simulation.t,
    Simulation.__init__ gauss_pars None None None (PyNum (Fin 1)) (PyNum (Fin 0)) None
      = inr self
    /\ Simulation.data self = None.
Proof.
  unfold Simulation.__init__, gauss_pars. cbn [rbind ok num_div num_add is_zero xadd].
  destruct (Req_dec_T 1 0) as [H | _]; [exfalso; lra |].
  cbn [rbind ok to_nd Simulation.ones_like nd_op].
  destruct (Req_dec_T (1 + 0) 0) as [H | _]; [exfalso; lra |].
  cbn [rbind ok]. eexists. split; reflexivity.
Qed.

(** C5 (amended).  The constructor never looks at [data].  With [data]
    absent the only exceptions it can raise are the exception of
    [exppow_pars], ZeroDivisionError where Python divides by a zero Python
    number ([wB/sigma] with both Python numbers and [sigma] zero,
    [2/(1+gamma)] with [gamma] the Python number [-1]), and numpy's
    ValueError for arrays [wB] and [sigma] of different shapes.  Where
    [exppow_pars] returns, [sigma] is a scalar and neither division is by a
    Python zero, it returns the object.  The missing data shows at
    evaluation: [nllf] of such an object raises TypeError, at every point
    where the simulation returns anything but an empty array. *)
Theorem Simulation_without_data :
  forall (exppow_pars : number -> result (number * number))
         (f : option (vector -> ndarray xreal)) (bounds labels : objref)
         (sigma gamma : number),
    (forall e, Simulation.__init__ exppow_pars f bounds None sigma gamma labels = inl e ->
               exppow_pars gamma = inl e
               \/ exn_class e = "ZeroDivisionError"%string
               \/ exn_class e = "ValueError"%string)
    /\ (forall self, Simulation.__init__ exppow_pars f bounds None sigma gamma labels = inr self
          -> Simulation.data self = None
             /\ forall (W : Type) (x : vector) (RNG : rng) (w : W),
                  (forall g, Simulation.f self = Some g -> g x <> Array []) ->
                  exists e, Simulation.nllf self x RNG w = inl e
                            /\ exn_class e = "TypeError"%string)
    /\ (forall cB wB s,
          exppow_pars gamma = inr (cB, wB) ->
          to_nd sigma = Scalar s ->
          ~ python_zero_division wB sigma ->
          gamma <> PyNum (Fin (-1)) ->
          exists self, Simulation.__init__ exppow_pars f bounds None sigma gamma labels
                         = inr self)
    /\ (forall cB wB,
          exppow_pars gamma = inr (cB, wB) ->
          python_zero_division wB sigma
          \/ ((exists s, to_nd sigma = Scalar s) /\ gamma = PyNum (Fin (-1))) ->
          exists msg,
            Simulation.__init__ exppow_pars f bounds None sigma gamma labels
              = inl (ZeroDivisionError msg)).
Proof.
  intros pars f bounds labels sigma gamma.
  unfold Simulation.__init__.
  destruct (pars gamma) as [e0 | [cB wB]] eqn:Hpars; cbn [rbind].
  { repeat split; try discriminate.
    intros e He. left. injection He as <-. reflexivity. }
  destruct (num_add_one gamma) as [g1 Hg1].
  pose proof (one_plus_gamma_zero _ Hg1) as Hgz.
  destruct (num_div wB sigma) as [e1 | q] eqn:Hq; cbn [rbind Simulation.ones_like].
  { destruct (num_div_error _ _ Hq) as [[Hz He1] | He1].
    - repeat split; try discriminate.
      + intros e He. injection He as <-. right. left. exact He1.
      + intros cB' wB' s H Hs Hnz. injection H as _ <-. contradiction.
      + intros cB' wB' _ _. rewrite (num_div_zero Hz) in Hq. injection Hq as <-.
        eexists. reflexivity.
    - repeat split; try discriminate.
      + intros e He. injection He as <-. right. right. exact He1.
      + intros cB' wB' s H Hs Hnz. injection H as _ <-.
        destruct (@num_div_scalar wB sigma s Hs Hnz) as [q Hq']. congruence.
      + intros cB' wB' H [Hz | [[s Hs] Hg]]; injection H as _ <-.
        * rewrite (num_div_zero Hz) in Hq. injection Hq as <-. eexists. reflexivity.
        * exfalso. destruct wB as [x | a], sigma as [y | b]; cbn [num_div to_nd] in Hs, Hq.
          -- destruct (is_zero y); [injection Hq as <-; discriminate | discriminate].
          -- subst b. cbn [nd_op rbind ok] in Hq. discriminate.
          -- rewrite nd_op_scalar_r in Hq. discriminate.
          -- subst b. rewrite nd_op_scalar_r in Hq. discriminate. }
  rewrite nd_op_scalar_r. cbn [rbind]. rewrite Hg1. cbn [rbind].
  destruct (num_div (PyNum (Fin 2)) g1) as [e2 | pw] eqn:Hpw; cbn [rbind ok].
  - destruct (num_div_error _ _ Hpw) as [[Hz He2] | He2].
    + repeat split; try discriminate.
      * intros e He. injection He as <-. right. left. exact He2.
      * intros cB' wB' s _ _ _ Hg. exfalso. apply Hg. now apply Hgz.
      * intros cB' wB' _ _. rewrite (num_div_zero Hz) in Hpw. injection Hpw as <-.
        eexists. reflexivity.
    + exfalso. destruct g1 as [y | b]; cbn [num_div to_nd] in Hpw.
      * destruct (is_zero y); [| discriminate]. injection Hpw as <-. discriminate.
      * rewrite nd_op_scalar_l in Hpw. discriminate.
  - split; [| split; [| split]].
    + intros e He. discriminate.
    + intros self Hs. injection Hs as <-. cbn [Simulation.data].
      split; [reflexivity |].
      intros W x RNG w Hout. unfold Simulation.nllf. cbn [Simulation.data Simulation.f] in *.
      destruct f as [g |]; [| eexists; split; reflexivity].
      specialize (Hout g eq_refl). unfold lift, Simulation.sub_data.
      destruct (g x) as [v | [| v vs]]; try contradiction; eexists; split; reflexivity.
    + intros. eexists. reflexivity.
    + intros cB' wB' H [Hz | [_ Hg]]; injection H as _ <-.
      * rewrite (num_div_zero Hz) in Hq. discriminate.
      * apply Hgz in Hg. rewrite (num_div_zero Hg) in Hpw. discriminate.
Qed.

(** The theorem at the Python numbers [sigma = 0] and [gamma = -1], with
    constants given as Python numbers: each raises ZeroDivisionError. *)
Lemma Simulation_without_data_witness :
  (exists msg,
      Simulation.__init__ gauss_pars None None None (PyNum (Fin 0)) (PyNum (Fin 0)) None
      = inl (ZeroDivisionError msg))
  /\ (exists msg,
        Simulation.__init__ gauss_pars None None None (PyNum (Fin 1)) (PyNum (Fin (-1))) None
        = inl (ZeroDivisionError msg)).
Proof.
  split.
  - apply (proj2 (proj2 (proj2 (@Simulation_without_data gauss_pars None None None
                                  (PyNum (Fin 0)) (PyNum (Fin 0)))))
             (PyNum (Fin (1 / 2))) (PyNum (Fin (/ sqrt (2 * PI)))) eq_refl).
    left. split; [eexists |]; reflexivity.
  - apply (proj2 (proj2 (proj2 (@Simulation_without_data gauss_pars None None None
                                  (PyNum (Fin 1)) (PyNum (Fin (-1))))))
             (PyNum (Fin (1 / 2))) (PyNum (Fin (/ sqrt (2 * PI)))) eq_refl).
    right. split; [eexists |]; reflexivity.
Defined.

(** ** log_density *)

(** The successive calls [self.nllf(x, RNG)] for [x] running through a
    population: the values returned, and the interpreter state on the way. *)
Inductive calls {W} (self : MCMCModel W) (RNG : rng)
  : W -> list vector -> list xreal -> W -> Prop :=
| calls_nil (w : W) : calls self RNG w [] [] w
| calls_cons (w w1 w2 : W) (x : vector) (v : xreal) (pop : list vector) (vs : list xreal) :
    nllf self x RNG w = inr (v, w1) ->
    calls self RNG w1 pop vs w2 ->
    calls self RNG w (x :: pop) (v :: vs) w2.

Lemma calls_length {W} (self : MCMCModel W) RNG w pop vs w' :
  calls self RNG w pop vs w' -> length vs = length pop.
Proof. induction 1; simpl; congruence. Qed.

Lemma calls_pointwise {W} (self : MCMCModel W) RNG w pop vs w' :
  calls self RNG w pop vs w' ->
  Forall2 (fun x v => exists w0 w1, nllf self x RNG w0 = inr (v, w1)) pop vs.
Proof. induction 1; constructor; eauto. Qed.

Lemma log_density_cons {W} (self : MCMCModel W) x pop RNG (w : W) :
  log_density self (x :: pop) RNG w =
  match nllf self x RNG w with
  | inl e => inl e
  | inr (v, w1) =>
      match log_density self pop RNG w1 with
      | inl e => inl e
      | inr (vs, w2) => inr (xneg v :: vs, w2)
      end
  end.
Proof.
  unfold log_density. cbn [comprehension]. unfold bind, ret.
  destruct (nllf self x RNG w) as [e | [v w1]]; [reflexivity |].
  destruct (comprehension _ pop w1) as [e | [vs w2]]; reflexivity.
Qed.

(** C9.  For every model and every population on which [nllf] returns,
    [log_density] returns one result per parameter vector, in the order of
    the population; the i-th result is the negation of what [nllf] returned
    for the i-th vector. *)
Theorem log_density_spec :
  forall (W : Type) (self : MCMCModel W) (pop : list vector) (RNG : rng) (w : W),
    (forall x w0, In x pop -> exists v w1, nllf self x RNG w0 = inr (v, w1)) ->
    exists (vs : list xreal) (w' : W),
      calls self RNG w pop vs w'
      /\ log_density self pop RNG w = inr (map xneg vs, w')
      /\ length (map xneg vs) = length pop
      /\ forall i x, nth_error pop i = Some x ->
           exists v w0 w1,
             nllf self x RNG w0 = inr (v, w1)
             /\ nth_error vs i = Some v
             /\ nth_error (map xneg vs) i = Some (xneg v).
Proof.
  intros W self pop RNG.
  assert (Hmain : forall w,
    (forall x w0, In x pop -> exists v w1, nllf self x RNG w0 = inr (v, w1)) ->
    exists vs w', calls self RNG w pop vs w'
                  /\ log_density self pop RNG w = inr (map xneg vs, w')).
  { induction pop as [| x pop IH]; intros w Hret.
    - exists [], w. split; [constructor | reflexivity].
    - destruct (Hret x w (or_introl eq_refl)) as (v & w1 & Hv).
      destruct (IH w1) as (vs & w2 & Hc & Hl).
      { intros y w0 Hy. apply Hret. now right. }
      exists (v :: vs), w2. split.
      + econstructor; eassumption.
      + rewrite log_density_cons, Hv, Hl. reflexivity. }
  intros w Hret.
  destruct (Hmain w Hret) as (vs & w' & Hc & Hl).
  exists vs, w'. split; [exact Hc |]. split; [exact Hl |]. split.
  - rewrite length_map. eapply calls_length; eassumption.
  - intros i x Hi.
    pose proof (calls_pointwise Hc) as HF.
    clear Hc Hl Hmain Hret. revert i Hi.
    induction HF as [| y v pop' vs' (w0 & w1 & Hy) HF IH]; intros i Hi.
    + destruct i; discriminate.
    + destruct i as [| i]; simpl in Hi |- *.
      * injection Hi as ->. exists v, w0, w1. auto.
      * apply IH. exact Hi.
Qed.

(** The theorem at a population of two points and a Density model. *)
Lemma log_density_spec_witness :
  exists (vs : list xreal) (w' : unit),
    calls (Density.model (Density.__init__ (fun _ => Fin 1) None None))
          numpy_random tt [[0]; [1]] vs w'
    /\ log_density (Density.model (Density.__init__ (fun _ => Fin 1) None None))
                   [[0]; [1]] numpy_random tt = inr (map xneg vs, w')
    /\ length (map xneg vs) = length [[0]; [1]]
    /\ forall i x, nth_error [[0]; [1]] i = Some x ->
         exists v (w0 w1 : unit),
           nllf (Density.model (Density.__init__ (fun _ => Fin 1) None None))
                x numpy_random w0 = inr (v, w1)
           /\ nth_error vs i = Some v
           /\ nth_error (map xneg vs) i = Some (xneg v).
Proof.
  apply (@log_density_spec unit
           (Density.model (Density.__init__ (fun _ => Fin 1) None None))
           [[0]; [1]] numpy_random tt).
  intros x w0 _. eexists. eexists. reflexivity.
Defined.

(** For a model whose [nllf] is a function of the point alone,
    [log_density] maps it over the population. *)
Lemma log_density_pure {W} (self : MCMCModel W) (g : vector -> xreal) RNG :
  (forall x w, nllf self x RNG w = inr (g x, w)) ->
  forall pop w, log_density self pop RNG w = inr (map (fun x => xneg (g x)) pop, w).
Proof.
  intros Hg pop w. induction pop as [| x pop IH]; [reflexivity |].
  rewrite log_density_cons, Hg, IH. reflexivity.
Qed.


(** ** Mixture: construction *)

Lemma nth_error_step2 {A} (l : list A) (i : nat) :
  nth_error (step2 l) i = nth_error l (2 * i).
Proof.
  revert l. induction i as [| i IH]; intros l.
  - destruct l; reflexivity.
  - replace (2 * S i)%nat with (S (S (2 * i))) by lia.
    destruct l as [| a [| b l]]; cbn [step2 nth_error]; [reflexivity | | apply IH].
    now destruct i.
Qed.

Lemma nth_error_step2_tl {A} (l : list A) (i : nat) :
  nth_error (step2 (tl l)) i = nth_error l (2 * i + 1).
Proof.
  rewrite nth_error_step2. replace (2 * i + 1)%nat with (S (2 * i)) by lia.
  destruct l; [now destruct (2 * i)%nat | reflexivity].
Qed.

Lemma forallb_false_nth {A} (P : A -> bool) (l : list A) :
  forallb P l = false <-> exists i o, nth_error l i = Some o /\ P o = false.
Proof.
  induction l as [| a l IH]; cbn [forallb].
  - split; [discriminate | intros (i & o & H & _); now destruct i].
  - rewrite andb_false_iff, IH. split.
    + intros [Ha | (i & o & Hi & Ho)]; [exists 0%nat, a | exists (S i), o]; auto.
    + intros ([| i] & o & Hi & Ho); cbn [nth_error] in Hi.
      * injection Hi as ->. now left.
      * right. eauto.
Qed.

Lemma odd_mod2 (n : nat) : Nat.eqb (n mod 2) 0 = negb (Nat.odd n).
Proof.
  rewrite <- Nat.negb_even, negb_involutive.
  destruct (Nat.even n) eqn:E.
  - apply Nat.even_spec in E. destruct E as [k ->].
    rewrite Nat.mul_comm, Nat.Div0.mod_mul. reflexivity.
  - apply (f_equal negb) in E. rewrite Nat.negb_even in E. cbn in E.
    apply Nat.odd_spec in E. destruct E as [k ->].
    rewrite Nat.add_comm, Nat.mul_comm, Nat.Div0.mod_add. reflexivity.
Qed.

(** The argument list breaks the call shape [Mixture(M1, w1, M2, w2, ...)]:
    its length is odd, or an object at a model position has no [nllf], or an
    object at a weight position is not a scalar. *)
Definition malformed {W} (args : list (pyobj W)) : Prop :=
  Nat.odd (length args) = true
  \/ (exists i M, nth_error args (2 * i) = Some M /\ hasattr_nllf M = false)
  \/ (exists i w, nth_error args (2 * i + 1) = Some w /\ isscalar w = false).

Lemma Mixture_check_malformed {W} (args : list (pyobj W)) :
  negb (Nat.eqb (length args mod 2) 0)
  || negb (forallb hasattr_nllf (step2 args))
  || negb (forallb isscalar (step2 (tl args))) = true
  <-> malformed args.
Proof.
  unfold malformed.
  rewrite !orb_true_iff, !negb_true_iff, odd_mod2, negb_false_iff, !forallb_false_nth.
  setoid_rewrite nth_error_step2_tl. setoid_rewrite nth_error_step2.
  tauto.
Qed.

(** C7, as stated, fails: [Mixture()] constructs, with no pair at all and
    weight sum [0]. *)
Lemma Mixture_empty_constructs :
  exists self : Mixture.t unit,
    Mixture.__init__ [] = inr self
    /\ Mixture.pairs self = []
    /\ Mixture.weight self = Fin 0
    /\ ~ (0 < 0).
Proof.
  eexists. repeat split; try reflexivity. lra.
Qed.

(** C7 (amended).  The constructor checks the call shape before anything
    else: a malformed argument list raises TypeError.  A Mixture that
    constructs has a well-formed argument list, the pairing of its models
    with its weights, and the sum of its weights.  (Nothing requires a
    pair to be present or the sum to be positive.) *)
Theorem Mixture_init_checks :
  forall (W : Type) (args : list (pyobj W)),
    (malformed args ->
       Mixture.__init__ args = inl (TypeError "Expected MixtureModel(M1,w1,M2,w2,...)"))
    /\ (forall self, Mixture.__init__ args = inr self ->
          ~ malformed args
          /\ Mixture.pairs self = combine (step2 args) (step2 (tl args))
          /\ builtin_sum (Fin 0) (step2 (tl args)) = inr (Mixture.weight self)).
Proof.
  intros W args. unfold Mixture.__init__.
  pose proof (Mixture_check_malformed args) as Hc.
  destruct (negb (Nat.eqb (length args mod 2) 0)
            || negb (forallb hasattr_nllf (step2 args))
            || negb (forallb isscalar (step2 (tl args)))) eqn:E.
  - split; [reflexivity | discriminate].
  - split.
    + intros Hm. apply Hc in Hm. discriminate.
    + intros self Hs.
      destruct (builtin_sum (Fin 0) (step2 (tl args))) as [e | s]; cbn [rbind] in Hs;
        [discriminate |].
      injection Hs as <-. cbn [Mixture.pairs Mixture.weight].
      repeat split. intros Hm. apply Hc in Hm. discriminate.
Qed.

(** The theorem at [Mixture(None)] and at [Mixture(M, 1.0)]. *)
Lemma Mixture_init_checks_witness :
  Mixture.__init__ [@PyNone unit]
    = inl (TypeError "Expected MixtureModel(M1,w1,M2,w2,...)")
  /\ ~ malformed [PyModel (@Density.model unit (Density.__init__ (fun _ => Fin 1) None None));
                  PyFloat (Fin 1)].
Proof.
  split.
  - apply (proj1 (@Mixture_init_checks unit [PyNone])).
    left. reflexivity.
  - eapply (proj2 (@Mixture_init_checks unit
                     [PyModel (Density.model (Density.__init__ (fun _ => Fin 1) None None));
                      PyFloat (Fin 1)])).
    reflexivity.
Defined.


(** ** Mixture: evaluation *)




(** [Mixture(M, 1.0)] as the constructor returns it. *)
Definition single {W} (M : MCMCModel W) : Mixture.t W :=
  {| Mixture.pairs := [(PyModel M, PyFloat (Fin 1))]; Mixture.weight := Fin (0 + 1) |}.









(** ** MVNormal: the Cholesky step *)

(** [a] is an [n] by [n] array. *)
Definition sq (n : nat) (a : matrix) : Prop :=
  length a = n /\ Forall (fun row => length row = n) a.

(** The quadratic form [x^T S x] of the symmetric matrix [S] that [a] holds
    in its lower triangle and diagonal. *)
Fixpoint quad_lower (x : list R) (a : matrix) : R :=
  match x, a with
  | x0 :: x', row0 :: rest =>
      hd 0 row0 * (x0 * x0) + 2 * x0 * dot (map (hd 0) rest) x'
      + quad_lower x' (map (@tl R) rest)
  | _, _ => 0
  end.

(** The quadratic form [x^T a x = sum_i sum_j x_i a_ij x_j]. *)
Definition quad (x : list R) (a : matrix) : R :=
  dot x (map (fun row => dot row x) a).

Definition transpose_invariant (a : matrix) : Prop :=
  forall i j, nth j (nth i a []) 0 = nth i (nth j a []) 0.

(** A symmetric matrix: square, and equal to its transpose. *)
Definition symmetric (a : matrix) : Prop :=
  sq (length a) a /\ transpose_invariant a.

Definition nonzero (x : list R) : Prop := Exists (fun v => v <> 0) x.

(** Positive definite: a symmetric square matrix whose quadratic form is
    positive at every nonzero vector. *)
Definition positive_definite (a : matrix) : Prop :=
  a <> [] /\ symmetric a
  /\ forall x, length x = length a -> nonzero x -> 0 < quad x a.

(** The same of the matrix in the lower triangle of [a]. *)
Definition positive_definite_lower (a : matrix) : Prop :=
  a <> [] /\ sq (length a) a
  /\ forall x, length x = length a -> nonzero x -> 0 < quad_lower x a.

(** [c - b b^T] *)
Definition rank1_update (b : list R) (c : matrix) : matrix :=
  zip_with (fun bi row => zip_with (fun bj x => x - bi * bj) b row) b c.

Lemma is_square_sq (a : matrix) : is_square a = true <-> sq (length a) a.
Proof.
  unfold is_square, sq. rewrite forallb_forall, Forall_forall.
  split.
  - intros H. split; [reflexivity |]. intros row Hr. now apply Nat.eqb_eq, H.
  - intros [_ H] row Hr. now apply Nat.eqb_eq, H.
Qed.

Lemma zip_with_map_r {A B B' C'} (f : A -> B -> C') (h : B' -> B) xs ys :
  zip_with f xs (map h ys) = zip_with (fun x y => f x (h y)) xs ys.
Proof.
  revert ys. induction xs as [| x xs IH]; intros [| y ys]; cbn; [reflexivity .. |].
  now rewrite IH.
Qed.

Lemma zip_with_map_l {A A' B C'} (f : A -> B -> C') (h : A' -> A) xs ys :
  zip_with f (map h xs) ys = zip_with (fun x y => f (h x) y) xs ys.
Proof.
  revert ys. induction xs as [| x xs IH]; intros [| y ys]; cbn; [reflexivity .. |].
  now rewrite IH.
Qed.

Lemma map_zip_with {A B C' D} (h : C' -> D) (f : A -> B -> C') xs ys :
  map h (zip_with f xs ys) = zip_with (fun x y => h (f x y)) xs ys.
Proof.
  revert ys. induction xs as [| x xs IH]; intros [| y ys]; cbn; [reflexivity .. |].
  now rewrite IH.
Qed.

Lemma zip_with_ext_in {A B C'} (f g : A -> B -> C') xs ys :
  (forall x y, In x xs -> In y ys -> f x y = g x y) ->
  zip_with f xs ys = zip_with g xs ys.
Proof.
  revert ys. induction xs as [| x xs IH]; intros [| y ys] H; cbn; [reflexivity .. |].
  rewrite H by (now left). rewrite IH; [reflexivity |].
  intros; apply H; now right.
Qed.

Lemma zip_with_length {A B C'} (f : A -> B -> C') xs ys :
  length (zip_with f xs ys) = Nat.min (length xs) (length ys).
Proof.
  revert ys. induction xs as [| x xs IH]; intros [| y ys]; cbn; [reflexivity .. |].
  now rewrite IH.
Qed.

Lemma dot_nil_r (u : list R) : dot u [] = 0.
Proof. now destruct u. Qed.

Lemma dot_cons (a b : R) (u v : list R) : dot (a :: u) (b :: v) = a * b + dot u v.
Proof. reflexivity. Qed.

Lemma dot_comm (u v : list R) : dot u v = dot v u.
Proof.
  revert v. induction u as [| a u IH]; intros [| b v]; try reflexivity.
  rewrite !dot_cons, IH. lra.
Qed.

Lemma dot_zero_r (u v : list R) : Forall (fun a => a = 0) v -> dot u v = 0.
Proof.
  intros H. revert u. induction H as [| b v Hb _ IH]; intros [| a u]; try reflexivity.
  rewrite dot_cons, IH, Hb. lra.
Qed.

Lemma quad_lower_zero (x : list R) (a : matrix) :
  Forall (fun v => v = 0) x -> quad_lower x a = 0.
Proof.
  intros H. revert a. induction H as [| x0 x Hx0 Hx IH]; intros [| row0 rest]; try reflexivity.
  cbn [quad_lower]. rewrite IH, (dot_zero_r _ Hx), Hx0. lra.
Qed.

Lemma zero_or_nonzero (x : list R) : Forall (fun v => v = 0) x \/ nonzero x.
Proof.
  induction x as [| a x [IH | IH]].
  - left. constructor.
  - destruct (Req_dec_T a 0) as [-> | Ha].
    + left. now constructor.
    + right. now constructor.
  - right. now constructor 2.
Qed.


Lemma sq_cons_inv (n : nat) (row0 : list R) (rest : matrix) :
  sq (S n) (row0 :: rest) ->
  exists a00 r0, row0 = a00 :: r0 /\ length r0 = n /\ length rest = n
                 /\ Forall (fun row => length row = S n) rest
                 /\ sq n (map (@tl R) rest).
Proof.
  intros [Hlen Hrows]. inversion Hrows as [| ? ? H0 Hrest]; subst.
  destruct row0 as [| a00 r0]; [discriminate |].
  exists a00, r0. cbn in Hlen, H0.
  repeat split; try lia; try assumption.
  - rewrite length_map. lia.
  - apply Forall_map. eapply Forall_impl; [| exact Hrest].
    intros [| c row] Hc; cbn in *; [discriminate | lia].
Qed.

Lemma dot_zip_with_sub {A} (h : A -> R) (k : R) (b : list R) (rest : list A) (x : list R) :
  length b = length x -> length rest = length x ->
  dot (zip_with (fun bi row => h row - bi * k) b rest) x
  = dot (map h rest) x - k * dot b x.
Proof.
  revert b rest. induction x as [| x0 x IH]; intros b rest Hb Hr.
  - rewrite !dot_nil_r. lra.
  - destruct b as [| b0 b]; [discriminate |]. destruct rest as [| r0 rest]; [discriminate |].
    cbn [zip_with map]. rewrite !dot_cons, IH by (cbn in *; lia). lra.
Qed.

Lemma dot_map_div {A} (h : A -> R) (l : R) (rest : list A) (x : list R) :
  l <> 0 -> dot (map h rest) x = l * dot (map (fun r => h r / l) rest) x.
Proof.
  intros Hl. revert x. induction rest as [| r rest IH]; intros [| x0 x]; cbn [map];
    rewrite ?dot_nil_r; try (unfold dot; cbn; lra).
  rewrite !dot_cons, IH. field. exact Hl.
Qed.

(** The quadratic form of [c - b b^T] is that of [c] less [(b . x)^2]. *)
Lemma quad_lower_rank1 (x b : list R) (c : matrix) :
  length b = length x -> sq (length x) c ->
  quad_lower x (rank1_update b c) = quad_lower x c - dot b x * dot b x.
Proof.
  revert b c. induction x as [| x0 x IH]; intros b c Hb Hc.
  - rewrite dot_nil_r. cbn. lra.
  - destruct b as [| b0 b]; [discriminate |].
    destruct c as [| row0 rest]; [destruct Hc; discriminate |].
    cbn [length] in Hc.
    destruct (sq_cons_inv Hc) as (c00 & r0 & -> & Hr0 & Hrest & Hrows & Hsub).
    unfold rank1_update. cbn [zip_with quad_lower hd].
    rewrite !map_zip_with.
    rewrite (zip_with_ext_in
               (fun bi row => hd 0 (zip_with (fun bj v => v - bi * bj) (b0 :: b) row))
               (fun bi row => hd 0 row - bi * b0)).
    2:{ intros bi row _ Hin. rewrite Forall_forall in Hrows.
        specialize (Hrows row Hin). destruct row; [discriminate | reflexivity]. }
    rewrite (zip_with_ext_in
               (fun bi row => tl (zip_with (fun bj v => v - bi * bj) (b0 :: b) row))
               (fun bi row => zip_with (fun bj v => v - bi * bj) b (tl row))).
    2:{ intros bi row _ Hin. rewrite Forall_forall in Hrows.
        specialize (Hrows row Hin). destruct row; [discriminate | reflexivity]. }
    rewrite dot_zip_with_sub by (cbn in Hb; lia).
    rewrite <- (zip_with_map_r (fun bi row => zip_with (fun bj v => v - bi * bj) b row)).
    fold (rank1_update b (map (@tl R) rest)).
    rewrite IH by (cbn in Hb; first [lia | assumption]).
    rewrite dot_cons. ring.
Qed.

(** Where the elimination succeeds, the matrix in the lower triangle is
    positive definite. *)
Lemma chol_positive (n : nat) :
  forall (a L : matrix), sq n a -> chol n a = Some L ->
  forall x, length x = n -> nonzero x -> 0 < quad_lower x a.
Proof.
  induction n as [| n IH]; intros a L Ha Hchol x Hx Hnz.
  - destruct x; [inversion Hnz | discriminate].
  - destruct a as [| row0 rest]; [discriminate |].
    destruct (sq_cons_inv Ha) as (a00 & r0 & -> & Hr0 & Hrest & Hrows & Hsub).
    destruct x as [| x0 x]; [discriminate |].
    cbn [chol hd] in Hchol.
    destruct (Rlt_dec 0 a00) as [Hpos | ]; [| discriminate].
    set (l := sqrt a00) in *.
    set (b := map (fun row => hd 0 row / l) rest) in *.
    destruct (chol n _) as [L' |] eqn:Hsubchol; [| discriminate].
    assert (Hl : 0 < l) by (apply sqrt_lt_R0; exact Hpos).
    assert (Hll : l * l = a00) by (apply sqrt_sqrt; lra).
    assert (Hlenb : length b = length x)
      by (unfold b; rewrite length_map; cbn in Hx; lia).
    rewrite <- (zip_with_map_r (fun bi row => zip_with (fun bj v => v - bi * bj) b row))
      in Hsubchol.
    fold (rank1_update b (map (@tl R) rest)) in Hsubchol.
    assert (Hxn : length x = n) by (cbn in Hx; lia).
    assert (Hsq' : sq n (rank1_update b (map (@tl R) rest))).
    { destruct Hsub as [Hs1 Hs2]. split.
      - unfold rank1_update. rewrite zip_with_length, Hs1. lia.
      - unfold rank1_update. apply Forall_forall. intros row Hin.
        rewrite Forall_forall in Hs2.
        assert (Hgen : forall (bs : list R) (rows : matrix),
                   (forall r, In r rows -> length r = n) ->
                   In row (zip_with (fun bi r => zip_with (fun bj v => v - bi * bj) b r) bs rows) ->
                   length row = n).
        { induction bs as [| b0 bs IHb]; intros [| r rows] Hr Hi; cbn in Hi; try contradiction.
          destruct Hi as [<- | Hi].
          - rewrite zip_with_length, (Hr r) by (now left). lia.
          - apply (IHb rows); [intros; apply Hr; now right | exact Hi]. }
        apply (Hgen b (map (@tl R) rest)); assumption. }
    cbn [quad_lower hd].
    assert (Hq : quad_lower x (rank1_update b (map (@tl R) rest))
                 = quad_lower x (map (@tl R) rest) - dot b x * dot b x)
      by (apply quad_lower_rank1; [exact Hlenb | rewrite Hxn; exact Hsub]).
    rewrite (dot_map_div (hd 0) rest x (l := l)) by lra. fold b.
    destruct (zero_or_nonzero x) as [Hz | Hnz'].
    + rewrite (dot_zero_r _ Hz), (quad_lower_zero _ Hz).
      assert (Hx0 : x0 <> 0).
      { apply Exists_cons in Hnz. destruct Hnz as [H0 | H0]; [exact H0 |].
        exfalso. apply Exists_exists in H0. destruct H0 as (v & Hin & Hv).
        rewrite Forall_forall in Hz. apply Hv, Hz, Hin. }
      assert (0 < x0 * x0) by nra. nra.
    + pose proof (IH _ _ Hsq' Hsubchol x Hxn Hnz') as Hpos'.
      rewrite Hq in Hpos'.
      pose proof (Rle_0_sqr (l * x0 + dot b x)) as Hs. unfold Rsqr in Hs.
      replace (a00 * (x0 * x0)) with ((l * l) * (x0 * x0)) by (rewrite Hll; reflexivity).
      lra.
Qed.


Lemma dot_map_add {A} (h g : A -> R) (k : R) (rest : list A) (x : list R) :
  dot x (map (fun r => h r * k + g r) rest)
  = k * dot x (map h rest) + dot x (map g rest).
Proof.
  revert x. induction rest as [| r rest IH]; intros [| x0 x]; cbn [map];
    try (unfold dot; cbn; lra).
  rewrite !dot_cons, IH. ring.
Qed.

Lemma nth_tl {A} (j : nat) (l : list A) (d : A) : nth j (tl l) d = nth (S j) l d.
Proof. destruct l; [now destruct j | reflexivity]. Qed.

Lemma transpose_invariant_sub (row0 : list R) (rest : matrix) :
  transpose_invariant (row0 :: rest) -> transpose_invariant (map (@tl R) rest).
Proof.
  intros Hs i j.
  change (@nil R) with (tl (@nil R)). rewrite !map_nth, !nth_tl.
  apply (Hs (S i) (S j)).
Qed.

(** On a symmetric matrix the form read from the lower triangle is the
    quadratic form. *)
Lemma quad_symmetric (x : list R) :
  forall a, sq (length x) a -> transpose_invariant a -> quad x a = quad_lower x a.
Proof.
  induction x as [| x0 x IH]; intros a Ha Hs.
  - reflexivity.
  - destruct a as [| row0 rest]; [destruct Ha; discriminate |].
    cbn [length] in Ha.
    destruct (sq_cons_inv Ha) as (a00 & r0 & -> & Hr0 & Hrest & Hrows & Hsub).
    unfold quad. cbn [map quad_lower hd]. rewrite !dot_cons.
    rewrite (map_ext_in (fun row => dot row (x0 :: x))
                        (fun row => hd 0 row * x0 + dot (tl row) x)).
    2:{ intros row Hin. rewrite Forall_forall in Hrows. specialize (Hrows row Hin).
        destruct row; [discriminate | reflexivity]. }
    rewrite dot_map_add.
    rewrite <- (map_map (@tl R) (fun r => dot r x)).
    fold (quad x (map (@tl R) rest)).
    rewrite (IH _ Hsub (transpose_invariant_sub Hs)).
    assert (Hcol : r0 = map (hd 0) rest).
    { apply (nth_ext _ _ 0 0); [rewrite length_map; lia |].
      intros j Hj.
      transitivity (hd 0 (nth j rest [])); [| symmetry; exact (map_nth (hd 0) rest [] j)].
      specialize (Hs 0%nat (S j)). cbn [nth] in Hs. rewrite Hs.
      now destruct (nth j rest []). }
    rewrite Hcol, (dot_comm x (map (hd 0) rest)). ring.
Qed.

Lemma symmetric_neg1 : symmetric [[-1]].
Proof.
  split.
  - split; [reflexivity |]. repeat constructor.
  - intros [| [| i]] [| [| j]]; try reflexivity; cbn; now destruct i, j.
Qed.

Lemma not_positive_definite_neg1 : ~ positive_definite [[-1]].
Proof.
  intros (_ & _ & H).
  specialize (H [1] eq_refl (Exists_cons_hd (fun v => v <> 0) 1 [] R1_neq_R0)).
  unfold quad, dot in H. cbn in H. lra.
Qed.

Lemma sq_rectangular (a : matrix) : sq (length a) a -> rectangular a = true.
Proof.
  intros [_ H]. destruct a as [| row0 rest]; [reflexivity |].
  cbn [rectangular]. apply forallb_forall. intros row Hin.
  rewrite Forall_forall in H. apply Nat.eqb_eq.
  rewrite (H row) by (now right). rewrite (H row0) by (now left). reflexivity.
Qed.

(** C6, as stated, fails: the symmetric matrix [[-1]] is not positive
    definite, and the exception the constructor raises for it is numpy's
    LinAlgError, not a ConfigurationError. *)
Lemma MVNormal_init_raises_LinAlgError :
  symmetric [[-1]]
  /\ ~ positive_definite [[-1]]
  /\ MVNormal.__init__ [0] [[-1]] = inl (LinAlgError "Matrix is not positive definite")
  /\ exn_class (LinAlgError "Matrix is not positive definite") <> "ConfigurationError"%string.
Proof.
  split; [exact symmetric_neg1 |].
  split; [exact not_positive_definite_neg1 |].
  split; [| discriminate].
  unfold MVNormal.__init__, asarray, cholesky.
  cbn [rectangular forallb rbind ok is_square length Nat.eqb andb chol hd].
  destruct (Rlt_dec 0 (-1)); [lra | reflexivity].
Qed.

(** The Cholesky step rejects every two-dimensional array whose lower
    triangle does not hold a positive definite matrix. *)
Lemma cholesky_not_positive_definite_lower (sigma : matrix) :
  ~ positive_definite_lower sigma ->
  exists msg, cholesky sigma = inl (LinAlgError msg).
Proof.
  intros Hnpd. unfold cholesky.
  destruct sigma as [| row0 rest]; [eexists; reflexivity |].
  destruct (is_square (row0 :: rest)) eqn:Hsq; [| eexists; reflexivity].
  destruct (chol _ _) as [L |] eqn:Hc; [exfalso | eexists; reflexivity].
  apply is_square_sq in Hsq.
  apply Hnpd. split; [discriminate |]. split; [exact Hsq |].
  intros x Hx Hnz. eapply chol_positive; eassumption.
Qed.

(** A [sigma] that is not symmetric can fail to be positive definite and
    still be accepted: only its lower triangle is read. *)
Lemma MVNormal_init_reads_lower_triangle :
  quad [1; 1] [[1; -10]; [0; 1]] < 0
  /\ exists self, MVNormal.__init__ [0; 0] [[1; -10]; [0; 1]] = inr self.
Proof.
  split; [unfold quad, dot; cbn; lra |].
  unfold MVNormal.__init__, asarray, cholesky, inv, ok, raise.
  cbn [rectangular forallb rbind is_square length Nat.eqb andb chol hd tl map zip_with
       repeat].
  destruct (Rlt_dec 0 1) as [_ | H]; [| exfalso; lra].
  rewrite sqrt_1.
  destruct (Rlt_dec 0 (1 - 0 / 1 * (0 / 1))) as [_ | H]; [| exfalso; lra].
  cbn [rbind inv_lower length hd tl map].
  destruct (Req_dec_T 1 0) as [H | _]; [exfalso; lra |].
  destruct (Req_dec_T (sqrt (1 - 0 / 1 * (0 / 1))) 0) as [H | _].
  { exfalso. apply sqrt_eq_0 in H; lra. }
  cbn [rbind]. eexists. reflexivity.
Qed.

(** C6 (amended).  For a symmetric [sigma] that is not positive definite the
    constructor fails at the Cholesky step, with numpy's LinAlgError; no
    object is returned, so nothing is left for [nllf] to fail on. *)
Theorem MVNormal_init_not_positive_definite :
  forall (mu : list R) (sigma : matrix),
    symmetric sigma ->
    ~ positive_definite sigma ->
    exists msg, MVNormal.__init__ mu sigma = inl (LinAlgError msg)
                /\ cholesky sigma = inl (LinAlgError msg).
Proof.
  intros mu sigma Hsym Hnpd.
  assert (Hl : ~ positive_definite_lower sigma).
  { intros (Hne & Hsq & Hq). apply Hnpd.
    split; [exact Hne | split; [exact Hsym |]].
    intros x Hx Hnz. destruct Hsym as [_ Htr].
    rewrite quad_symmetric by (rewrite ?Hx; assumption).
    now apply Hq. }
  destruct (cholesky_not_positive_definite_lower Hl) as [msg Hm].
  exists msg. split; [| exact Hm].
  unfold MVNormal.__init__, asarray.
  rewrite (sq_rectangular (proj1 Hsym)). cbn [rbind ok].
  rewrite Hm. reflexivity.
Qed.

(** The theorem at [MVNormal([0], [[-1]])]. *)
Lemma MVNormal_init_not_positive_definite_witness :
  exists msg, MVNormal.__init__ [0] [[-1]] = inl (LinAlgError msg)
              /\ cholesky [[-1]] = inl (LinAlgError msg).
Proof.
  apply (MVNormal_init_not_positive_definite [0] (sigma := [[-1]])).
  - exact symmetric_neg1.
  - exact not_positive_definite_neg1.
Defined.

End ModelProofs.

(* ================================================================== *)
(** * Part VII.  Properties of refl1d/cheby.py *)
(* ================================================================== *)

Module ChebyProofs.
Import Numpy Cheby ModelProofs.

(** ** Specification-level definitions *)

(** The Chebyshev polynomials of the first kind, by their recurrence:
    [cheb_pair j x] is [(T_j(x), T_{j+1}(x))]. *)
Fixpoint cheb_pair (j : nat) (x : R) : R * R :=
  match j with
  | O => (1, x)
  | S j' => let '(a, b) := cheb_pair j' x in (b, 2 * x * b - a)
  end.

Definition T (j : nat) (x : R) : R := fst (cheb_pair j x).

(** [wsum l F] is [sum_i l_i * F i]. *)
Fixpoint wsum (l : list R) (F : nat -> R) : R :=
  match l with
  | [] => 0
  | a :: l' => a * F 0%nat + wsum l' (fun i => F (S i))
  end.

(** The Chebyshev series [sum_j c_j T_j(x)]. *)
Definition cheb_series (c : list R) (x : R) : R := wsum c (fun j => T j x).

(** [Rsum n F] is [F 0 + ... + F (n-1)]. *)
Fixpoint Rsum (n : nat) (F : nat -> R) : R :=
  match n with
  | O => 0
  | S n' => Rsum n' F + F n'
  end.

(** The control points, as angles: [theta_k = pi (2k + 1) / (2n)]. *)
Definition theta (n k : nat) : R := PI * (2 * INR k + 1) / (2 * INR n).

(** The control point [z_k = L (cos(pi (k - 0.5) / N) + 1) / 2], for
    [k = 1 .. N]. *)
Definition z_k (L : R) (N k : nat) : R := L * (cos (PI * (INR k - 0.5) / INR N) + 1) / 2.

(** The coefficients [cheby_profile] evaluates: the control values
    themselves, or for ['interp'] their transform. *)
Definition coefficients (control : list R) (method : string) : list R :=
  let n := length control in
  if String.eqb method "interp" then
    let w := map (fun j => Cexp (Cmul (Cdiv_R (Cmul (Copp (imag_lit 0.5)) (RtoC PI)) (INR n))
                                      (RtoC (INR j))))
                 (arange n) in
    let y := hstack (step2 control) (rev (step2 (tl control))) in
    map (fun z => (2 / INR n) * real z) (zip_with Cmul (fft (map RtoC y)) w)
  else control.

(** The loop body and the whole evaluation at one coordinate. *)
Definition crenshaw_pt (y : R) (acc : R * R) (c_j : R) : R * R :=
  let '(d, dd) := acc in (y * d + (c_j - dd), d).

Definition profile_pt (c : list R) (t : R) : R :=
  let y := 4 * t - 2 in
  let '(d, dd) := fold_left (crenshaw_pt y) (rev (tl c)) (0, 0) in
  y * (0.5 * d) + (0.5 * nth 0 c 0 - dd).

(** [a] holds the values of [g] over the coordinates [t]: as an array of
    the shape of [t], or as a scalar not yet broadcast when [g] is
    constant. *)
Definition rep (t a : ndarray R) (g : R -> R) : Prop :=
  a = nd_map g t \/ exists v, a = Scalar v /\ forall x, g x = v.

(** ** Arrays *)

Lemma zip_with_map_same {A B C' D} (f : B -> C' -> D) (g : A -> B) (h : A -> C') xs :
  zip_with f (map g xs) (map h xs) = map (fun x => f (g x) (h x)) xs.
Proof. induction xs as [| x xs IH]; cbn; [reflexivity | now rewrite IH]. Qed.

Lemma nd_map_ext {A B} (g h : A -> B) (t : ndarray A) :
  (forall x, g x = h x) -> nd_map g t = nd_map h t.
Proof.
  intros H. destruct t as [x | xs]; cbn; [now rewrite H |].
  f_equal. apply map_ext. exact H.
Qed.

Lemma nd_map_id {A} (t : ndarray A) : nd_map (fun x => x) t = t.
Proof. destruct t; cbn; [reflexivity | now rewrite map_id]. Qed.

Lemma rep_ext t a g h : (forall x, g x = h x) -> rep t a g -> rep t a h.
Proof.
  intros H [-> | (v & -> & Hv)].
  - left. now apply nd_map_ext.
  - right. exists v. split; [reflexivity |]. intros x. now rewrite <- H.
Qed.

Lemma rep_const t v : rep t (Scalar v) (fun _ => v).
Proof. right. exists v. auto. Qed.

Lemma rep_self t : rep t t (fun x => x).
Proof. left. symmetry. apply nd_map_id. Qed.

Lemma broadcast_strict_l (f : R -> R -> R) t a g b h :
  a = nd_map g t -> rep t b h ->
  broadcast f a b = nd_map (fun x => f (g x) (h x)) t.
Proof.
  intros -> [-> | (v & -> & Hv)]; destruct t as [x | xs]; cbn.
  - reflexivity.
  - now rewrite zip_with_map_same.
  - now rewrite Hv.
  - rewrite map_map. f_equal. apply map_ext. intros x. now rewrite Hv.
Qed.

Lemma broadcast_strict_r (f : R -> R -> R) t a g b h :
  rep t a g -> b = nd_map h t ->
  broadcast f a b = nd_map (fun x => f (g x) (h x)) t.
Proof.
  intros [-> | (v & -> & Hv)] ->; destruct t as [x | xs]; cbn.
  - reflexivity.
  - now rewrite zip_with_map_same.
  - now rewrite Hv.
  - rewrite map_map. f_equal. apply map_ext. intros x. now rewrite Hv.
Qed.

Lemma broadcast_rep (f : R -> R -> R) t a g b h :
  rep t a g -> rep t b h -> rep t (broadcast f a b) (fun x => f (g x) (h x)).
Proof.
  intros Ha Hb. destruct Ha as [Ha | (v & -> & Hv)].
  - left. now apply broadcast_strict_l.
  - destruct Hb as [Hb | (v' & -> & Hv')].
    + left. apply broadcast_strict_r; [| exact Hb]. right. eauto.
    + right. exists (f v v'). split; [reflexivity |].
      intros x. now rewrite Hv, Hv'.
Qed.

(** ** The recursion, coordinate by coordinate *)

Lemma crenshaw_fold_rep (t : ndarray R) (l : list R) :
  forall (D DD : ndarray R) (gd gdd : R -> R),
    rep t D gd -> rep t DD gdd ->
    rep t (fst (fold_left (crenshaw_step (Scalar 4 * t - Scalar 2)%nd) l (D, DD)))
          (fun x => fst (fold_left (crenshaw_pt (4 * x - 2)) l (gd x, gdd x)))
    /\ rep t (snd (fold_left (crenshaw_step (Scalar 4 * t - Scalar 2)%nd) l (D, DD)))
             (fun x => snd (fold_left (crenshaw_pt (4 * x - 2)) l (gd x, gdd x))).
Proof.
  induction l as [| c l IH]; intros D DD gd gdd HD HDD.
  - cbn. split; assumption.
  - cbn [fold_left]. unfold crenshaw_step at 2 4. unfold crenshaw_pt at 2 4.
    apply IH; [| exact HD].
    unfold nd_add, nd_sub, nd_mul.
    apply (broadcast_rep Rplus).
    + apply (broadcast_rep Rmult); [| exact HD].
      apply (broadcast_rep Rminus (g := fun x => 4 * x) (h := fun _ => 2));
        [| apply rep_const].
      apply (broadcast_rep Rmult (g := fun _ => 4) (h := fun x => x));
        [apply rep_const | apply rep_self].
    + apply (broadcast_rep Rminus (g := fun _ => c)); [apply rep_const | exact HDD].
Qed.

Lemma cheby_profile_coefficients (control : list R) (t : ndarray R) (method : string) :
  cheby_profile control t method =
  if Nat.eqb (length control) 0 then (Scalar 0 * t)%nd
  else
    let c := coefficients control method in
    let y := (Scalar 4 * t - Scalar 2)%nd in
    let acc := fold_left (crenshaw_step y) (rev (tl c)) (Scalar 0, Scalar 0) in
    (y * (Scalar 0.5 * fst acc) + (Scalar (0.5 * nth 0 c 0)%R - snd acc))%nd.
Proof.
  unfold cheby_profile, coefficients.
  destruct (Nat.eqb (length control) 0); [reflexivity |].
  cbv zeta.
  destruct (fold_left _ _ _) as [d dd]. reflexivity.
Qed.

Lemma y_pointwise (t : ndarray R) :
  (Scalar 4 * t - Scalar 2)%nd = nd_map (fun x => 4 * x - 2) t.
Proof. destruct t; cbn; [reflexivity | now rewrite map_map]. Qed.

(** Away from the empty control sequence, [cheby_profile] evaluates
    [profile_pt] at every coordinate of [t]. *)
Lemma cheby_profile_pointwise (control : list R) (t : ndarray R) (method : string) :
  control <> [] ->
  cheby_profile control t method = nd_map (profile_pt (coefficients control method)) t.
Proof.
  intros Hne. rewrite cheby_profile_coefficients.
  destruct control as [| c0 control]; [contradiction |]. cbn [length Nat.eqb]. cbv zeta.
  set (c := coefficients (c0 :: control) method).
  destruct (@crenshaw_fold_rep t (rev (tl c)) _ _ _ _ (rep_const t 0) (rep_const t 0))
    as [Hd Hdd].
  set (acc := fold_left _ _ _) in *.
  unfold nd_add, nd_mul at 1 3, nd_sub at 2.
  rewrite (broadcast_strict_l Rplus
             (fun x => (4 * x - 2)
                       * (0.5 * fst (fold_left (crenshaw_pt (4 * x - 2)) (rev (tl c)) (0, 0))))
             (h := fun x => 0.5 * nth 0 c 0
                            - snd (fold_left (crenshaw_pt (4 * x - 2)) (rev (tl c)) (0, 0)))
             (t := t)).
  - apply nd_map_ext. intros x. unfold profile_pt.
    generalize (fold_left (crenshaw_pt (4 * x - 2)) (rev (tl c)) (0, 0)).
    intros [d' dd']. reflexivity.
  - apply (broadcast_strict_l Rmult (fun x => 4 * x - 2)); [apply y_pointwise |].
    apply (broadcast_rep Rmult (g := fun _ => 0.5)); [apply rep_const | exact Hd].
  - apply (broadcast_rep Rminus (g := fun _ => 0.5 * nth 0 c 0)); [apply rep_const | exact Hdd].
Qed.

(** ** The Chebyshev polynomials *)

Lemma T_0 (x : R) : T 0 x = 1.
Proof. reflexivity. Qed.

Lemma T_1 (x : R) : T 1 x = x.
Proof. reflexivity. Qed.

Lemma cheb_pair_snd (j : nat) (x : R) : snd (cheb_pair j x) = T (S j) x.
Proof. unfold T. cbn [cheb_pair]. now destruct (cheb_pair j x). Qed.

Lemma T_rec (j : nat) (x : R) : T (S (S j)) x = 2 * x * T (S j) x - T j x.
Proof.
  rewrite <- !cheb_pair_snd. unfold T. cbn [cheb_pair].
  destruct (cheb_pair j x) as [a b]. reflexivity.
Qed.

Lemma wsum_ext (l : list R) (F G : nat -> R) :
  (forall i, (i < length l)%nat -> F i = G i) -> wsum l F = wsum l G.
Proof.
  revert F G. induction l as [| a l IH]; intros F G H; [reflexivity |].
  cbn [wsum]. rewrite (H 0%nat) by (cbn; lia).
  rewrite (IH (fun i => F (S i)) (fun i => G (S i))); [reflexivity |].
  intros i Hi. apply H. cbn. lia.
Qed.

Lemma fold_left_rev {A B} (g : B -> A -> B) (l : list A) (b : B) :
  fold_left g (rev l) b = fold_right (fun a acc => g acc a) b l.
Proof.
  induction l as [| a l IH]; [reflexivity |].
  cbn [rev fold_right]. now rewrite fold_left_app, IH.
Qed.

(** The invariant of the recursion: with [(d, dd)] the accumulators after
    the coefficients [a_1 .. a_m] have been consumed from the last to the
    first, [sum_i a_i T_{k+i}(x) = T_{k+1}(x) d - T_k(x) dd]. *)
Lemma crenshaw_invariant (x : R) (l : list R) :
  forall k : nat,
    wsum l (fun i => T (k + S i) x)
    = T (S k) x * fst (fold_right (fun a acc => crenshaw_pt (2 * x) acc a) (0, 0) l)
      - T k x * snd (fold_right (fun a acc => crenshaw_pt (2 * x) acc a) (0, 0) l).
Proof.
  induction l as [| a l IH]; intros k.
  - cbn. lra.
  - cbn [wsum fold_right].
    rewrite (wsum_ext l (fun i => T (k + S (S i)) x) (fun i => T (S k + S i) x))
      by (intros; f_equal; lia).
    rewrite (IH (S k)).
    destruct (fold_right _ _ l) as [d dd]. cbn [crenshaw_pt fst snd].
    rewrite T_rec. replace (k + 1)%nat with (S k) by lia. ring.
Qed.

(** The value at one coordinate: the Chebyshev series at [2t - 1], with
    the leading coefficient counted half. *)
Lemma profile_pt_series (c : list R) (t : R) :
  c <> [] ->
  profile_pt c t = cheb_series c (2 * t - 1) - 0.5 * nth 0 c 0.
Proof.
  intros Hne. destruct c as [| c0 l]; [contradiction |].
  unfold profile_pt, cheb_series. cbn [tl nth wsum].
  rewrite fold_left_rev.
  pose proof (crenshaw_invariant (2 * t - 1) l 0) as H.
  replace (2 * (2 * t - 1)) with (4 * t - 2) in H by ring.
  rewrite (wsum_ext l (fun i => T (S i) (2 * t - 1)) (fun i => T (0 + S i) (2 * t - 1)))
    by reflexivity.
  rewrite H, T_0, T_1.
  destruct (fold_right _ _ l) as [d dd]. cbn [fst snd]. lra.
Qed.


(** ** Finite sums *)

Lemma Rsum_ext (n : nat) (F G : nat -> R) :
  (forall i, (i < n)%nat -> F i = G i) -> Rsum n F = Rsum n G.
Proof.
  induction n as [| n IH]; intros H; [reflexivity |].
  cbn [Rsum]. rewrite IH by (intros; apply H; lia). rewrite (H n) by lia. reflexivity.
Qed.

Lemma Rsum_plus (n : nat) (F G : nat -> R) :
  Rsum n (fun i => F i + G i) = Rsum n F + Rsum n G.
Proof. induction n as [| n IH]; cbn [Rsum]; [lra | rewrite IH; lra]. Qed.

Lemma Rsum_scal (n : nat) (a : R) (F : nat -> R) :
  Rsum n (fun i => a * F i) = a * Rsum n F.
Proof. induction n as [| n IH]; cbn [Rsum]; [lra | rewrite IH; lra]. Qed.

Lemma Rsum_const (n : nat) (a : R) : Rsum n (fun _ => a) = INR n * a.
Proof.
  induction n as [| n IH]; [cbn; lra |].
  cbn [Rsum]. rewrite IH, S_INR. lra.
Qed.

Lemma Rsum_shift (n : nat) (F : nat -> R) :
  Rsum (S n) F = F 0%nat + Rsum n (fun i => F (S i)).
Proof.
  induction n as [| n IH]; [cbn; lra |].
  cbn [Rsum] in IH |- *. rewrite IH. lra.
Qed.

Lemma Rsum_swap (n m : nat) (A : nat -> nat -> R) :
  Rsum n (fun j => Rsum m (fun k => A j k)) = Rsum m (fun k => Rsum n (fun j => A j k)).
Proof.
  induction n as [| n IH]; cbn [Rsum].
  - induction m as [| m IHm]; cbn [Rsum]; lra.
  - rewrite IH, <- Rsum_plus. reflexivity.
Qed.

(** A sum whose terms vanish except at [m]. *)
Lemma Rsum_single (n m : nat) (F : nat -> R) :
  (m < n)%nat -> (forall k, (k < n)%nat -> k <> m -> F k = 0) -> Rsum n F = F m.
Proof.
  induction n as [| n IH]; intros Hm H; [lia |].
  cbn [Rsum]. destruct (Nat.eq_dec m n) as [-> | Hne].
  - rewrite (@Rsum_ext n F (fun _ => 0)) by (intros; apply H; lia).
    rewrite Rsum_const. lra.
  - rewrite IH by (try lia; intros; apply H; lia).
    rewrite (H n) by lia. lra.
Qed.

Lemma wsum_Rsum (l : list R) (F : nat -> R) :
  wsum l F = Rsum (length l) (fun i => nth i l 0 * F i).
Proof.
  revert F. induction l as [| a l IH]; intros F; [reflexivity |].
  cbn [wsum length]. rewrite Rsum_shift, IH. reflexivity.
Qed.

Lemma wsum_app (l1 l2 : list R) (F : nat -> R) :
  wsum (l1 ++ l2) F = wsum l1 F + wsum l2 (fun i => F (length l1 + i)%nat).
Proof.
  revert F. induction l1 as [| a l1 IH]; intros F; cbn [app wsum length].
  - rewrite Rplus_0_l. reflexivity.
  - rewrite IH, Rplus_assoc. reflexivity.
Qed.

Lemma wsum_rev (l : list R) (F : nat -> R) :
  wsum (rev l) F = wsum l (fun i => F (length l - 1 - i)%nat).
Proof.
  revert F. induction l as [| a l IH]; intros F; [reflexivity |].
  cbn [rev]. rewrite wsum_app, IH, length_rev. cbn [wsum length].
  replace (S (length l) - 1 - 0)%nat with (length l + 0)%nat by lia.
  rewrite (@wsum_ext l (fun i => F (S (length l) - 1 - S i)%nat)
                      (fun i => F (length l - 1 - i)%nat))
    by (intros; f_equal; lia).
  lra.
Qed.

Lemma step2_cons {A} (a : A) (l : list A) : step2 (a :: l) = a :: step2 (tl l).
Proof. now destruct l. Qed.

(** A sum over a sequence splits into its even and odd positions. *)
Lemma wsum_step2 (l : list R) (F : nat -> R) :
  wsum l F = wsum (step2 l) (fun i => F (2 * i)%nat)
             + wsum (step2 (tl l)) (fun i => F (2 * i + 1)%nat).
Proof.
  revert F. induction l as [| a l IH]; intros F; [cbn; lra |].
  rewrite step2_cons. cbn [tl wsum]. rewrite (IH (fun i => F (S i))).
  rewrite (@wsum_ext (step2 l) (fun i => F (S (2 * i))) (fun i => F (2 * i + 1)%nat))
    by (intros; f_equal; lia).
  rewrite (@wsum_ext (step2 (tl l)) (fun i => F (S (2 * i + 1))) (fun i => F (2 * S i)%nat))
    by (intros; f_equal; lia).
  cbn. lra.
Qed.

Lemma step2_length {A} (l : list A) :
  (length (step2 l) + length (step2 (tl l)) = length l)%nat.
Proof.
  induction l as [| a l IH]; [reflexivity |].
  rewrite step2_cons. cbn [tl length]. lia.
Qed.

(** ** Trigonometry *)

(** [T_j(cos theta) = cos(j theta)]: the polynomials of the recurrence are
    the Chebyshev polynomials. *)
Lemma cheb_pair_cos (j : nat) (theta : R) :
  cheb_pair j (cos theta) = (cos (INR j * theta), cos (INR (S j) * theta)).
Proof.
  induction j as [| j IH].
  - cbn [cheb_pair INR]. rewrite Rmult_0_l, cos_0, Rmult_1_l. reflexivity.
  - cbn [cheb_pair]. rewrite IH. f_equal.
    replace (INR (S (S j)) * theta) with (INR (S j) * theta + theta)
      by (rewrite (S_INR (S j)); ring).
    replace (INR j * theta) with (INR (S j) * theta - theta)
      by (rewrite (S_INR j); ring).
    rewrite cos_plus, cos_minus. ring.
Qed.

Lemma T_cos (j : nat) (theta : R) : T j (cos theta) = cos (INR j * theta).
Proof. unfold T. now rewrite cheb_pair_cos. Qed.

Lemma sin_plus_nat_PI (x : R) (p : nat) : sin (x + INR p * PI) = (-1) ^ p * sin x.
Proof.
  induction p as [| p IH].
  - cbn [INR pow]. rewrite Rmult_0_l, Rplus_0_r. ring.
  - replace (x + INR (S p) * PI) with (x + INR p * PI + PI) by (rewrite S_INR; ring).
    rewrite neg_sin, IH. cbn [pow]. ring.
Qed.

(** The Dirichlet kernel: [1/2 + cos a + ... + cos((n-1) a)], times
    [2 sin(a/2)], is [sin((n - 1/2) a)]. *)
Lemma dirichlet_kernel (n : nat) (a : R) :
  2 * sin (a / 2) * (Rsum n (fun j => cos (INR j * a)) - 1 / 2)
  = sin ((INR n - 1 / 2) * a).
Proof.
  induction n as [| n IH].
  - cbn [Rsum INR].
    replace ((0 - 1 / 2) * a) with (- (a / 2)) by field.
    rewrite sin_neg. lra.
  - cbn [Rsum].
    replace (2 * sin (a / 2) * (Rsum n (fun j => cos (INR j * a)) + cos (INR n * a) - 1 / 2))
      with (2 * sin (a / 2) * (Rsum n (fun j => cos (INR j * a)) - 1 / 2)
            + 2 * sin (a / 2) * cos (INR n * a)) by ring.
    rewrite IH.
    replace ((INR n - 1 / 2) * a) with (INR n * a - a / 2) by field.
    replace ((INR (S n) - 1 / 2) * a) with (INR n * a + a / 2) by (rewrite S_INR; field).
    rewrite sin_plus, sin_minus. ring.
Qed.

(** At the angle [p pi / n], [0 < p < 2n], the kernel is [-(-1)^p / 2]. *)
Lemma dirichlet_kernel_node (n p : nat) :
  (0 < p < 2 * n)%nat ->
  Rsum n (fun j => cos (INR j * (INR p * PI / INR n))) - 1 / 2 = - (-1) ^ p / 2.
Proof.
  intros [Hp0 Hp2].
  assert (Hn : 0 < INR n) by (apply lt_0_INR; lia).
  assert (Hp : 0 < INR p) by (apply lt_0_INR; lia).
  assert (Hp' : INR p < 2 * INR n).
  { apply lt_INR in Hp2. rewrite mult_INR in Hp2. cbn [INR] in Hp2. lra. }
  pose proof PI_RGT_0 as Hpi.
  set (a := INR p * PI / INR n).
  assert (Hs : 0 < sin (a / 2)).
  { apply sin_gt_0.
    - unfold a. apply Rdiv_lt_0_compat; [| lra].
      apply Rdiv_lt_0_compat; [| exact Hn]. now apply Rmult_lt_0_compat.
    - unfold a. apply (Rmult_lt_reg_r (2 * INR n)); [lra |].
      replace (INR p * PI / INR n / 2 * (2 * INR n)) with (INR p * PI) by (field; lra).
      nra. }
  pose proof (dirichlet_kernel n a) as H.
  replace ((INR n - 1 / 2) * a) with (- (a / 2) + INR p * PI) in H
    by (unfold a; field; lra).
  rewrite sin_plus_nat_PI, sin_neg in H.
  apply (Rmult_eq_reg_l (2 * sin (a / 2))); [| lra].
  rewrite H. field.
Qed.

Lemma cos_cos (a b : R) : cos a * cos b = (cos (a - b) + cos (a + b)) / 2.
Proof. rewrite cos_plus, cos_minus. field. Qed.

Lemma cos_orthogonal_lt (n k m : nat) :
  (m < k < n)%nat ->
  Rsum n (fun j => cos (INR j * theta n k) * cos (INR j * theta n m)) - 1 / 2 = 0.
Proof.
  intros [Hmk Hkn].
  assert (Hn : 0 < INR n) by (apply lt_0_INR; lia).
  rewrite (@Rsum_ext n _
             (fun j => / 2 * cos (INR j * (INR (k - m) * PI / INR n))
                       + / 2 * cos (INR j * (INR (k + m + 1) * PI / INR n)))).
  2:{ intros j _. rewrite cos_cos. unfold theta.
      replace (INR j * (PI * (2 * INR k + 1) / (2 * INR n))
               - INR j * (PI * (2 * INR m + 1) / (2 * INR n)))
        with (INR j * (INR (k - m) * PI / INR n))
        by (rewrite minus_INR by lia; field; lra).
      replace (INR j * (PI * (2 * INR k + 1) / (2 * INR n))
               + INR j * (PI * (2 * INR m + 1) / (2 * INR n)))
        with (INR j * (INR (k + m + 1) * PI / INR n))
        by (rewrite !plus_INR; cbn [INR]; field; lra).
      field. }
  rewrite Rsum_plus, !Rsum_scal.
  pose proof (@dirichlet_kernel_node n (k - m)) as H1.
  pose proof (@dirichlet_kernel_node n (k + m + 1)) as H2.
  specialize (H1 ltac:(lia)). specialize (H2 ltac:(lia)).
  assert (Hpow : (-1) ^ (k + m + 1) = - (-1) ^ (k - m)).
  { replace (k + m + 1)%nat with (S (2 * m) + (k - m))%nat by lia.
    rewrite pow_add, pow_1_odd. ring. }
  rewrite Hpow in H2.
  lra.
Qed.

Lemma cos_orthogonal_eq (n k : nat) :
  (k < n)%nat ->
  Rsum n (fun j => cos (INR j * theta n k) * cos (INR j * theta n k)) - 1 / 2 = INR n / 2.
Proof.
  intros Hkn.
  assert (Hn : 0 < INR n) by (apply lt_0_INR; lia).
  rewrite (@Rsum_ext n _
             (fun j => / 2 + / 2 * cos (INR j * (INR (2 * k + 1) * PI / INR n)))).
  2:{ intros j _. rewrite cos_cos. unfold theta.
      rewrite Rminus_diag, cos_0.
      replace (INR j * (PI * (2 * INR k + 1) / (2 * INR n))
               + INR j * (PI * (2 * INR k + 1) / (2 * INR n)))
        with (INR j * (INR (2 * k + 1) * PI / INR n))
        by (rewrite plus_INR, mult_INR; cbn [INR]; field; lra).
      field. }
  rewrite Rsum_plus, Rsum_const, Rsum_scal.
  pose proof (@dirichlet_kernel_node n (2 * k + 1)) as H. specialize (H ltac:(lia)).
  assert (Hpow : (-1) ^ (2 * k + 1) = -1).
  { replace (2 * k + 1)%nat with (S (2 * k)) by lia. apply pow_1_odd. }
  rewrite Hpow in H.
  lra.
Qed.

(** Discrete orthogonality of the cosines at the Chebyshev nodes. *)
Lemma cos_orthogonal (n k m : nat) :
  (k < n)%nat -> (m < n)%nat ->
  Rsum n (fun j => cos (INR j * theta n k) * cos (INR j * theta n m)) - 1 / 2
  = if Nat.eq_dec k m then INR n / 2 else 0.
Proof.
  intros Hk Hm. destruct (Nat.eq_dec k m) as [-> | Hne].
  - now apply cos_orthogonal_eq.
  - destruct (Nat.lt_ge_cases m k) as [Hlt | Hge].
    + apply cos_orthogonal_lt. lia.
    + rewrite (@Rsum_ext n _ (fun j => cos (INR j * theta n m) * cos (INR j * theta n k)))
        by (intros; ring).
      apply cos_orthogonal_lt. lia.
Qed.

(** ** The coefficients of the method 'interp' *)

Lemma fold_right_seq_Rsum (F : nat -> R) (n : nat) :
  forall s, fold_right Rplus 0 (map F (seq s n)) = Rsum n (fun i => F (s + i)%nat).
Proof.
  induction n as [| n IH]; intros s; [reflexivity |].
  rewrite Rsum_shift. cbn [seq map fold_right]. rewrite IH, Nat.add_0_r.
  f_equal. apply Rsum_ext. intros i _. f_equal. lia.
Qed.

Lemma real_Cmul_Csum (l : list C) (w : C) :
  real (Cmul (Csum l) w) = fold_right Rplus 0 (map (fun z => real (Cmul z w)) l).
Proof.
  unfold Csum. induction l as [| z l IH]; cbn [fold_right map].
  - unfold real, Cmul, RtoC. cbn [fst snd]. ring.
  - rewrite <- IH. unfold real, Cmul, Cadd. cbn [fst snd]. ring.
Qed.

Lemma step2_index {A} (l : list A) (i : nat) :
  (i < length (step2 l))%nat -> (2 * i < length l)%nat.
Proof.
  intros H. apply nth_error_Some. rewrite <- nth_error_step2. now apply nth_error_Some.
Qed.

Lemma step2_tl_index {A} (l : list A) (i : nat) :
  (i < length (step2 (tl l)))%nat -> (2 * i + 1 < length l)%nat.
Proof.
  intros H. apply nth_error_Some. rewrite <- nth_error_step2_tl. now apply nth_error_Some.
Qed.

(** Summing over the reordered sequence [f[0::2] ++ f[1::2][::-1]]. *)
Lemma wsum_reorder (f : list R) (G H : nat -> R) :
  (forall i, (2 * i < length f)%nat -> G i = H (2 * i)%nat) ->
  (forall i, (2 * i + 1 < length f)%nat -> G (length f - 1 - i)%nat = H (2 * i + 1)%nat) ->
  wsum (hstack (step2 f) (rev (step2 (tl f)))) G = wsum f H.
Proof.
  intros Heven Hodd. unfold hstack.
  rewrite wsum_app, wsum_rev, (wsum_step2 f H). f_equal.
  - apply wsum_ext. intros i Hi. apply Heven. now apply step2_index.
  - apply wsum_ext. intros i Hi.
    pose proof (@step2_tl_index _ f i Hi) as Hi'.
    pose proof (step2_length f) as Hlen.
    replace (length (step2 f) + (length (step2 (tl f)) - 1 - i))%nat
      with (length f - 1 - i)%nat by lia.
    now apply Hodd.
Qed.

(** The phase factor [w_j = exp(-0.5j*pi/n * j)]. *)
Lemma phase_factor (n j : nat) :
  (0 < n)%nat ->
  Cexp (Cmul (Cdiv_R (Cmul (Copp (imag_lit 0.5)) (RtoC PI)) (INR n)) (RtoC (INR j)))
  = (cos (PI * INR j / (2 * INR n)), - sin (PI * INR j / (2 * INR n))).
Proof.
  intros Hn. assert (Hn' : 0 < INR n) by (apply lt_0_INR; lia).
  unfold Cexp, Cmul, Cdiv_R, Copp, imag_lit, RtoC. cbn [fst snd].
  replace 0.5 with (/ 2) by lra.
  replace ((- 0 * PI - - / 2 * 0) / INR n * INR j - (- 0 * 0 + - / 2 * PI) / INR n * 0)
    with 0 by (field; lra).
  replace ((- 0 * PI - - / 2 * 0) / INR n * 0 + (- 0 * 0 + - / 2 * PI) / INR n * INR j)
    with (- (PI * INR j / (2 * INR n))) by (field; lra).
  rewrite exp_0, cos_neg, sin_neg. f_equal; ring.
Qed.

Lemma transform_term (ym a b : R) :
  real (Cmul (Cmul (RtoC ym) (Cexp (imag_lit (- a)))) (cos b, - sin b))
  = ym * cos (a + b).
Proof.
  unfold real, Cmul, Cexp, imag_lit, RtoC. cbn [fst snd].
  rewrite exp_0, cos_neg, sin_neg, cos_plus. ring.
Qed.

(** For ['interp'] the coefficients are the cosine transform of the control
    values: [c_j = (2/n) sum_k f_k cos(pi j (2k+1) / (2n))]. *)
Lemma interp_coefficients (f : list R) :
  f <> [] ->
  coefficients f "interp"
  = map (fun j => 2 / INR (length f) * wsum f (fun k => cos (INR j * theta (length f) k)))
        (seq 0 (length f)).
Proof.
  intros Hne.
  assert (Hn : (0 < length f)%nat) by (destruct f; [contradiction | cbn; lia]).
  assert (Hn' : 0 < INR (length f)) by (apply lt_0_INR; lia).
  unfold coefficients. cbn [String.eqb Ascii.eqb Bool.eqb andb]. cbv zeta.
  set (n := length f) in *.
  set (y := hstack (step2 f) (rev (step2 (tl f)))).
  assert (Hy : length y = n).
  { unfold y, hstack. rewrite length_app, length_rev. apply step2_length. }
  unfold fft, arange. rewrite length_map, Hy, zip_with_map_same, map_map.
  apply map_ext_in. intros j Hj. apply in_seq in Hj. f_equal.
  rewrite (@phase_factor n j Hn).
  rewrite real_Cmul_Csum, map_map.
  rewrite (map_ext _ (fun m => nth m y 0
                               * cos (2 * PI * INR m * INR j / INR n
                                      + PI * INR j / (2 * INR n)))).
  2:{ intros m. rewrite (map_nth RtoC y 0 m).
      apply transform_term. }
  rewrite fold_right_seq_Rsum. cbn [Nat.add].
  rewrite <- Hy, <- wsum_Rsum, Hy.
  apply wsum_reorder; fold n.
  - intros i Hi. f_equal. unfold theta. rewrite mult_INR. cbn [INR]. field. lra.
  - intros i Hi.
    replace (n - 1 - i)%nat with (n - (1 + i))%nat by lia.
    rewrite minus_INR by lia.
    unfold theta. rewrite !plus_INR, mult_INR. cbn [INR].
    replace (2 * PI * (INR n - (1 + INR i)) * INR j / INR n + PI * INR j / (2 * INR n))
      with (- (INR j * (PI * (2 * (2 * INR i + 1) + 1) / (2 * INR n))) + 2 * INR j * PI)
      by (field; lra).
    rewrite cos_period, cos_neg. reflexivity.
Qed.

(** ** The claims about the direct method and the empty profile *)

(** C8.  With no control value, [cheby_profile] returns [0*t]: zero at
    every coordinate, of the shape of [t], whatever the coordinates and the
    method tag, and without reading any coefficient. *)
Theorem cheby_profile_empty :
  forall (t : ndarray R) (method : string),
    cheby_profile [] t method = nd_map (fun _ => 0) t
    /\ cheby_profile [] t method = (Scalar 0 * t)%nd.
Proof.
  intros t method. unfold cheby_profile. cbn [length Nat.eqb]. split; [| reflexivity].
  destruct t as [x | xs]; cbn.
  - f_equal. lra.
  - f_equal. apply map_ext. intros x. lra.
Qed.

(** C2, as stated, fails: for the coefficients [1, 0, 1] the method
    ['direct'] returns [1.5] at [t = 0], not [2]. *)
Lemma cheby_profile_T0_T2_is_not_2 :
  cheby_profile [1; 0; 1] (Array [0]) "direct" = Array [1.5]
  /\ cheby_profile [1; 0; 1] (Array [0]) "direct" <> Array [2].
Proof.
  assert (H : cheby_profile [1; 0; 1] (Array [0]) "direct" = Array [1.5]).
  { unfold cheby_profile. cbn. do 2 f_equal. lra. }
  split; [exact H |].
  rewrite H. intros Heq. injection Heq as Heq. lra.
Qed.

(** C2 (amended).  For the coefficients [1, 0, 1] and method ['direct'] the
    value at [t = 0] (where [y = -2]) is [1.5]: it is [T0 + T2] at
    [2t - 1 = -1] with the leading coefficient counted half,
    [0.5 * 1 + (2 * (-1)^2 - 1)]. *)
Theorem cheby_profile_T0_T2 :
  cheby_profile [1; 0; 1] (Array [0]) "direct" = Array [1.5]
  /\ cheby_profile [1; 0; 1] (Scalar 0) "direct" = Scalar 1.5
  /\ 1.5 = 0.5 * 1 + (2 * (2 * 0 - 1) ^ 2 - 1)
  /\ 1.5 = cheb_series [1; 0; 1] (2 * 0 - 1) - 0.5 * 1.
Proof.
  repeat split.
  - unfold cheby_profile. cbn. do 2 f_equal. lra.
  - unfold cheby_profile. cbn. f_equal. lra.
  - lra.
  - unfold cheb_series, T. cbn. lra.
Qed.

(** C10.  For a non-empty coefficient sequence and method ['direct'] the
    profile at each coordinate [t] is [sum_j c_j T_j(2t - 1) - 0.5 c_0];
    a single coefficient [c0] gives the constant profile [0.5 c0]. *)
Theorem cheby_profile_direct :
  forall (c : list R) (t : ndarray R),
    c <> [] ->
    cheby_profile c t "direct"
      = nd_map (fun ti => cheb_series c (2 * ti - 1) - 0.5 * nth 0 c 0) t
    /\ (forall c0, c = [c0] -> cheby_profile c t "direct" = nd_map (fun _ => 0.5 * c0) t).
Proof.
  intros c t Hne.
  assert (H : cheby_profile c t "direct"
              = nd_map (fun ti => cheb_series c (2 * ti - 1) - 0.5 * nth 0 c 0) t).
  { rewrite cheby_profile_pointwise by exact Hne.
    apply nd_map_ext. intros ti.
    change (coefficients c "direct") with c.
    now apply profile_pt_series. }
  split; [exact H |].
  intros c0 ->. rewrite H. apply nd_map_ext. intros ti.
  unfold cheb_series. cbn [wsum nth]. rewrite T_0. lra.
Qed.

(** The theorem at the single coefficient [3] and the coordinates
    [0, 0.5, 1]. *)
Lemma cheby_profile_direct_witness :
  cheby_profile [3] (Array [0; 0.5; 1]) "direct"
    = nd_map (fun ti => cheb_series [3] (2 * ti - 1) - 0.5 * nth 0 [3] 0)
             (Array [0; 0.5; 1])
  /\ (forall c0, [3] = [c0] ->
        cheby_profile [3] (Array [0; 0.5; 1]) "direct"
          = nd_map (fun _ => 0.5 * c0) (Array [0; 0.5; 1])).
Proof.
  apply (@cheby_profile_direct [3] (Array [0; 0.5; 1])).
  discriminate.
Defined.


(** ** Interpolation through the control points *)

Lemma interp_sum (f : nat -> R) (n m : nat) :
  (m < n)%nat ->
  Rsum n (fun j => 2 / INR n * Rsum n (fun k => f k * cos (INR j * theta n k))
                   * cos (INR j * theta n m))
  - 0.5 * (2 / INR n * Rsum n (fun k => f k * cos (INR 0 * theta n k)))
  = f m.
Proof.
  intros Hm.
  assert (Hn : 0 < INR n) by (apply lt_0_INR; lia).
  rewrite (@Rsum_ext n _
             (fun j => 2 / INR n
                       * Rsum n (fun k => f k * (cos (INR j * theta n k)
                                                 * cos (INR j * theta n m))))).
  2:{ intros j _. rewrite Rmult_assoc. f_equal. rewrite Rmult_comm, <- Rsum_scal.
      apply Rsum_ext. intros k _. ring. }
  rewrite Rsum_scal, Rsum_swap.
  rewrite (@Rsum_ext n (fun k => Rsum n (fun j => f k * _))
             (fun k => f k * Rsum n (fun j => cos (INR j * theta n k)
                                              * cos (INR j * theta n m))))
    by (intros k _; apply Rsum_scal).
  rewrite (@Rsum_ext n (fun k => f k * cos (INR 0 * theta n k)) f).
  2:{ intros k _. cbn [INR]. rewrite Rmult_0_l, cos_0. ring. }
  transitivity (2 / INR n
                * Rsum n (fun k => f k * (Rsum n (fun j => cos (INR j * theta n k)
                                                           * cos (INR j * theta n m))
                                          - 1 / 2))).
  - rewrite (@Rsum_ext n (fun k => f k * (_ - 1 / 2))
               (fun k => f k * Rsum n (fun j => cos (INR j * theta n k)
                                                * cos (INR j * theta n m))
                         + (- / 2) * f k))
      by (intros k _; field).
    rewrite Rsum_plus, Rsum_scal. lra.
  - rewrite (@Rsum_ext n _ (fun k => f k * (if Nat.eq_dec k m then INR n / 2 else 0)))
      by (intros k Hk; now rewrite cos_orthogonal).
    rewrite (@Rsum_single n m _ Hm).
    + destruct (Nat.eq_dec m m); [field; lra | contradiction].
    + intros k _ Hkm. destruct (Nat.eq_dec k m); [contradiction | ring].
Qed.

Lemma nth_map_seq {A} (g : nat -> A) (s n i : nat) (d : A) :
  (i < n)%nat -> nth i (map g (seq s n)) d = g (s + i)%nat.
Proof.
  intros Hi. rewrite (nth_indep _ d (g 0%nat)) by (now rewrite length_map, length_seq).
  rewrite map_nth, seq_nth by exact Hi. reflexivity.
Qed.

(** C3.  With method ['interp'], the profile evaluated at the normalized
    coordinates [t_k = z_k / L] of the control points [z_1 .. z_N] is the
    sequence of control values itself. *)
Theorem cheby_profile_interp_nodes :
  forall (control : list R) (L : R),
    control <> [] ->
    L <> 0 ->
    cheby_profile control
                  (Array (map (fun k => z_k L (length control) k / L)
                              (seq 1 (length control))))
                  "interp"
    = Array control.
Proof.
  intros control L Hne HL.
  assert (Hn : (0 < length control)%nat) by (destruct control; [contradiction | cbn; lia]).
  assert (Hn' : 0 < INR (length control)) by (apply lt_0_INR; lia).
  rewrite cheby_profile_pointwise by exact Hne.
  cbn [nd_map]. f_equal. rewrite map_map.
  rewrite (interp_coefficients Hne).
  set (n := length control) in *.
  set (c := map _ (seq 0 n)).
  assert (Hc : c <> []).
  { unfold c. destruct n; [lia |]. discriminate. }
  apply (nth_ext _ _ 0 0); [now rewrite length_map, length_seq |].
  intros m Hm. rewrite length_map, length_seq in Hm.
  rewrite nth_map_seq by exact Hm.
  rewrite (profile_pt_series _ Hc).
  replace (2 * (z_k L n (1 + m) / L) - 1) with (cos (theta n m)).
  2:{ unfold z_k, theta. rewrite plus_INR. cbn [INR].
      replace (PI * (1 + INR m - 0.5) / INR n) with (PI * (2 * INR m + 1) / (2 * INR n))
        by (replace 0.5 with (/ 2) by lra; field; lra).
      field. exact HL. }
  unfold cheb_series.
  rewrite (@wsum_ext c (fun j => T j (cos (theta n m))) (fun j => cos (INR j * theta n m)))
    by (intros; apply T_cos).
  rewrite wsum_Rsum.
  assert (Hlen : length c = n) by (unfold c; now rewrite length_map, length_seq).
  rewrite Hlen.
  rewrite (@Rsum_ext n _
             (fun j => 2 / INR n
                       * Rsum n (fun k => nth k control 0 * cos (INR j * theta n k))
                       * cos (INR j * theta n m))).
  2:{ intros j Hj. unfold c. rewrite nth_map_seq by exact Hj. cbn [Nat.add].
      rewrite wsum_Rsum. reflexivity. }
  unfold c at 1. rewrite nth_map_seq by exact Hn. cbn [Nat.add].
  rewrite wsum_Rsum. fold n.
  apply (@interp_sum (fun k => nth k control 0) n m Hm).
Qed.

(** The theorem at two control values and a layer of thickness [1]. *)
Lemma cheby_profile_interp_nodes_witness :
  cheby_profile [1; 2]
                (Array (map (fun k => z_k 1 (length [1; 2]) k / 1) (seq 1 (length [1; 2]))))
                "interp"
  = Array [1; 2].
Proof.
  apply (@cheby_profile_interp_nodes [1; 2] 1).
  - discriminate.
  - lra.
Defined.

End ChebyProofs.

(* ================================================================== *)
(** * Part VIII.  Further properties of refl1d/cheby.py *)
(* ================================================================== *)

Module ChebyExtra.
Import Numpy Cheby ModelProofs ChebyProofs.

(** ** Shape *)

Lemma cheby_profile_nil (t : ndarray R) (method : string) :
  cheby_profile [] t method = nd_map (fun _ => 0) t.
Proof.
  unfold cheby_profile. cbn [length Nat.eqb].
  destruct t as [x | xs]; cbn; f_equal; [lra |].
  apply map_ext. intros x. lra.
Qed.

Lemma cheby_profile_nd_map (control : list R) (t : ndarray R) (method : string) :
  exists g, cheby_profile control t method = nd_map g t.
Proof.
  destruct control as [| c0 control].
  - exists (fun _ => 0). apply cheby_profile_nil.
  - eexists. apply cheby_profile_pointwise. discriminate.
Qed.

(** X1.  The profile has the shape of the coordinates: an array of
    coordinates gives an array of as many values, a scalar coordinate a
    scalar, for every control sequence and every method tag. *)
Theorem cheby_profile_shape :
  forall (control : list R) (method : string),
    (forall ts, exists ys,
        cheby_profile control (Array ts) method = Array ys /\ length ys = length ts)
    /\ (forall x, exists y, cheby_profile control (Scalar x) method = Scalar y).
Proof.
  intros control method. split.
  - intros ts. destruct (cheby_profile_nd_map control (Array ts) method) as [g Hg].
    exists (map g ts). split; [exact Hg | apply length_map].
  - intros x. destruct (cheby_profile_nd_map control (Scalar x) method) as [g Hg].
    exists (g x). exact Hg.
Qed.

(** ** Sums *)

Lemma wsum_zeros (m : nat) (F : nat -> R) : wsum (repeat 0 m) F = 0.
Proof.
  revert F. induction m as [| m IH]; intros F; [reflexivity |].
  cbn [repeat wsum]. rewrite IH. ring.
Qed.

Lemma wsum_repeat (v : R) (m : nat) (F : nat -> R) : wsum (repeat v m) F = v * Rsum m F.
Proof.
  rewrite wsum_Rsum, repeat_length.
  rewrite (@Rsum_ext m _ (fun i => v * F i)).
  - apply Rsum_scal.
  - intros i Hi. rewrite nth_repeat_lt by exact Hi. reflexivity.
Qed.

Lemma wsum_linear (a b : R) (l1 l2 : list R) (F : nat -> R) :
  length l1 = length l2 ->
  wsum (zip_with (fun x y => a * x + b * y) l1 l2) F = a * wsum l1 F + b * wsum l2 F.
Proof.
  revert l2 F. induction l1 as [| x l1 IH]; intros [| y l2] F Hlen; try discriminate.
  - cbn. ring.
  - cbn [zip_with wsum]. rewrite IH by (cbn in Hlen; lia). ring.
Qed.

(** ** Padding and linearity *)

(** X2.  With method ['direct'], coefficients equal to zero at the end of
    the sequence do not change the profile. *)
Theorem cheby_profile_direct_padding :
  forall (c : list R) (m : nat) (t : ndarray R),
    c <> [] ->
    cheby_profile (c ++ repeat 0 m) t "direct" = cheby_profile c t "direct".
Proof.
  intros c m t Hne.
  assert (Hne' : c ++ repeat 0 m <> []) by (destruct c; [contradiction | discriminate]).
  rewrite !cheby_profile_pointwise by assumption.
  change (coefficients (c ++ repeat 0 m) "direct") with (c ++ repeat 0 m).
  change (coefficients c "direct") with c.
  apply nd_map_ext. intros ti.
  rewrite !profile_pt_series by assumption.
  unfold cheb_series. rewrite wsum_app, wsum_zeros.
  destruct c as [| c0 c]; [contradiction |]. cbn [app nth]. ring.
Qed.

Lemma cheby_profile_direct_padding_witness :
  cheby_profile ([1; 2] ++ repeat 0 3) (Array [0; 1]) "direct"
  = cheby_profile [1; 2] (Array [0; 1]) "direct".
Proof.
  apply (@cheby_profile_direct_padding [1; 2] 3 (Array [0; 1])). discriminate.
Defined.


Lemma nd_linear (a b : R) (g1 g2 : R -> R) (t : ndarray R) :
  (Scalar a * nd_map g1 t + Scalar b * nd_map g2 t)%nd
  = nd_map (fun x => a * g1 x + b * g2 x) t.
Proof.
  unfold nd_add, nd_mul.
  apply (broadcast_strict_l Rplus (fun x => a * g1 x) (h := fun x => b * g2 x)).
  - apply (broadcast_strict_r Rmult (g := fun _ => a) g1); [apply rep_const | reflexivity].
  - left. apply (broadcast_strict_r Rmult (g := fun _ => b) g2); [apply rep_const | reflexivity].
Qed.

Lemma coefficients_linear (a b : R) (c1 c2 : list R) (method : string) :
  c1 <> [] -> length c1 = length c2 ->
  coefficients (zip_with (fun x y => a * x + b * y) c1 c2) method
  = zip_with (fun x y => a * x + b * y) (coefficients c1 method) (coefficients c2 method).
Proof.
  intros Hne Hlen.
  destruct (String.eqb method "interp") eqn:E.
  - apply String.eqb_eq in E. subst method.
    assert (Hne2 : c2 <> []) by (destruct c1, c2; try discriminate; contradiction).
    assert (Hl : length (zip_with (fun x y => a * x + b * y) c1 c2) = length c1)
      by (rewrite zip_with_length; lia).
    assert (Hne3 : zip_with (fun x y => a * x + b * y) c1 c2 <> [])
      by (destruct c1, c2; try discriminate; contradiction).
    rewrite !interp_coefficients by assumption.
    rewrite Hl, <- Hlen, zip_with_map_same.
    apply map_ext. intros j. rewrite wsum_linear by exact Hlen. ring.
  - unfold coefficients. rewrite E. reflexivity.
Qed.

Lemma coefficients_nonempty (c : list R) (method : string) :
  c <> [] -> coefficients c method <> [] /\ length (coefficients c method) = length c.
Proof.
  intros Hne. destruct (String.eqb method "interp") eqn:E.
  - apply String.eqb_eq in E. subst method. rewrite interp_coefficients by exact Hne.
    rewrite length_map, length_seq. split; [| reflexivity].
    destruct c; [contradiction | discriminate].
  - unfold coefficients. rewrite E. auto.
Qed.

(** X3.  The profile is linear in the control values, under either method:
    the profile of [a*c1 + b*c2] is [a] times the profile of [c1] plus [b]
    times the profile of [c2]. *)
Theorem cheby_profile_linear :
  forall (a b : R) (c1 c2 : list R) (t : ndarray R) (method : string),
    length c1 = length c2 ->
    cheby_profile (zip_with (fun x y => a * x + b * y) c1 c2) t method
    = (Scalar a * cheby_profile c1 t method + Scalar b * cheby_profile c2 t method)%nd.
Proof.
  intros a b c1 c2 t method Hlen.
  destruct c1 as [| x c1].
  - destruct c2; [| discriminate]. cbn [zip_with].
    rewrite !cheby_profile_nil, nd_linear.
    apply nd_map_ext. intros; ring.
  - destruct c2 as [| y c2]; [discriminate |].
    assert (H1 : x :: c1 <> []) by discriminate.
    assert (H2 : y :: c2 <> []) by discriminate.
    assert (H3 : zip_with (fun x y => a * x + b * y) (x :: c1) (y :: c2) <> []) by discriminate.
    rewrite !cheby_profile_pointwise by assumption.
    rewrite nd_linear, coefficients_linear by assumption.
    destruct (coefficients_nonempty method H1) as [N1 L1].
    destruct (coefficients_nonempty method H2) as [N2 L2].
    set (d1 := coefficients (x :: c1) method) in *.
    set (d2 := coefficients (y :: c2) method) in *.
    assert (Hd : length d1 = length d2) by congruence.
    apply nd_map_ext. intros ti.
    rewrite !profile_pt_series by
      (try assumption; destruct d1, d2; try discriminate; contradiction).
    unfold cheb_series. rewrite wsum_linear by exact Hd.
    destruct d1 as [| u d1]; [contradiction |]. destruct d2 as [| v d2]; [contradiction |].
    cbn [zip_with nth]. lra.
Qed.

Lemma cheby_profile_linear_witness :
  cheby_profile (zip_with (fun x y => 2 * x + 3 * y) [1; 0] [0; 1]) (Array [0; 1]) "interp"
  = (Scalar 2 * cheby_profile [1; 0] (Array [0; 1]) "interp"
     + Scalar 3 * cheby_profile [0; 1] (Array [0; 1]) "interp")%nd.
Proof.
  apply (@cheby_profile_linear 2 3 [1; 0] [0; 1] (Array [0; 1]) "interp"). reflexivity.
Defined.


(** ** The method 'interp' in closed form *)

(** X4.  With method ['interp'] the profile at any coordinate [t] is the
    Chebyshev series [sum_j c_j T_j(2t - 1) - c_0 / 2] whose coefficients
    are the cosine transform of the control values,
    [c_j = (2/N) sum_k f_k cos(pi j (2k + 1) / (2N))]. *)
Theorem cheby_profile_interp_series :
  forall (control : list R) (t : ndarray R),
    control <> [] ->
    cheby_profile control t "interp"
    = nd_map (fun ti =>
                let N := length control in
                let c := fun j => 2 / INR N
                                  * wsum control (fun k => cos (PI * INR j * (2 * INR k + 1)
                                                                / (2 * INR N))) in
                Rsum N (fun j => c j * T j (2 * ti - 1)) - 0.5 * c 0%nat)
             t.
Proof.
  intros control t Hne.
  assert (Hn : (0 < length control)%nat) by (destruct control; [contradiction | cbn; lia]).
  assert (Hn' : 0 < INR (length control)) by (apply lt_0_INR; lia).
  rewrite cheby_profile_pointwise by exact Hne.
  apply nd_map_ext. intros ti. cbv zeta.
  rewrite (interp_coefficients Hne).
  set (N := length control) in *.
  assert (Harg : forall j k, cos (INR j * theta N k)
                             = cos (PI * INR j * (2 * INR k + 1) / (2 * INR N))).
  { intros j k. f_equal. unfold theta. field. lra. }
  set (c := map _ (seq 0 N)).
  assert (Hc : c <> []) by (unfold c; destruct N; [lia | discriminate]).
  assert (Hlen : length c = N) by (unfold c; now rewrite length_map, length_seq).
  rewrite (profile_pt_series _ Hc). unfold cheb_series.
  rewrite wsum_Rsum, Hlen. f_equal.
  - apply Rsum_ext. intros j Hj. unfold c. rewrite nth_map_seq by exact Hj.
    cbn [Nat.add]. f_equal. f_equal. apply wsum_ext. intros k _. apply Harg.
  - f_equal. unfold c. rewrite nth_map_seq by exact Hn. cbn [Nat.add].
    f_equal. apply wsum_ext. intros k _. apply Harg.
Qed.

Lemma cheby_profile_interp_series_witness :
  cheby_profile [1; 2] (Array [0; 1]) "interp"
  = nd_map (fun ti =>
              let N := length [1; 2] in
              let c := fun j => 2 / INR N
                                * wsum [1; 2] (fun k => cos (PI * INR j * (2 * INR k + 1)
                                                             / (2 * INR N))) in
              Rsum N (fun j => c j * T j (2 * ti - 1)) - 0.5 * c 0%nat)
           (Array [0; 1]).
Proof.
  apply (@cheby_profile_interp_series [1; 2] (Array [0; 1])). discriminate.
Defined.

(** [cos beta + cos 3 beta + ... + cos (2N-1) beta], times [2 sin beta], is
    [sin 2N beta]. *)
Lemma odd_cos_sum (N : nat) (beta : R) :
  2 * sin beta * Rsum N (fun k => cos ((2 * INR k + 1) * beta)) = sin (2 * INR N * beta).
Proof.
  induction N as [| N IH].
  - cbn [Rsum INR]. replace (2 * 0 * beta) with 0 by ring. rewrite sin_0. ring.
  - cbn [Rsum]. rewrite Rmult_plus_distr_l, IH.
    replace (2 * INR (S N) * beta) with ((2 * INR N + 1) * beta + beta)
      by (rewrite S_INR; ring).
    replace (2 * INR N * beta) with ((2 * INR N + 1) * beta - beta) by ring.
    rewrite sin_plus, sin_minus. ring.
Qed.

(** The cosines of a nonzero order sum to zero over the control points. *)
Lemma cos_sum_nodes (N j : nat) :
  (0 < j < 2 * N)%nat -> Rsum N (fun k => cos (INR j * theta N k)) = 0.
Proof.
  intros [Hj0 Hj2].
  assert (HN : 0 < INR N) by (apply lt_0_INR; lia).
  assert (Hj : 0 < INR j) by (apply lt_0_INR; lia).
  assert (Hj' : INR j < 2 * INR N).
  { apply lt_INR in Hj2. rewrite mult_INR in Hj2. cbn [INR] in Hj2. lra. }
  pose proof PI_RGT_0 as Hpi.
  set (beta := INR j * PI / (2 * INR N)).
  assert (Hs : 0 < sin beta).
  { apply sin_gt_0; unfold beta.
    - apply Rdiv_lt_0_compat; [now apply Rmult_lt_0_compat | lra].
    - apply (Rmult_lt_reg_r (2 * INR N)); [lra |].
      replace (INR j * PI / (2 * INR N) * (2 * INR N)) with (INR j * PI) by (field; lra).
      nra. }
  pose proof (odd_cos_sum N beta) as H.
  replace (2 * INR N * beta) with (0 + INR j * PI) in H by (unfold beta; field; lra).
  rewrite sin_plus_nat_PI, sin_0, Rmult_0_r in H.
  rewrite (@Rsum_ext N _ (fun k => cos ((2 * INR k + 1) * beta))).
  - apply (Rmult_eq_reg_l (2 * sin beta)); [| lra]. rewrite H. ring.
  - intros k _. f_equal. unfold theta, beta. field. lra.
Qed.

(** X5.  With method ['interp'], control values all equal to [v] give the
    constant profile [v], at every coordinate. *)
Theorem cheby_profile_interp_constant :
  forall (v : R) (N : nat) (t : ndarray R),
    (0 < N)%nat ->
    cheby_profile (repeat v N) t "interp" = nd_map (fun _ => v) t.
Proof.
  intros v N t HN.
  assert (HN' : 0 < INR N) by (apply lt_0_INR; lia).
  assert (Hne : repeat v N <> []) by (destruct N; [lia | discriminate]).
  rewrite cheby_profile_pointwise by exact Hne.
  apply nd_map_ext. intros ti.
  rewrite (interp_coefficients Hne), repeat_length.
  set (c := map _ (seq 0 N)).
  assert (Hc : c <> []) by (unfold c; destruct N; [lia | discriminate]).
  assert (Hlen : length c = N) by (unfold c; now rewrite length_map, length_seq).
  assert (H0 : nth 0 c 0 = 2 * v).
  { unfold c. rewrite nth_map_seq by exact HN. cbn [Nat.add].
    rewrite wsum_repeat.
    rewrite (@Rsum_ext N _ (fun _ => 1))
      by (intros k _; cbn [INR]; now rewrite Rmult_0_l, cos_0).
    rewrite Rsum_const. field. lra. }
  assert (Hj : forall j, (j < N)%nat -> j <> 0%nat -> nth j c 0 = 0).
  { intros j Hj Hj0. unfold c. rewrite nth_map_seq by exact Hj. cbn [Nat.add].
    rewrite wsum_repeat, cos_sum_nodes by lia. ring. }
  rewrite (profile_pt_series _ Hc). unfold cheb_series.
  rewrite wsum_Rsum, Hlen.
  rewrite (@Rsum_single N 0%nat _ HN).
  - rewrite H0, T_0. lra.
  - intros j Hj1 Hj0. rewrite (Hj j Hj1 Hj0). ring.
Qed.

Lemma cheby_profile_interp_constant_witness :
  cheby_profile (repeat 7 3) (Array [0; 0.25; 1]) "interp"
  = nd_map (fun _ => 7) (Array [0; 0.25; 1]).
Proof.
  apply (@cheby_profile_interp_constant 7 3 (Array [0; 0.25; 1])). lia.
Defined.

(** ** The two faces of the layer *)

Lemma cos_nat_PI (j : nat) : cos (INR j * PI) = (-1) ^ j.
Proof.
  induction j as [| j IH].
  - cbn [INR pow]. now rewrite Rmult_0_l, cos_0.
  - replace (INR (S j) * PI) with (INR j * PI + PI) by (rewrite S_INR; ring).
    rewrite neg_cos, IH. cbn [pow]. ring.
Qed.

Lemma wsum_ones (l : list R) : wsum l (fun _ => 1) = fold_right Rplus 0 l.
Proof. induction l as [| a l IH]; cbn [wsum fold_right]; [reflexivity | rewrite IH; ring]. Qed.

(** X6.  With method ['direct'], at [t = 1] the profile is the sum of the
    coefficients less half the first, and at [t = 0] the alternating sum
    less half the first. *)
Theorem cheby_profile_direct_faces :
  forall c : list R,
    c <> [] ->
    cheby_profile c (Scalar 1) "direct" = Scalar (fold_right Rplus 0 c - 0.5 * nth 0 c 0)
    /\ cheby_profile c (Scalar 0) "direct"
       = Scalar (wsum c (fun j => (-1) ^ j) - 0.5 * nth 0 c 0).
Proof.
  intros c Hne.
  rewrite !cheby_profile_pointwise by exact Hne.
  change (coefficients c "direct") with c. cbn [nd_map].
  rewrite !profile_pt_series by exact Hne. unfold cheb_series. split; f_equal; f_equal.
  - rewrite <- wsum_ones. apply wsum_ext. intros j _.
    replace (2 * 1 - 1) with (cos 0) by (rewrite cos_0; ring).
    rewrite T_cos, Rmult_0_r. apply cos_0.
  - apply wsum_ext. intros j _.
    replace (2 * 0 - 1) with (cos PI) by (rewrite cos_PI; ring).
    rewrite T_cos. apply cos_nat_PI.
Qed.

Lemma cheby_profile_direct_faces_witness :
  cheby_profile [1; 2; 3] (Scalar 1) "direct"
    = Scalar (fold_right Rplus 0 [1; 2; 3] - 0.5 * nth 0 [1; 2; 3] 0)
  /\ cheby_profile [1; 2; 3] (Scalar 0) "direct"
     = Scalar (wsum [1; 2; 3] (fun j => (-1) ^ j) - 0.5 * nth 0 [1; 2; 3] 0).
Proof.
  apply (@cheby_profile_direct_faces [1; 2; 3]). discriminate.
Defined.

End ChebyExtra.

(* ================================================================== *)
(** * Part IX.  Properties of the layers of refl1d/cheby.py *)
(* ================================================================== *)

Module ChebyLayersProofs.
Import Numpy Cheby Py Linalg ModelProofs ChebyProofs ChebyExtra ChebyLayers.

Lemma normalized_depth_nonzero (Pz : list R) (thickness : R) :
  thickness <> 0 ->
  normalized_depth Pz thickness = Some (map (fun z => z / thickness) Pz).
Proof.
  intros H. unfold normalized_depth. destruct (Req_dec_T thickness 0); [contradiction | reflexivity].
Qed.

Lemma clip_range (v : R) : 0 <= Rmin (Rmax v 0) 1 <= 1.
Proof.
  unfold Rmin, Rmax.
  destruct (Rle_dec v 0); destruct (Rle_dec _ 1); lra.
Qed.

Lemma convex_between (a b v : R) :
  0 <= v <= 1 -> Rmin a b <= a * v + b * (1 - v) <= Rmax a b.
Proof.
  intros Hv. unfold Rmin, Rmax. destruct (Rle_dec a b); nra.
Qed.

(** X7.  [ChebyVF.render] with scalar material and solvent densities and a
    nonzero thickness: the volume fraction it uses lies in [0, 1] at every
    microslab, the real and imaginary densities it passes on are the mix
    [material * vf + solvent * (1 - vf)], so each lies between the
    material's and the solvent's, there is one value for each microslab and
    the widths are passed on unchanged. *)
Theorem ChebyVF_render_mix :
  forall (Probe : Type) (self : ChebyVF.t Probe) (probe : Probe) (slabs : Slabs.t)
         (mr mi sr si : R) (Pw Pz : list R),
    ChebyVF.sld (ChebyVF.material self) probe = (Scalar mr, Scalar mi) ->
    ChebyVF.sld (ChebyVF.solvent self) probe = (Scalar sr, Scalar si) ->
    ChebyVF.thickness self <> 0 ->
    Slabs.microslabs slabs (ChebyVF.thickness self) = (Pw, Pz) ->
    exists vfs : list R,
      clip (cheby_profile (ChebyVF.vf self)
                          (Array (map (fun z => z / ChebyVF.thickness self) Pz))
                          (ChebyVF.method self)) 0 1 = Array vfs
      /\ length vfs = length Pz
      /\ Forall (fun v => 0 <= v <= 1) vfs
      /\ ChebyVF.render self probe slabs
         = Some (inr {| Slabs.rho := Array (map (fun v => mr * v + sr * (1 - v)) vfs);
                        Slabs.irho := Array (map (fun v => mi * v + si * (1 - v)) vfs);
                        Slabs.w := Pw |})
      /\ Forall (fun r => Rmin mr sr <= r <= Rmax mr sr)
                (map (fun v => mr * v + sr * (1 - v)) vfs)
      /\ Forall (fun i => Rmin mi si <= i <= Rmax mi si)
                (map (fun v => mi * v + si * (1 - v)) vfs).
Proof.
  intros Probe self probe slabs mr mi sr si Pw Pz Hmat Hsol Hth Hms.
  set (t := map (fun z => z / ChebyVF.thickness self) Pz).
  destruct (cheby_profile_nd_map (ChebyVF.vf self) (Array t) (ChebyVF.method self)) as [g Hg].
  set (clipf := fun v => Rmin (Rmax v 0) 1).
  exists (map (fun z => clipf (g z)) t).
  assert (Hrange : Forall (fun v => 0 <= v <= 1) (map (fun z => clipf (g z)) t)).
  { apply Forall_forall. intros v Hv. apply in_map_iff in Hv.
    destruct Hv as (z & <- & _). apply clip_range. }
  split; [| split; [| split; [| split; [| split]]]].
  - rewrite Hg. unfold clip. cbn [nd_map]. now rewrite map_map.
  - unfold t. now rewrite !length_map.
  - exact Hrange.
  - unfold ChebyVF.render. rewrite Hmat, Hsol.
    cbn [ChebyVF.complex_of nd_map nd_op ok ChebyVF.index0].
    rewrite Hms, (normalized_depth_nonzero Pz Hth). fold t.
    rewrite Hg. unfold clip. cbn [nd_map nd_op rbind ok broadcast1].
    unfold broadcast1. rewrite !map_map, !length_map, Nat.eqb_refl. cbn [rbind ok].
    rewrite zip_with_map_same. cbn [nd_map]. rewrite !map_map.
    unfold ok. do 2 f_equal.
    f_equal; f_equal; apply map_ext; intros z; unfold clipf;
      unfold real, imag, Cadd, Cmul, RtoC, imag_lit; cbn [fst snd]; ring.
  - apply Forall_forall. intros r Hr. apply in_map_iff in Hr.
    destruct Hr as (v & <- & Hv). apply convex_between.
    rewrite Forall_forall in Hrange. now apply Hrange.
  - apply Forall_forall. intros r Hr. apply in_map_iff in Hr.
    destruct Hr as (v & <- & Hv). apply convex_between.
    rewrite Forall_forall in Hrange. now apply Hrange.
Qed.


(** A layer of thickness [10] cut in two microslabs, half material. *)
Definition two_slabs : Slabs.t := {| Slabs.microslabs := fun _ => ([5; 5], [2.5; 7.5]) |}.

Definition half_layer : ChebyVF.t unit :=
  {| ChebyVF.thickness := 10; ChebyVF.interface := 0; ChebyVF.length := 0;
     ChebyVF.solvent := {| ChebyVF.sld := fun _ => (Scalar 6, Scalar 0) |};
     ChebyVF.material := {| ChebyVF.sld := fun _ => (Scalar 2, Scalar 1) |};
     ChebyVF.vf := [1]; ChebyVF.method := "direct" |}.

Lemma ChebyVF_render_mix_witness :
  exists vfs : list R,
    clip (cheby_profile (ChebyVF.vf half_layer)
                        (Array (map (fun z => z / ChebyVF.thickness half_layer) [2.5; 7.5]))
                        (ChebyVF.method half_layer)) 0 1 = Array vfs
    /\ length vfs = length [2.5; 7.5]
    /\ Forall (fun v => 0 <= v <= 1) vfs
    /\ ChebyVF.render half_layer tt two_slabs
       = Some (inr {| Slabs.rho := Array (map (fun v => 2 * v + 6 * (1 - v)) vfs);
                      Slabs.irho := Array (map (fun v => 1 * v + 0 * (1 - v)) vfs);
                      Slabs.w := [5; 5] |})
    /\ Forall (fun r => Rmin 2 6 <= r <= Rmax 2 6) (map (fun v => 2 * v + 6 * (1 - v)) vfs)
    /\ Forall (fun i => Rmin 1 0 <= i <= Rmax 1 0) (map (fun v => 1 * v + 0 * (1 - v)) vfs).
Proof.
  apply (@ChebyVF_render_mix unit half_layer tt two_slabs 2 1 6 0 [5; 5] [2.5; 7.5]).
  - reflexivity.
  - reflexivity.
  - cbn. lra.
  - reflexivity.
Defined.

(** X8.  The "temporary hack" of [ChebyVF.render]: material and solvent
    densities given as arrays (one value per wavelength) are cut down to
    their first entries, so the layer renders as it would with these two
    scalar densities. *)
Theorem ChebyVF_render_first_entry :
  forall (Probe : Type) (self self' : ChebyVF.t Probe) (probe : Probe) (slabs : Slabs.t)
         (mr mi sr si : R) (mrs mis srs sis : list R),
    ChebyVF.sld (ChebyVF.material self) probe = (Array (mr :: mrs), Array (mi :: mis)) ->
    ChebyVF.sld (ChebyVF.solvent self) probe = (Array (sr :: srs), Array (si :: sis)) ->
    length mrs = length mis ->
    length srs = length sis ->
    ChebyVF.sld (ChebyVF.material self') probe = (Scalar mr, Scalar mi) ->
    ChebyVF.sld (ChebyVF.solvent self') probe = (Scalar sr, Scalar si) ->
    ChebyVF.thickness self' = ChebyVF.thickness self ->
    ChebyVF.vf self' = ChebyVF.vf self ->
    ChebyVF.method self' = ChebyVF.method self ->
    ChebyVF.render self probe slabs = ChebyVF.render self' probe slabs.
Proof.
  intros Probe self self' probe slabs mr mi sr si mrs mis srs sis
         Hmat Hsol Hm Hs Hmat' Hsol' Hth Hvf Hme.
  unfold ChebyVF.render. rewrite Hmat, Hsol, Hmat', Hsol', Hth, Hvf, Hme.
  unfold ChebyVF.complex_of. cbn [nd_map nd_op map]. unfold broadcast1.
  cbn [Datatypes.length]. rewrite !length_map, Hm, Hs, !Nat.eqb_refl.
  cbn [rbind ok zip_with ChebyVF.index0]. reflexivity.
Qed.

(** The half layer again, its densities given at three wavelengths. *)
Definition half_layer_arrays : ChebyVF.t unit :=
  {| ChebyVF.thickness := 10; ChebyVF.interface := 0; ChebyVF.length := 0;
     ChebyVF.solvent := {| ChebyVF.sld := fun _ => (Array [6; 7; 8], Array [0; 0; 0]) |};
     ChebyVF.material := {| ChebyVF.sld := fun _ => (Array [2; 3; 4], Array [1; 1; 1]) |};
     ChebyVF.vf := [1]; ChebyVF.method := "direct" |}.

Lemma ChebyVF_render_first_entry_witness :
  ChebyVF.render half_layer_arrays tt two_slabs = ChebyVF.render half_layer tt two_slabs.
Proof.
  apply (@ChebyVF_render_first_entry unit half_layer_arrays half_layer tt two_slabs
           2 1 6 0 [3; 4] [1; 1] [7; 8] [0; 0]); reflexivity.
Defined.

Lemma map_const_repeat {A B} (b : B) (l : list A) : map (fun _ => b) l = repeat b (length l).
Proof. induction l as [| a l IH]; cbn; [reflexivity | now rewrite IH]. Qed.

(** X9.  [FreeformCheby.render] with a nonzero thickness passes on one
    real and one imaginary density for each microslab and the widths
    unchanged; a part without control values (the default) is zero in every
    microslab. *)
Theorem FreeformCheby_render_shape :
  forall (self : FreeformCheby.t) (slabs : Slabs.t) (Pw Pz : list R),
    FreeformCheby.thickness self <> 0 ->
    Slabs.microslabs slabs (FreeformCheby.thickness self) = (Pw, Pz) ->
    exists rs ims : list R,
      FreeformCheby.render self slabs
      = Some {| Slabs.rho := Array rs; Slabs.irho := Array ims; Slabs.w := Pw |}
      /\ length rs = length Pz
      /\ length ims = length Pz
      /\ (FreeformCheby.rho self = [] -> rs = repeat 0 (length Pz))
      /\ (FreeformCheby.irho self = [] -> ims = repeat 0 (length Pz)).
Proof.
  intros self slabs Pw Pz Hth Hms.
  set (t := map (fun z => z / FreeformCheby.thickness self) Pz).
  assert (Ht : length t = length Pz) by (unfold t; apply length_map).
  destruct (cheby_profile_nd_map (FreeformCheby.rho self) (Array t) (FreeformCheby.method self))
    as [g Hg].
  destruct (cheby_profile_nd_map (FreeformCheby.irho self) (Array t) (FreeformCheby.method self))
    as [h Hh].
  exists (map g t), (map h t).
  split; [| split; [| split; [| split]]].
  - unfold FreeformCheby.render. rewrite Hms, (normalized_depth_nonzero Pz Hth). fold t.
    rewrite Hg, Hh. reflexivity.
  - now rewrite length_map.
  - now rewrite length_map.
  - intros Hnil. rewrite Hnil, cheby_profile_nil in Hg. cbn [nd_map] in Hg.
    injection Hg as <-. now rewrite map_const_repeat, Ht.
  - intros Hnil. rewrite Hnil, cheby_profile_nil in Hh. cbn [nd_map] in Hh.
    injection Hh as <-. now rewrite map_const_repeat, Ht.
Qed.

Definition freeform_layer : FreeformCheby.t :=
  {| FreeformCheby.name := "Cheby"; FreeformCheby.method := "interp";
     FreeformCheby.thickness := 10; FreeformCheby.rho := [1; 2]; FreeformCheby.irho := [] |}.

Lemma FreeformCheby_render_shape_witness :
  exists rs ims : list R,
    FreeformCheby.render freeform_layer two_slabs
    = Some {| Slabs.rho := Array rs; Slabs.irho := Array ims; Slabs.w := [5; 5] |}
    /\ length rs = length [2.5; 7.5]
    /\ length ims = length [2.5; 7.5]
    /\ (FreeformCheby.rho freeform_layer = [] -> rs = repeat 0 (length [2.5; 7.5]))
    /\ (FreeformCheby.irho freeform_layer = [] -> ims = repeat 0 (length [2.5; 7.5])).
Proof.
  apply (@FreeformCheby_render_shape freeform_layer two_slabs [5; 5] [2.5; 7.5]).
  - cbn. lra.
  - reflexivity.
Defined.

End ChebyLayersProofs.

(* ================================================================== *)
(** * Part X.  Further properties of dream/model.py *)
(* ================================================================== *)

Module ModelExtra.
Import Numpy Py Linalg Model ModelProofs ChebyProofs.

(** ** log_density of the wrappers *)

(** X10.  [LogDensity(f).nllf(x)] is [-f(x)] and never raises, and
    [log_density] gives back the values of [f] over the population, in
    order. *)
Theorem LogDensity_log_density :
  forall (W : Type) (self : LogDensity.t) (pop : list vector) (RNG : rng) (w : W),
    (forall x, LogDensity.nllf self x RNG w = inr (xneg (LogDensity.f self x), w))
    /\ log_density (LogDensity.model self) pop RNG w = inr (map (LogDensity.f self) pop, w).
Proof.
  intros W self pop RNG w. split; [reflexivity |].
  rewrite (@log_density_pure W (LogDensity.model self) (fun x => xneg (LogDensity.f self x)) RNG)
    by reflexivity.
  f_equal. f_equal. apply map_ext. intros x. apply xneg_involutive.
Qed.

(** X11.  [Density(f).log_density] gives the logarithm of the density at
    each member of the population and never raises: [-inf] where the
    density is zero, [log r] where it is a positive number [r]. *)
Theorem Density_log_density :
  forall (W : Type) (self : Density.t) (pop : list vector) (RNG : rng) (w : W),
    log_density (Density.model self) pop RNG w
      = inr (map (fun x => xlog (Density.f self x)) pop, w)
    /\ (forall x, Density.f self x = Fin 0 -> xlog (Density.f self x) = NInf)
    /\ (forall x r, Density.f self x = Fin r -> 0 < r -> xlog (Density.f self x) = Fin (ln r)).
Proof.
  intros W self pop RNG w. split; [| split].
  - rewrite (@log_density_pure W (Density.model self)
               (fun x => xneg (xlog (Density.f self x))) RNG) by reflexivity.
    f_equal. f_equal. apply map_ext. intros x. apply xneg_involutive.
  - intros x ->. apply xlog_zero.
  - intros x r -> Hr. now apply xlog_positive.
Qed.

(** ** Exceptions in log_density *)

(** X12.  [log_density] stops at the first member of the population for
    which [nllf] raises, and raises that exception: no result is returned
    for the members before it. *)
Theorem log_density_raises :
  forall (W : Type) (self : MCMCModel W) (RNG : rng) (pre post : list vector) (x : vector)
         (vs : list xreal) (w w1 : W) (e : exn),
    calls self RNG w pre vs w1 ->
    nllf self x RNG w1 = inl e ->
    log_density self (pre ++ x :: post) RNG w = inl e.
Proof.
  intros W self RNG pre post x vs w w1 e Hc He.
  induction Hc as [w | w wa wb y v pop vs' Hy Hc IH].
  - cbn [app]. rewrite log_density_cons, He. reflexivity.
  - cbn [app]. rewrite log_density_cons, Hy, (IH He). reflexivity.
Qed.

(** The abstract base class, whose [nllf] raises. *)
Definition abstract_model : MCMCModel unit := {| nllf := MCMCModel_nllf |}.

Lemma log_density_raises_witness :
  log_density abstract_model ([] ++ [0] :: [[1]]) numpy_random tt
  = inl (TypeError "exceptions must be old-style classes or derived from BaseException, not NotImplementedType").
Proof.
  apply (@log_density_raises unit abstract_model numpy_random [] [[1]] [0] [] tt tt
           (TypeError "exceptions must be old-style classes or derived from BaseException, not NotImplementedType")).
  - constructor.
  - reflexivity.
Defined.


(** ** Mixture: the weights *)

Lemma step2_tl_le {A} (l : list A) :
  (length (step2 (tl l)) <= length (step2 l) <= S (length (step2 (tl l))))%nat.
Proof.
  induction l as [| a l IH]; [cbn; lia |].
  rewrite step2_cons. cbn [tl length]. lia.
Qed.

Definition is_float {W} (o : pyobj W) : bool :=
  match o with
  | PyFloat _ => true
  | _ => false
  end.

(** Every weight of the argument list is a number. *)
Definition numeric_weights {W} (args : list (pyobj W)) : Prop :=
  forall i w, nth_error args (2 * i + 1) = Some w -> exists v, w = PyFloat v.

Lemma builtin_sum_floats {W} (ws : list (pyobj W)) :
  forall acc, forallb is_float ws = true -> exists v, builtin_sum acc ws = inr v.
Proof.
  induction ws as [| o ws IH]; intros acc H; cbn [builtin_sum].
  - eexists. reflexivity.
  - cbn [forallb] in H. apply andb_prop in H. destruct H as [Ho Hws].
    destruct o; try discriminate. cbn [py_add rbind ok]. now apply IH.
Qed.

Lemma builtin_sum_nonfloat {W} (ws : list (pyobj W)) :
  forall acc, forallb is_float ws = false ->
              builtin_sum acc ws = inl (TypeError "unsupported operand type(s) for +").
Proof.
  induction ws as [| o ws IH]; intros acc H; cbn [builtin_sum]; [discriminate |].
  cbn [forallb] in H. destruct o; try reflexivity.
  cbn [is_float andb] in H. cbn [py_add rbind ok]. now apply IH.
Qed.

(** X13.  An argument list that passes the shape check of [Mixture]
    constructs when every weight is a number.  A string weight passes the
    check ([numpy.isscalar] accepts strings) and makes the constructor
    raise TypeError all the same, when the weights are summed. *)
Theorem Mixture_init_weights :
  forall (W : Type) (args : list (pyobj W)),
    ~ malformed args ->
    (numeric_weights args ->
       exists self, Mixture.__init__ args = inr self
                    /\ length (Mixture.pairs self) = length (step2 (tl args)))
    /\ ((exists i s, nth_error args (2 * i + 1) = Some (PyStr s)) ->
          Mixture.__init__ args = inl (TypeError "unsupported operand type(s) for +")).
Proof.
  intros W args Hwf.
  pose proof (Mixture_check_malformed args) as Hc.
  unfold Mixture.__init__.
  destruct (negb (Nat.eqb (length args mod 2) 0)
            || negb (forallb hasattr_nllf (step2 args))
            || negb (forallb isscalar (step2 (tl args)))) eqn:E.
  { exfalso. apply Hwf, Hc. reflexivity. }
  split.
  - intros Hnum.
    assert (Hf : forallb is_float (step2 (tl args)) = true).
    { apply forallb_forall. intros o Ho. apply In_nth_error in Ho. destruct Ho as [i Hi].
      rewrite nth_error_step2_tl in Hi. destruct (Hnum i o Hi) as [v ->]. reflexivity. }
    destruct (@builtin_sum_floats W _ (Fin 0) Hf) as [v Hv]. rewrite Hv. cbn [rbind ok].
    eexists. split; [reflexivity |]. cbn [Mixture.pairs].
    rewrite length_combine. pose proof (step2_tl_le args). lia.
  - intros (i & s & Hi).
    assert (Hf : forallb is_float (step2 (tl args)) = false).
    { apply forallb_false_nth. exists i, (PyStr s). split; [| reflexivity].
      now rewrite nth_error_step2_tl. }
    rewrite (@builtin_sum_nonfloat W _ (Fin 0) Hf). reflexivity.
Qed.


Lemma Mixture_init_weights_witness :
  (numeric_weights [PyModel (@Density.model unit (Density.__init__ (fun _ => Fin 1) None None));
                    PyStr "a"] ->
     exists self,
       Mixture.__init__ [PyModel (@Density.model unit (Density.__init__ (fun _ => Fin 1) None None));
                         PyStr "a"] = inr self
       /\ length (Mixture.pairs self)
          = length (step2 (tl [PyModel (@Density.model unit
                                          (Density.__init__ (fun _ => Fin 1) None None));
                               PyStr "a"])))
  /\ ((exists i s,
         nth_error [PyModel (@Density.model unit (Density.__init__ (fun _ => Fin 1) None None));
                    PyStr "a"] (2 * i + 1) = Some (PyStr s)) ->
        Mixture.__init__ [PyModel (@Density.model unit (Density.__init__ (fun _ => Fin 1) None None));
                          PyStr "a"]
        = inl (TypeError "unsupported operand type(s) for +")).
Proof.
  apply (@Mixture_init_weights unit
           [PyModel (Density.model (Density.__init__ (fun _ => Fin 1) None None)); PyStr "a"]).
  intros Hm. apply Mixture_check_malformed in Hm. discriminate.
Defined.

(** ** Mixture: evaluation *)




(** The hypothesis of the theorem holds at this model: its value [-3] has a
    representable likelihood. *)
Lemma LogDensity_three_representable (x : vector) (RNG : rng) (w : unit) :
  forall v w',
    nllf (@LogDensity.model unit (LogDensity.__init__ (fun _ => Fin 3) None None)) x RNG w
    = inr (v, w') -> exp_representable v.
Proof.
  intros v w' H. injection H as <- _. cbn [xneg LogDensity.f LogDensity.__init__].
  cbn [exp_representable]. apply exp_in_range_600. lra.
Qed.


(** ** Mixture: several components *)

(** The calls [M.nllf(x, RNG)] for [M] running through the components, the
    values they return and the interpreter state on the way. *)
Inductive component_calls {W} (x : vector) (RNG : rng)
  : W -> list (pyobj W) -> list xreal -> W -> Prop :=
| component_calls_nil (w : W) : component_calls x RNG w [] [] w
| component_calls_cons (w w1 w2 : W) (M : pyobj W) (v : xreal)
                       (Ms : list (pyobj W)) (vs : list xreal) :
    call_nllf M x RNG w = inr (v, w1) ->
    component_calls x RNG w1 Ms vs w2 ->
    component_calls x RNG w (M :: Ms) (v :: vs) w2.


Definition Rlist_sum (l : list R) : R := fold_right Rplus 0 l.





Lemma np_sum_reals (l : list R) : np_sum (map Fin l) = Fin (Rlist_sum l).
Proof.
  unfold np_sum.
  assert (H : forall acc, fold_left xadd (map Fin l) (Fin acc) = Fin (acc + Rlist_sum l)).
  { induction l as [| a l IH]; intros acc; cbn [map fold_left Rlist_sum fold_right].
    - f_equal. ring.
    - cbn [xadd]. rewrite IH. f_equal. unfold Rlist_sum. ring. }
  rewrite H. f_equal. ring.
Qed.

Lemma comprehension_cons {W A B} (g : A -> py W B) (a : A) (l : list A) (w : W) :
  comprehension g (a :: l) w
  = match g a w with
    | inl e => inl e
    | inr (v, w1) =>
        match comprehension g l w1 with
        | inl e => inl e
        | inr (vs, w2) => inr (v :: vs, w2)
        end
    end.
Proof.
  cbn [comprehension]. unfold bind, ret.
  destruct (g a w) as [e | [v w1]]; [reflexivity |].
  destruct (comprehension g l w1) as [e | [vs w2]]; reflexivity.
Qed.

Lemma step2_even_length {A} (l : list A) :
  Nat.eqb (length l mod 2) 0 = true -> length (step2 (tl l)) = length (step2 l).
Proof.
  intros He. rewrite odd_mod2 in He. apply negb_true_iff in He.
  pose proof (step2_length l) as Hs. pose proof (step2_tl_le l) as Hl.
  destruct (Nat.eq_dec (length (step2 (tl l))) (length (step2 l))) as [E | E]; [exact E |].
  exfalso. assert (Hodd : length l = (1 + 2 * length (step2 (tl l)))%nat) by lia.
  rewrite Hodd, Nat.odd_add_mul_2 in He. discriminate.
Qed.

Lemma mixture_terms_raise {W} (x : vector) (RNG : rng) (w w1 : W) pre vs :
  component_calls x RNG w pre vs w1 ->
  forall (M : pyobj W) (post weights : list (pyobj W)) (e : exn),
    call_nllf M x RNG w1 = inl e ->
    forallb is_float weights = true ->
    length weights = length (pre ++ M :: post) ->
    comprehension
      (fun Mw : pyobj W * pyobj W =>
         bind (call_nllf (fst Mw) x RNG) (fun v => lift (py_mul (snd Mw) (xexp (xneg v)))))
      (combine (pre ++ M :: post) weights) w
    = inl e.
Proof.
  induction 1 as [w | w wa wb M0 v Ms vs HM _ IH]; intros M post weights e He Hf Hlen.
  - destruct weights as [| w0 weights]; [discriminate |].
    cbn [app combine]. rewrite comprehension_cons. cbn [fst snd].
    unfold bind at 1. rewrite He. reflexivity.
  - destruct weights as [| w0 weights]; [discriminate |].
    cbn [forallb] in Hf. apply andb_prop in Hf. destruct Hf as [Hw0 Hf].
    destruct w0 as [| a | | |]; try discriminate.
    cbn [app combine]. rewrite comprehension_cons. cbn [fst snd].
    unfold bind at 1. rewrite HM. unfold lift at 1. cbn [py_mul ok].
    rewrite (IH M post weights e He Hf) by (cbn in Hlen; lia). reflexivity.
Qed.

(** X15.  An evaluation of a constructed Mixture calls the components in
    the order of the argument list, and the first exception a component
    raises is the exception of the evaluation: the components after it are
    not called and no value is returned. *)
Theorem Mixture_nllf_raises :
  forall (W : Type) (args : list (pyobj W)) (self : Mixture.t W)
         (pre post : list (pyobj W)) (M : pyobj W) (vs : list xreal)
         (x : vector) (RNG : rng) (w w1 : W) (e : exn),
    Mixture.__init__ args = inr self ->
    step2 args = pre ++ M :: post ->
    component_calls x RNG w pre vs w1 ->
    call_nllf M x RNG w1 = inl e ->
    Mixture.nllf self x RNG w = inl e.
Proof.
  intros W args self pre post M vs x RNG w w1 e Hs Hmodels Hcalls He.
  unfold Mixture.__init__ in Hs.
  destruct (negb (Nat.eqb (length args mod 2) 0)) eqn:Hlen; [discriminate |].
  apply negb_false_iff in Hlen. cbn [orb] in Hs.
  destruct (negb (forallb hasattr_nllf (step2 args))
            || negb (forallb isscalar (step2 (tl args)))); [discriminate |].
  destruct (forallb is_float (step2 (tl args))) eqn:Hf.
  - destruct (builtin_sum (Fin 0) (step2 (tl args))) as [e0 | s]; [discriminate |].
    cbn [rbind ok] in Hs. injection Hs as <-.
    unfold Mixture.nllf. cbn [Mixture.pairs]. unfold bind at 1.
    rewrite Hmodels.
    rewrite (@mixture_terms_raise W x RNG w w1 pre vs Hcalls M post (step2 (tl args)) e He Hf)
      by (rewrite <- Hmodels; now apply step2_even_length).
    reflexivity.
  - rewrite (@builtin_sum_nonfloat W _ (Fin 0) Hf) in Hs. discriminate.
Qed.

(** The theorem at [Mixture(M, 1.0)] with [M] the abstract base class. *)
Lemma Mixture_nllf_raises_witness :
  Mixture.nllf (single abstract_model) [0] numpy_random tt
  = inl (TypeError "exceptions must be old-style classes or derived from BaseException, not NotImplementedType").
Proof.
  apply (@Mixture_nllf_raises unit [PyModel abstract_model; PyFloat (Fin 1)]
           (single abstract_model) [] [] (PyModel abstract_model) [] [0] numpy_random tt tt).
  - reflexivity.
  - reflexivity.
  - constructor.
  - reflexivity.
Defined.








End ModelExtra.

(* ================================================================== *)
(** * Part XI.  MVNormal: construction and the value of nllf *)
(* ================================================================== *)

Module MVNormalExtra.
Import Numpy Py Linalg Model ModelProofs ChebyProofs.

(** ** The elimination step *)

Lemma chol_cons (n : nat) (a00 : R) (r0 : list R) (rest : matrix) :
  chol (S n) ((a00 :: r0) :: rest)
  = if Rlt_dec 0 a00 then
      match chol n (rank1_update (map (fun row => hd 0 row / sqrt a00) rest)
                                 (map (@tl R) rest)) with
      | None => None
      | Some L' =>
          Some ((sqrt a00 :: repeat 0 n)
                  :: zip_with cons (map (fun row => hd 0 row / sqrt a00) rest) L')
      end
    else None.
Proof.
  cbn [chol hd]. unfold rank1_update.
  rewrite (zip_with_map_r (fun bi row => zip_with (fun bj v => v - bi * bj)
                                           (map (fun row => hd 0 row / sqrt a00) rest) row)).
  reflexivity.
Qed.

Lemma rank1_update_sq (n : nat) (b : list R) (c : matrix) :
  length b = n -> sq n c -> sq n (rank1_update b c).
Proof.
  intros Hb [Hc1 Hc2]. unfold rank1_update. split.
  - rewrite zip_with_length. lia.
  - apply Forall_forall. intros row Hin. rewrite Forall_forall in Hc2.
    assert (Hgen : forall (bs : list R) (rows : matrix),
               (forall r, In r rows -> length r = n) ->
               In row (zip_with (fun bi r => zip_with (fun bj v => v - bi * bj) b r) bs rows) ->
               length row = n).
    { induction bs as [| b0 bs IHb]; intros [| r rows] Hr Hi; cbn in Hi; try contradiction.
      destruct Hi as [<- | Hi].
      - rewrite zip_with_length, (Hr r) by (now left). lia.
      - apply (IHb rows); [intros; apply Hr; now right | exact Hi]. }
    apply (Hgen b c); assumption.
Qed.

(** Completing the square on the first coordinate. *)
Lemma quad_lower_schur (n : nat) (a00 x0 : R) (r0 x : list R) (rest : matrix) :
  sq (S n) ((a00 :: r0) :: rest) -> 0 < a00 -> length x = n ->
  quad_lower (x0 :: x) ((a00 :: r0) :: rest)
  = (sqrt a00 * x0 + dot (map (fun row => hd 0 row / sqrt a00) rest) x) ^ 2
    + quad_lower x (rank1_update (map (fun row => hd 0 row / sqrt a00) rest)
                                 (map (@tl R) rest)).
Proof.
  intros Ha Hpos Hx.
  destruct (sq_cons_inv Ha) as (a00' & r0' & Heq & Hr0 & Hrest & Hrows & Hsub).
  injection Heq as <- <-.
  assert (Hl : 0 < sqrt a00) by (now apply sqrt_lt_R0).
  assert (Hll : sqrt a00 * sqrt a00 = a00) by (apply sqrt_sqrt; lra).
  rewrite quad_lower_rank1 by (rewrite ?length_map, ?Hx; first [lia | assumption]).
  cbn [quad_lower hd].
  rewrite (dot_map_div (hd 0) rest x (l := sqrt a00)) by lra.
  set (l := sqrt a00) in *. set (bx := dot _ x).
  replace (a00 * (x0 * x0)) with ((l * l) * (x0 * x0)) by (rewrite Hll; reflexivity).
  ring.
Qed.

(** ** Positive definite matrices are factored *)

(** [a] is [n] by [n] and the matrix in its lower triangle is positive
    definite. *)
Definition pd_lower (n : nat) (a : matrix) : Prop :=
  sq n a /\ forall x, length x = n -> nonzero x -> 0 < quad_lower x a.

Lemma nonzero_cons_l (x0 : R) (x : list R) : x0 <> 0 -> nonzero (x0 :: x).
Proof. intros H. now constructor. Qed.

Lemma nonzero_cons_r (x0 : R) (x : list R) : nonzero x -> nonzero (x0 :: x).
Proof. intros H. now constructor 2. Qed.

Lemma zeros_zero (n : nat) : Forall (fun v => v = 0) (repeat 0 n).
Proof. induction n; cbn; constructor; auto. Qed.

Lemma pd_lower_pivot (n : nat) (a00 : R) (r0 : list R) (rest : matrix) :
  pd_lower (S n) ((a00 :: r0) :: rest) -> 0 < a00.
Proof.
  intros [Hsq Hq].
  specialize (Hq (1 :: repeat 0 n)).
  rewrite (length_cons), repeat_length in Hq.
  specialize (Hq eq_refl (nonzero_cons_l _ R1_neq_R0)).
  cbn [quad_lower hd] in Hq.
  rewrite (dot_zero_r _ (zeros_zero n)), (quad_lower_zero _ (zeros_zero n)) in Hq. lra.
Qed.

Lemma pd_lower_schur (n : nat) (a00 : R) (r0 : list R) (rest : matrix) :
  pd_lower (S n) ((a00 :: r0) :: rest) ->
  pd_lower n (rank1_update (map (fun row => hd 0 row / sqrt a00) rest) (map (@tl R) rest)).
Proof.
  intros Hpd. pose proof (pd_lower_pivot Hpd) as Hpos. destruct Hpd as [Hsq Hq].
  destruct (sq_cons_inv Hsq) as (a00' & r0' & Heq & Hr0 & Hrest & Hrows & Hsub).
  split.
  - apply rank1_update_sq; [rewrite length_map; exact Hrest | exact Hsub].
  - intros x Hx Hnz.
    set (b := map (fun row => hd 0 row / sqrt a00) rest).
    specialize (Hq ((- dot b x / sqrt a00) :: x)).
    cbn [length] in Hq. specialize (Hq ltac:(lia) (nonzero_cons_r _ Hnz)).
    rewrite (@quad_lower_schur n a00 _ r0 x rest Hsq Hpos Hx) in Hq. fold b in Hq.
    assert (Hl : 0 < sqrt a00) by (now apply sqrt_lt_R0).
    replace (sqrt a00 * (- dot b x / sqrt a00) + dot b x) with 0 in Hq by (field; lra).
    lra.
Qed.

Lemma chol_complete (n : nat) :
  forall a, pd_lower n a -> exists L, chol n a = Some L.
Proof.
  induction n as [| n IH]; intros a Hpd.
  - exists []. reflexivity.
  - destruct Hpd as [Hsq Hq].
    destruct a as [| row0 rest]; [destruct Hsq; discriminate |].
    destruct (sq_cons_inv Hsq) as (a00 & r0 & -> & _).
    pose proof (pd_lower_pivot (conj Hsq Hq)) as Hpos.
    destruct (IH _ (pd_lower_schur (conj Hsq Hq))) as [L' HL'].
    rewrite chol_cons, HL'.
    destruct (Rlt_dec 0 a00); [eexists; reflexivity | contradiction].
Qed.

(** ** The factor *)

(** [L] is [n] by [n], lower triangular with a positive diagonal. *)
Inductive lower_factor : nat -> matrix -> Prop :=
| lower_factor_nil : lower_factor 0 []
| lower_factor_cons (n : nat) (l : R) (b : list R) (L' : matrix) :
    0 < l -> length b = n -> lower_factor n L' ->
    lower_factor (S n) ((l :: repeat 0 n) :: zip_with cons b L').

Lemma lower_factor_length (n : nat) (L : matrix) : lower_factor n L -> length L = n.
Proof.
  induction 1 as [| n l b L' Hl Hb _ IH]; [reflexivity |].
  cbn [length]. rewrite zip_with_length, Hb, IH. lia.
Qed.

Lemma chol_lower_factor (n : nat) :
  forall a L, sq n a -> chol n a = Some L -> lower_factor n L.
Proof.
  induction n as [| n IH]; intros a L Hsq Hc.
  - cbn in Hc. injection Hc as <-. constructor.
  - destruct a as [| row0 rest]; [discriminate |].
    destruct (sq_cons_inv Hsq) as (a00 & r0 & -> & Hr0 & Hrest & Hrows & Hsub).
    rewrite chol_cons in Hc.
    destruct (Rlt_dec 0 a00) as [Hpos |]; [| discriminate].
    destruct (chol n _) as [L' |] eqn:HL'; [| discriminate].
    injection Hc as <-. constructor.
    + now apply sqrt_lt_R0.
    + now rewrite length_map.
    + eapply IH; [| exact HL'].
      apply rank1_update_sq; [rewrite length_map; exact Hrest | exact Hsub].
Qed.

Lemma map_tl_zip_cons (b : list R) (L' : matrix) :
  length b = length L' -> map (@tl R) (zip_with cons b L') = L'.
Proof.
  revert L'. induction b as [| b0 b IH]; intros [| r L'] H; try discriminate; [reflexivity |].
  cbn [zip_with map tl]. rewrite IH by (cbn in H; lia). reflexivity.
Qed.

Lemma map_hd_zip_cons (b : list R) (L' : matrix) :
  length b = length L' -> map (hd 0) (zip_with cons b L') = b.
Proof.
  revert L'. induction b as [| b0 b IH]; intros [| r L'] H; try discriminate; [reflexivity |].
  cbn [zip_with map hd]. rewrite IH by (cbn in H; lia). reflexivity.
Qed.

Lemma inv_lower_factor (n : nat) (L : matrix) :
  lower_factor n L -> exists Li, inv_lower n L = Some Li /\ length Li = n.
Proof.
  induction 1 as [| n l b L' Hl Hb HL' (Li' & HLi' & Hlen)].
  - exists []. split; reflexivity.
  - cbn [inv_lower hd].
    destruct (Req_dec_T l 0) as [H0 | _]; [lra |].
    rewrite map_tl_zip_cons by (rewrite (@lower_factor_length _ _ HL'); exact Hb).
    rewrite HLi'. eexists. split; [reflexivity |].
    cbn [length]. rewrite zip_with_length, length_map, Hlen. lia.
Qed.

(** ** Construction *)

Lemma MVNormal_init_inv (mu : list R) (sigma : matrix) (self : MVNormal.t) :
  MVNormal.__init__ mu sigma = inr self ->
  exists r rinv,
    sigma <> [] /\ sq (length sigma) sigma
    /\ chol (length sigma) sigma = Some r
    /\ inv_lower (length r) r = Some rinv
    /\ self = {| MVNormal.mu := mu; MVNormal.sigma := sigma; MVNormal._rinv := rinv;
                 MVNormal._C := 0.5 * INR (length mu) * ln (2 * PI)
                                + fold_right Rplus 0 (diag r) |}.
Proof.
  unfold MVNormal.__init__, asarray, cholesky, inv, ok, raise.
  destruct (rectangular sigma); [| discriminate]. cbn [rbind].
  destruct sigma as [| row0 rest]; [discriminate |].
  destruct (is_square (row0 :: rest)) eqn:Hsq; [| discriminate].
  destruct (chol _ _) as [r |] eqn:Hc; [| discriminate]. cbn [rbind].
  destruct (inv_lower _ r) as [rinv |] eqn:Hi; [| discriminate]. cbn [rbind].
  intros H. injection H as <-.
  exists r, rinv. repeat split; try assumption; try discriminate;
    apply is_square_sq in Hsq; apply Hsq.
Qed.

Lemma MVNormal_init_complete (mu : list R) (sigma : matrix) :
  positive_definite_lower sigma -> exists self, MVNormal.__init__ mu sigma = inr self.
Proof.
  intros (Hne & Hsq & Hq).
  destruct (@chol_complete (length sigma) sigma (conj Hsq Hq)) as [r Hr].
  pose proof (@chol_lower_factor _ _ _ Hsq Hr) as Hf.
  destruct (@inv_lower_factor _ _ Hf) as (rinv & Hi & _).
  unfold MVNormal.__init__, asarray, cholesky, inv, ok, raise.
  rewrite (@sq_rectangular _ Hsq). cbn [rbind].
  destruct sigma as [| row0 rest]; [contradiction |].
  rewrite (proj2 (is_square_sq _) Hsq), Hr. cbn [rbind].
  rewrite (@lower_factor_length _ _ Hf), Hi. cbn [rbind]. eexists. reflexivity.
Qed.

(** X17.  [MVNormal(mu, sigma)] constructs exactly when [sigma] is a
    non-empty square array whose lower triangle, mirrored, is a positive
    definite matrix; in every other case the constructor raises. *)
Theorem MVNormal_init_iff_lower :
  forall (mu : list R) (sigma : matrix),
    (exists self, MVNormal.__init__ mu sigma = inr self)
    <-> positive_definite_lower sigma.
Proof.
  intros mu sigma. split.
  - intros [self Hs].
    destruct (@MVNormal_init_inv _ _ _ Hs) as (r & rinv & Hne & Hsq & Hc & _).
    split; [exact Hne | split; [exact Hsq |]].
    intros x Hx Hnz. eapply chol_positive; eassumption.
  - apply MVNormal_init_complete.
Qed.

(** X18.  For a symmetric [sigma] the constructor succeeds exactly when
    [sigma] is positive definite. *)
Theorem MVNormal_init_symmetric :
  forall (mu : list R) (sigma : matrix),
    symmetric sigma ->
    ((exists self, MVNormal.__init__ mu sigma = inr self) <-> positive_definite sigma).
Proof.
  intros mu sigma Hsym. pose proof Hsym as [Hsq Htr]. split.
  - intros [self Hs].
    destruct (@MVNormal_init_inv _ _ _ Hs) as (r & rinv & Hne & _ & Hc & _).
    split; [exact Hne | split; [exact Hsym |]].
    intros x Hx Hnz. rewrite quad_symmetric by (rewrite ?Hx; assumption).
    eapply chol_positive; eassumption.
  - intros (Hne & _ & Hq). apply MVNormal_init_complete.
    split; [exact Hne | split; [exact Hsq |]].
    intros x Hx Hnz. rewrite <- quad_symmetric by (rewrite ?Hx; assumption).
    now apply Hq.
Qed.

Lemma symmetric_identity2 : symmetric [[1; 0]; [0; 1]].
Proof.
  split.
  - split; [reflexivity |]. repeat constructor.
  - intros [| [| [| i]]] [| [| [| j]]]; try reflexivity; cbn; now destruct i, j.
Qed.

(** The theorem at the two by two identity. *)
Lemma MVNormal_init_symmetric_witness :
  symmetric [[1; 0]; [0; 1]]
  /\ ((exists self, MVNormal.__init__ [0; 0] [[1; 0]; [0; 1]] = inr self)
      <-> positive_definite [[1; 0]; [0; 1]]).
Proof.
  split; [exact symmetric_identity2 |].
  apply (@MVNormal_init_symmetric [0; 0] [[1; 0]; [0; 1]]). exact symmetric_identity2.
Defined.

(** ** Rows times lower-triangular matrices *)

(** The array [numpy.dot(d, M)] of a vector and a matrix with [k] columns. *)
Definition vm (k : nat) (d : list R) (M : matrix) : list R :=
  map (fun j => dot d (map (fun row => nth j row 0) M)) (seq 0 k).

Lemma dot_vm_vm (d : list R) (M : matrix) :
  length d = length M -> dot_vm d M = inr (vm (length (hd [] M)) d M).
Proof. intros H. unfold dot_vm. rewrite H, Nat.eqb_refl. reflexivity. Qed.

Lemma dot_vm_mismatch (d : list R) (M : matrix) :
  length d <> length M -> exists msg, dot_vm d M = inl (ValueError msg).
Proof.
  intros H. unfold dot_vm. apply Nat.eqb_neq in H. rewrite H. eexists. reflexivity.
Qed.

Lemma vm_length (k : nat) (d : list R) (M : matrix) : length (vm k d M) = k.
Proof. unfold vm. now rewrite length_map, length_seq. Qed.

Lemma dot_zero_l (u v : list R) : Forall (fun a => a = 0) u -> dot u v = 0.
Proof. intros H. rewrite dot_comm. now apply dot_zero_r. Qed.

Lemma map_const_zero {A} (l : list A) : map (fun _ => 0) l = repeat 0 (length l).
Proof. induction l as [| a l IH]; cbn; [reflexivity | now rewrite IH]. Qed.

Lemma vm_zero (k : nat) (d : list R) (M : matrix) :
  Forall (fun a => a = 0) d -> vm k d M = repeat 0 k.
Proof.
  intros H. unfold vm.
  rewrite (map_ext _ (fun _ => 0)) by (intros j; now apply dot_zero_l).
  now rewrite map_const_zero, length_seq.
Qed.

Lemma vm_nil (k : nat) (d : list R) : vm k d [] = repeat 0 k.
Proof.
  unfold vm. cbn [map].
  rewrite (map_ext _ (fun _ => 0)) by (intros j; apply dot_nil_r).
  now rewrite map_const_zero, length_seq.
Qed.

Lemma map_nth_seq_id (row : list R) :
  map (fun j => nth j row 0) (seq 0 (length row)) = row.
Proof.
  induction row as [| a row IH]; [reflexivity |].
  cbn [length seq map nth]. rewrite <- seq_shift, map_map. cbn [nth]. now rewrite IH.
Qed.

(** [(d M) . b = d . (M b)] *)
Lemma dot_vm_assoc (k : nat) (M : matrix) :
  Forall (fun row => length row = k) M ->
  forall d b, dot (vm k d M) b = dot d (map (fun row => dot row b) M).
Proof.
  induction 1 as [| row M Hrow _ IH]; intros d b.
  - cbn [map]. rewrite dot_nil_r, vm_nil. apply dot_zero_l, zeros_zero.
  - destruct d as [| d0 d].
    + rewrite (@vm_zero k [] (row :: M)) by constructor.
      rewrite (dot_zero_l _ (zeros_zero k)). reflexivity.
    + cbn [map]. rewrite dot_cons, <- IH. unfold vm. cbn [map]. 
      rewrite (map_ext _ (fun j => nth j row 0 * d0
                                   + dot d (map (fun row0 => nth j row0 0) M)))
        by (intros j; rewrite dot_cons; ring).
      rewrite (dot_comm _ b), dot_map_add, <- Hrow, map_nth_seq_id.
      rewrite (dot_comm b row), (dot_comm b). reflexivity.
Qed.

(** [M] is [n] by [n] with zeros above the diagonal, built as the
    factorisation and the inversion build their results. *)
Inductive lower_block : nat -> matrix -> Prop :=
| lower_block_nil : lower_block 0 []
| lower_block_cons (n : nat) (m00 : R) (c : list R) (M' : matrix) :
    length c = n -> lower_block n M' ->
    lower_block (S n) ((m00 :: repeat 0 n) :: zip_with cons c M').

Lemma lower_factor_block (n : nat) (L : matrix) : lower_factor n L -> lower_block n L.
Proof. induction 1; constructor; assumption. Qed.

Lemma lower_block_length (n : nat) (M : matrix) : lower_block n M -> length M = n.
Proof.
  induction 1 as [| n m00 c M' Hc _ IH]; [reflexivity |].
  cbn [length]. rewrite zip_with_length, Hc, IH. lia.
Qed.

Lemma lower_block_width (n : nat) (M : matrix) : lower_block n M -> length (hd [] M) = n.
Proof.
  destruct 1; [reflexivity |]. cbn [hd length]. now rewrite repeat_length.
Qed.

Lemma Forall_zip_cons (n : nat) (c : list R) (M : matrix) :
  Forall (fun row => length row = n) M ->
  Forall (fun row => length row = S n) (zip_with cons c M).
Proof.
  intros H. revert c. induction H as [| row M Hrow _ IH]; intros [| c0 c]; cbn; constructor.
  - cbn. now rewrite Hrow.
  - apply IH.
Qed.

Lemma lower_block_rows (n : nat) (M : matrix) :
  lower_block n M -> Forall (fun row => length row = n) M.
Proof.
  induction 1 as [| n m00 c M' Hc _ IH]; constructor.
  - cbn [length]. now rewrite repeat_length.
  - now apply Forall_zip_cons.
Qed.

Lemma map_nth0_zip_cons (c : list R) (M : matrix) :
  length c = length M -> map (fun row => nth 0 row 0) (zip_with cons c M) = c.
Proof.
  revert M. induction c as [| c0 c IH]; intros [| r M] H; try discriminate; [reflexivity |].
  cbn [zip_with map nth]. rewrite IH by (cbn in H; lia). reflexivity.
Qed.

Lemma map_nthS_zip_cons (j : nat) (c : list R) (M : matrix) :
  length c = length M ->
  map (fun row => nth (S j) row 0) (zip_with cons c M) = map (fun row => nth j row 0) M.
Proof.
  revert M. induction c as [| c0 c IH]; intros [| r M] H; try discriminate; [reflexivity |].
  cbn [zip_with map nth]. rewrite IH by (cbn in H; lia). reflexivity.
Qed.

Lemma nth_zeros (j n : nat) : nth j (repeat 0 n) 0 = 0.
Proof. revert j. induction n as [| n IH]; intros [| j]; cbn; auto. Qed.

(** The product of a row with a matrix in block form. *)
Lemma vm_lower_block_cons (n : nat) (d0 m00 : R) (d c : list R) (M' : matrix) :
  length c = n -> length M' = n ->
  vm (S n) (d0 :: d) ((m00 :: repeat 0 n) :: zip_with cons c M')
  = (d0 * m00 + dot d c) :: vm n d M'.
Proof.
  intros Hc HM. unfold vm. cbn [seq map nth]. f_equal.
  - rewrite map_nth0_zip_cons by lia. apply dot_cons.
  - rewrite <- seq_shift, map_map. apply map_ext. intros j.
    cbn [nth]. rewrite map_nthS_zip_cons by lia. rewrite dot_cons, nth_zeros. ring.
Qed.

(** The inversion succeeds on a factor, and its result is a right inverse
    under the row product: [(d Li) L = d]. *)
Lemma inv_lower_correct (n : nat) (L : matrix) :
  lower_factor n L ->
  exists Li, inv_lower n L = Some Li /\ lower_block n Li
             /\ forall d, length d = n -> vm n (vm n d Li) L = d.
Proof.
  induction 1 as [| n l b L' Hl Hb HL' (Li' & HLi' & Hblk & Hinv)].
  - exists []. repeat split; [constructor |]. intros [| ? ?]; [reflexivity | discriminate].
  - pose proof (@lower_factor_length _ _ HL') as HlenL'.
    pose proof (@lower_block_length _ _ Hblk) as HlenLi'.
    cbn [inv_lower hd].
    destruct (Req_dec_T l 0) as [H0 | _]; [lra |].
    rewrite map_tl_zip_cons, map_hd_zip_cons by lia.
    rewrite HLi'. eexists. split; [reflexivity |]. split.
    + constructor; [rewrite length_map; exact HlenLi' | exact Hblk].
    + intros [| d0 d] Hd; [discriminate |]. cbn in Hd.
      rewrite vm_lower_block_cons by (rewrite ?length_map; lia).
      rewrite vm_lower_block_cons by lia.
      rewrite Hinv by lia. f_equal.
      rewrite (dot_vm_assoc (lower_block_rows Hblk)).
      set (q := map (fun row => dot row b) Li').
      assert (Hq : dot d (map (fun row => - dot row b / l) Li') = - dot d q / l).
      { unfold q. clear. revert d.
        induction Li' as [| r Li' IH]; intros [| d0 d]; cbn [map];
          rewrite ?dot_nil_r; try (unfold dot; cbn; lra).
        rewrite !dot_cons, IH. unfold Rdiv. ring. }
      rewrite Hq. field. lra.
Qed.

(** ** The value of nllf *)

Definition sum_sq (v : list R) : R := fold_right Rplus 0 (map (fun a => a ^ 2) v).

Lemma sum_sq_nonneg (v : list R) : 0 <= sum_sq v.
Proof.
  unfold sum_sq. induction v as [| a v IH]; cbn [map fold_right]; [lra |].
  pose proof (pow2_ge_0 a). lra.
Qed.

Lemma sum_sq_zero (v : list R) : sum_sq v = 0 <-> Forall (fun a => a = 0) v.
Proof.
  unfold sum_sq. induction v as [| a v IH]; cbn [map fold_right].
  - split; [constructor | reflexivity].
  - pose proof (pow2_ge_0 a) as Ha. pose proof (sum_sq_nonneg v) as Hv. unfold sum_sq in Hv.
    split.
    + intros H. constructor.
      * assert (Ha0 : a * a = 0) by (replace (a * a) with (a ^ 2) by ring; lra).
        destruct (Rmult_integral _ _ Ha0); assumption.
      * apply IH. lra.
    + intros H. inversion H as [| ? ? Ha0 Hv0]; subst.
      apply IH in Hv0. rewrite Hv0. ring.
Qed.

Lemma zip_minus_zero (x mu : list R) :
  length x = length mu -> (Forall (fun a => a = 0) (zip_with Rminus x mu) <-> x = mu).
Proof.
  revert mu. induction x as [| x0 x IH]; intros [| m0 mu] H; try discriminate.
  - split; [reflexivity | constructor].
  - cbn [zip_with]. split.
    + intros HF. inversion HF as [| ? ? H0 HF']; subst.
      f_equal; [lra | apply IH; [cbn in H; lia | exact HF']].
    + intros Heq. injection Heq as -> ->. constructor; [lra |].
      apply IH; [reflexivity | reflexivity].
Qed.

Lemma Forall_zero_repeat (v : list R) :
  Forall (fun a => a = 0) v <-> v = repeat 0 (length v).
Proof.
  induction v as [| a v IH]; cbn [length repeat].
  - split; [reflexivity | constructor].
  - split.
    + intros H. inversion H as [| ? ? Ha Hv]; subst. f_equal. now apply IH.
    + intros H. injection H as Ha Hv. constructor; [exact Ha | now apply IH].
Qed.

(** What a constructed object holds: the inverse of a factor with positive
    diagonal, of the size of [sigma]. *)
Lemma MVNormal_init_rinv (mu : list R) (sigma : matrix) (self : MVNormal.t) :
  MVNormal.__init__ mu sigma = inr self ->
  MVNormal.mu self = mu
  /\ exists r, lower_factor (length sigma) r
               /\ lower_block (length sigma) (MVNormal._rinv self)
               /\ forall d, length d = length sigma ->
                    vm (length sigma) (vm (length sigma) d (MVNormal._rinv self)) r = d.
Proof.
  intros Hs.
  destruct (@MVNormal_init_inv _ _ _ Hs) as (r & rinv & Hne & Hsq & Hc & Hi & ->).
  split; [reflexivity |]. cbn [MVNormal._rinv].
  pose proof (@chol_lower_factor _ _ _ Hsq Hc) as Hf.
  destruct (@inv_lower_correct _ _ Hf) as (Li & HLi & Hblk & Hinv).
  rewrite (@lower_factor_length _ _ Hf), HLi in Hi. injection Hi as <-.
  exists r. repeat split; assumption.
Qed.

Lemma MVNormal_nllf_value {W} (mu : list R) (sigma : matrix) (self : MVNormal.t)
    (x : vector) (RNG : rng) (w : W) :
  MVNormal.__init__ mu sigma = inr self ->
  length mu = length sigma -> length x = length mu ->
  MVNormal.nllf self x RNG w
  = inr (Fin (MVNormal._C self
              + 0.5 * sum_sq (vm (length sigma) (zip_with Rminus x mu) (MVNormal._rinv self))),
         w).
Proof.
  intros Hs Hmu Hx.
  destruct (@MVNormal_init_rinv _ _ _ Hs) as (Hm & r & Hf & Hblk & Hinv).
  unfold MVNormal.nllf, lift, broadcast1. rewrite Hm, Hx, Nat.eqb_refl.
  cbn [rbind ok].
  rewrite dot_vm_vm
    by (rewrite zip_with_length, (@lower_block_length _ _ Hblk); lia).
  rewrite (@lower_block_width _ _ Hblk). reflexivity.
Qed.

(** X19.  On a constructed [MVNormal] with [mu] of the size of [sigma],
    [nllf] returns a float on every [x] of that size; the value is never
    below the constant [_C], and equals it at [x = mu] and nowhere else. *)
Theorem MVNormal_nllf_minimum :
  forall {W} (mu : list R) (sigma : matrix) (self : MVNormal.t)
         (x : vector) (RNG : rng) (w : W),
    MVNormal.__init__ mu sigma = inr self ->
    length mu = length sigma -> length x = length mu ->
    exists y, MVNormal.nllf self x RNG w = inr (Fin y, w)
              /\ MVNormal._C self <= y
              /\ (y = MVNormal._C self <-> x = mu).
Proof.
  intros W mu sigma self x RNG w Hs Hmu Hx.
  rewrite (@MVNormal_nllf_value W _ _ _ x RNG w Hs Hmu Hx).
  destruct (@MVNormal_init_rinv _ _ _ Hs) as (Hm & r & Hf & Hblk & Hinv).
  set (d := zip_with Rminus x mu).
  assert (Hd : length d = length sigma) by (unfold d; rewrite zip_with_length; lia).
  set (v := vm (length sigma) d (MVNormal._rinv self)).
  eexists. split; [reflexivity |].
  pose proof (sum_sq_nonneg v) as Hv. split; [lra |].
  rewrite <- (@zip_minus_zero x mu Hx). fold d. split.
  - intros Hy. assert (H0 : sum_sq v = 0) by lra.
    apply sum_sq_zero in H0.
    rewrite <- (Hinv d Hd). fold v.
    rewrite (@vm_zero _ _ _ H0). apply zeros_zero.
  - intros Hz. unfold v. rewrite (@vm_zero _ _ _ Hz).
    rewrite (proj2 (sum_sq_zero _) (zeros_zero _)). lra.
Qed.

(** The one by one case in closed form. *)
Lemma MVNormal_univariate_init (m s : R) :
  0 < s ->
  MVNormal.__init__ [m] [[s]]
  = inr {| MVNormal.mu := [m]; MVNormal.sigma := [[s]];
           MVNormal._rinv := [[/ sqrt s]];
           MVNormal._C := 0.5 * INR 1 * ln (2 * PI) + (sqrt s + 0) |}.
Proof.
  intros Hs.
  unfold MVNormal.__init__, asarray, cholesky, inv, ok, raise.
  cbn [rectangular forallb rbind is_square length Nat.eqb andb chol hd tl map zip_with
       repeat].
  destruct (Rlt_dec 0 s) as [_ | H]; [| contradiction].
  cbn [rbind inv_lower length hd tl map zip_with repeat].
  destruct (Req_dec_T (sqrt s) 0) as [H | _].
  { exfalso. pose proof (sqrt_lt_R0 s Hs). lra. }
  reflexivity.
Qed.

(** The theorem at [MVNormal([0], [[1]])] and [x = [3]]. *)
Lemma MVNormal_nllf_minimum_witness :
  exists self y,
    MVNormal.__init__ [0] [[1]] = inr self
    /\ MVNormal.nllf self [3] numpy_random tt = inr (Fin y, tt)
    /\ MVNormal._C self <= y
    /\ (y = MVNormal._C self <-> [3] = [0]).
Proof.
  eexists.
  assert (H := @MVNormal_nllf_minimum unit [0] [[1]] _ [3] numpy_random tt
                 (@MVNormal_univariate_init 0 1 Rlt_0_1) eq_refl eq_refl).
  destruct H as [y Hy]. exists y.
  split; [exact (@MVNormal_univariate_init 0 1 Rlt_0_1) | exact Hy].
Defined.

Lemma zip_with_repeat_l {A B C'} (f : A -> B -> C') (a : A) (ys : list B) :
  zip_with f (repeat a (length ys)) ys = map (f a) ys.
Proof. induction ys as [| y ys IH]; cbn; [reflexivity | now rewrite IH]. Qed.

(** X20.  On a constructed [MVNormal] with [mu] of the size of [sigma]: an
    [x] of another size raises ValueError, except that a one-element [x] is
    broadcast and evaluates as the constant vector of its element. *)
Theorem MVNormal_nllf_shape :
  forall {W} (mu : list R) (sigma : matrix) (self : MVNormal.t) (RNG : rng) (w : W),
    MVNormal.__init__ mu sigma = inr self ->
    length mu = length sigma ->
    (forall x, length x <> length mu -> length x <> 1%nat ->
               exists msg, MVNormal.nllf self x RNG w = inl (ValueError msg))
    /\ (forall x0, MVNormal.nllf self [x0] RNG w
                   = MVNormal.nllf self (repeat x0 (length mu)) RNG w).
Proof.
  intros W mu sigma self RNG w Hs Hmu.
  destruct (@MVNormal_init_rinv _ _ _ Hs) as (Hm & r & Hf & Hblk & Hinv).
  pose proof (@lower_block_length _ _ Hblk) as Hlen.
  split.
  - intros x Hx Hx1. unfold MVNormal.nllf, lift, broadcast1. rewrite Hm.
    apply Nat.eqb_neq in Hx. rewrite Hx. apply Nat.eqb_neq in Hx.
    destruct x as [| x0 [| x1 x]]; [| contradiction |].
    + destruct mu as [| m0 [| m1 mu]]; [contradiction | | eexists; reflexivity].
      cbn [map rbind ok].
      destruct (@dot_vm_mismatch [] (MVNormal._rinv self)) as [msg Hmsg];
        [rewrite Hlen, <- Hmu; discriminate |].
      rewrite Hmsg. eexists. reflexivity.
    + destruct mu as [| m0 [| m1 mu]]; [eexists; reflexivity | | eexists; reflexivity].
      cbn [rbind ok].
      destruct (@dot_vm_mismatch (map (fun x2 => x2 - m0) (x0 :: x1 :: x))
                                 (MVNormal._rinv self)) as [msg Hmsg];
        [rewrite Hlen, <- Hmu, length_map; discriminate |].
      rewrite Hmsg. eexists. reflexivity.
  - intros x0. unfold MVNormal.nllf, lift, broadcast1. rewrite Hm, repeat_length, Nat.eqb_refl.
    rewrite zip_with_repeat_l.
    destruct (Nat.eqb (length [x0]) (length mu)) eqn:He; [| reflexivity].
    apply Nat.eqb_eq in He. destruct mu as [| m0 [| m1 mu]]; try discriminate. reflexivity.
Qed.

(** The theorem at [MVNormal([0], [[1]])]. *)
Lemma MVNormal_nllf_shape_witness :
  exists self,
    MVNormal.__init__ [0] [[1]] = inr self
    /\ (forall x, length x <> 1%nat -> length x <> 1%nat ->
                  exists msg, MVNormal.nllf self x numpy_random tt = inl (ValueError msg))
    /\ (forall x0, MVNormal.nllf self [x0] numpy_random tt
                   = MVNormal.nllf self (repeat x0 1) numpy_random tt).
Proof.
  eexists. split; [exact (@MVNormal_univariate_init 0 1 Rlt_0_1) |].
  exact (@MVNormal_nllf_shape unit [0] [[1]] _ numpy_random tt
           (@MVNormal_univariate_init 0 1 Rlt_0_1) eq_refl).
Defined.

(** X21.  The univariate case in closed form: [MVNormal([m], [[s]])] with
    [s > 0] has [nllf([x]) = log(2 pi)/2 + sqrt(s) + (x - m)^2 / (2 s)].  The
    normalising term is the square root of [s] itself, not its logarithm. *)
Theorem MVNormal_univariate :
  forall {W} (m s : R) (RNG : rng) (w : W),
    0 < s ->
    exists self,
      MVNormal.__init__ [m] [[s]] = inr self
      /\ forall x, MVNormal.nllf self [x] RNG w
                   = inr (Fin (ln (2 * PI) / 2 + sqrt s + (x - m) ^ 2 / (2 * s)), w).
Proof.
  intros W m s RNG w Hs. eexists. split; [exact (MVNormal_univariate_init m Hs) |].
  intros x. unfold MVNormal.nllf, lift, broadcast1, dot_vm, dot.
  cbn [MVNormal.mu MVNormal._rinv MVNormal._C length Nat.eqb rbind ok zip_with hd seq map
       nth fold_right].
  do 3 f_equal.
  pose proof (sqrt_lt_R0 s Hs) as Hl. pose proof (sqrt_sqrt s (Rlt_le _ _ Hs)) as Hll.
  replace ((x - m) ^ 2 / (2 * s)) with ((x - m) ^ 2 / (2 * (sqrt s * sqrt s)))
    by (rewrite Hll; reflexivity).
  replace 0.5 with (/ 2) by lra. cbn [INR]. field. lra.
Qed.

(** The theorem at [m = 0], [s = 4]. *)
Lemma MVNormal_univariate_witness :
  exists self,
    MVNormal.__init__ [0] [[4]] = inr self
    /\ forall x, MVNormal.nllf self [x] numpy_random tt
                 = inr (Fin (ln (2 * PI) / 2 + sqrt 4 + (x - 0) ^ 2 / (2 * 4)), tt).
Proof.
  apply (@MVNormal_univariate unit 0 4 numpy_random tt). lra.
Defined.

End MVNormalExtra.

(* ================================================================== *)
(** * Part XII.  Simulation with Gaussian uncertainty *)
(* ================================================================== *)

Module SimulationExtra.
Import Numpy Py Linalg Model ModelProofs ModelExtra.

(** One residual: [cB * abs((a - b)/s) ** (2/(1+0))]. *)
Lemma residual_term (cB a b s : R) :
  0 < s ->
  xmul (Fin cB) (xpow (xabs (xdiv (xsub (Fin a) (Fin b)) (Fin s))) (Fin (2 / (1 + 0))))
  = Fin (cB * ((a - b) / s) ^ 2).
Proof.
  intros Hs. cbn [xsub xneg xadd xdiv]. rewrite (Rsgn_pos Hs). cbn [xabs xpow].
  rewrite (@Rsgn_pos (2 / (1 + 0))) by lra.
  replace ((a + - b) / s) with ((a - b) / s) by (unfold Rminus; reflexivity).
  set (e := (a - b) / s).
  destruct (Rlt_dec 0 (Rabs e)) as [Hpos | Hz].
  - rewrite (Rsgn_pos Hpos). cbn [xmul]. f_equal. f_equal.
    replace (2 / (1 + 0)) with (INR 2) by (cbn; field).
    rewrite Rpower_pow by exact Hpos.
    rewrite RPow_abs. apply Rabs_pos_eq. apply pow2_ge_0.
  - assert (He : e = 0).
    { destruct (Req_dec_T e 0) as [H0 | Hne]; [exact H0 |].
      exfalso. apply Hz. now apply Rabs_pos_lt. }
    rewrite He, Rabs_R0, (@Rsgn_zero 0) by reflexivity. cbn [xmul]. f_equal. ring.
Qed.

Lemma residual_terms (cB s : R) (v d : list R) :
  0 < s ->
  map (xmul (Fin cB))
      (map (fun x => xpow x (Fin (2 / (1 + 0))))
           (map xabs (map (fun x => xdiv x (Fin s)) (zip_with xsub (map Fin v) (map Fin d)))))
  = map Fin (zip_with (fun a b => cB * ((a - b) / s) ^ 2) v d).
Proof.
  intros Hs. revert d. induction v as [| a v IH]; intros [| b d]; try reflexivity.
  cbn [map zip_with]. rewrite IH. f_equal. now apply residual_term.
Qed.

Lemma offset_terms (q : R) (d : list R) :
  0 < q ->
  map xlog (map (xmul (Fin q)) (map (fun _ => Fin 1) (map Fin d)))
  = map Fin (map (fun _ => ln q) d).
Proof.
  intros Hq. induction d as [| b d IH]; [reflexivity |].
  cbn [map xmul xlog]. rewrite IH. rewrite Rmult_1_r, (Rsgn_pos Hq). reflexivity.
Qed.

Lemma Rlist_sum_const (c : R) {A} (d : list A) :
  Rlist_sum (map (fun _ => c) d) = INR (length d) * c.
Proof.
  induction d as [| b d IH]; [cbn; ring |].
  cbn [map length]. rewrite S_INR. unfold Rlist_sum in *. cbn [fold_right]. rewrite IH. ring.
Qed.

(** A Python number or a numpy scalar holding the real number [r]. *)
Definition is_real (a : number) (r : R) : Prop := to_nd a = Scalar (Fin r).

Lemma num_div_real (a b : number) (x y : R) :
  is_real a x -> is_real b y -> y <> 0 ->
  exists q, num_div a b = inr q /\ is_real q (x / y).
Proof.
  unfold is_real. intros Ha Hb Hy.
  assert (Hs : xdiv (Fin x) (Fin y) = Fin (x / y)).
  { cbn [xdiv]. destruct (Rlt_dec 0 y); [rewrite Rsgn_pos by lra; reflexivity |].
    rewrite Rsgn_neg by lra. reflexivity. }
  destruct a as [u | a], b as [v | b]; cbn [to_nd] in Ha, Hb; cbn [num_div to_nd].
  - injection Ha as ->. injection Hb as ->. cbn [is_zero].
    destruct (Req_dec_T y 0) as [H | _]; [contradiction |].
    eexists. split; [reflexivity |]. cbn [to_nd]. now rewrite Hs.
  - injection Ha as ->. subst b. cbn [nd_op rbind ok].
    eexists. split; [reflexivity |]. cbn [to_nd]. now rewrite Hs.
  - subst a. injection Hb as ->. cbn [nd_op rbind ok].
    eexists. split; [reflexivity |]. cbn [to_nd]. now rewrite Hs.
  - subst a b. cbn [nd_op rbind ok].
    eexists. split; [reflexivity |]. cbn [to_nd]. now rewrite Hs.
Qed.

Lemma num_add_real (a b : number) (x y : R) :
  is_real a x -> is_real b y ->
  exists q, num_add a b = inr q /\ is_real q (x + y).
Proof.
  unfold is_real. intros Ha Hb.
  destruct a as [u | a], b as [v | b]; cbn [to_nd] in Ha, Hb; cbn [num_add to_nd].
  - injection Ha as ->. injection Hb as ->. eexists. split; reflexivity.
  - injection Ha as ->. subst b. eexists. split; reflexivity.
  - subst a. injection Hb as ->. eexists. split; reflexivity.
  - subst a b. eexists. split; reflexivity.
Qed.

(** X22.  A [Simulation] with data [d], a positive scalar [sigma] and the
    default [gamma = 0] constructs, and where the simulation returns an
    array [v] of the size of the data its [nllf] is
    [cB * sum(((v - d)/sigma)^2) - len(d) * log(wB/sigma)], with [cB] and
    [wB > 0] the constants [exppow_pars] gives for [gamma = 0]; each of
    [sigma], [gamma], [cB], [wB] may be a Python number or a numpy
    scalar. *)
Theorem Simulation_gaussian_nllf :
  forall {W} (exppow_pars : number -> result (number * number))
         (f : vector -> ndarray xreal) (bounds labels : objref)
         (d : list R) (sigma gamma cB' wB' : number) (s cB wB : R),
    is_real sigma s -> is_real gamma 0 -> is_real cB' cB -> is_real wB' wB ->
    exppow_pars gamma = inr (cB', wB') ->
    0 < s -> 0 < wB ->
    exists self,
      Simulation.__init__ exppow_pars (Some f) bounds (Some (Array (map Fin d)))
                          sigma gamma labels = inr self
      /\ forall (x : vector) (v : list R) (RNG : rng) (w : W),
           f x = Array (map Fin v) -> length v = length d ->
           Simulation.nllf self x RNG w
           = inr (Fin (cB * Rlist_sum (zip_with (fun a b => ((a - b) / s) ^ 2) v d)
                       - INR (length d) * ln (wB / s)), w).
Proof.
  intros W exppow_pars f bounds labels d sigma gamma cB' wB' s cB wB
         Hsigma Hgamma HcB HwB' Hpars Hs HwB.
  assert (Hq : 0 < wB / s) by (apply Rdiv_lt_0_compat; assumption).
  destruct (@num_div_real wB' sigma wB s HwB' Hsigma ltac:(lra)) as (q & Hdiv & Hqr).
  destruct (@num_add_real (PyNum (Fin 1)) gamma 1 0 eq_refl Hgamma) as (g1 & Hadd & Hg1).
  destruct (@num_div_real (PyNum (Fin 2)) g1 2 (1 + 0) eq_refl Hg1 ltac:(lra))
    as (pw & Hpw & Hpwr).
  unfold is_real in *.
  unfold Simulation.__init__. rewrite Hpars. cbn [rbind].
  rewrite Hdiv. cbn [rbind]. rewrite Hqr.
  cbn [nd_op ok rbind Simulation.ones_like nd_map].
  rewrite Hadd. cbn [rbind]. rewrite Hpw. cbn [rbind ok].
  eexists. split; [reflexivity |].
  intros x v RNG w Hfx Hlen.
  unfold Simulation.nllf, lift, Simulation.sub_data.
  cbn [Simulation.f Simulation.data Simulation.sigma Simulation._pow Simulation._cB
       Simulation._offset].
  rewrite Hfx, Hsigma, Hpwr, HcB. cbn [nd_op]. unfold broadcast1.
  rewrite !length_map, Hlen, Nat.eqb_refl.
  cbn [rbind ok nd_op nd_map nd_sum].
  rewrite (residual_terms cB v d Hs), (offset_terms d Hq), !np_sum_reals.
  cbn [xsub xneg xadd]. f_equal. f_equal.
  rewrite Rlist_sum_const.
  assert (Hsum : Rlist_sum (zip_with (fun a b => cB * ((a - b) / s) ^ 2) v d)
                 = cB * Rlist_sum (zip_with (fun a b => ((a - b) / s) ^ 2) v d)).
  { clear. revert d. induction v as [| a v IH]; intros [| b d]; cbn [zip_with];
      try (unfold Rlist_sum; cbn; ring).
    unfold Rlist_sum in *. cbn [fold_right]. rewrite IH. ring. }
  rewrite Hsum. f_equal. ring.
Qed.

(** The theorem at the Gaussian constants, data [[1; 2]], the Python number
    [2] for [sigma] and a numpy scalar [0] for [gamma]. *)
Lemma Simulation_gaussian_nllf_witness :
  exists self,
    Simulation.__init__ gauss_pars (Some (fun x => Array (map Fin x))) None
                        (Some (Array (map Fin [1; 2]))) (PyNum (Fin 2)) (Np (Scalar (Fin 0)))
                        None
    = inr self
    /\ forall (x : vector) (v : list R) (RNG : rng) (w : unit),
         Array (map Fin x) = Array (map Fin v) -> length v = length [1; 2] ->
         Simulation.nllf self x RNG w
         = inr (Fin (1 / 2 * Rlist_sum (zip_with (fun a b => ((a - b) / 2) ^ 2) v [1; 2])
                     - INR (length [1; 2]) * ln (/ sqrt (2 * PI) / 2)), w).
Proof.
  apply (@Simulation_gaussian_nllf unit gauss_pars (fun x => Array (map Fin x)) None None
           [1; 2] (PyNum (Fin 2)) (Np (Scalar (Fin 0)))
           (PyNum (Fin (1 / 2))) (PyNum (Fin (/ sqrt (2 * PI)))) 2 (1 / 2) (/ sqrt (2 * PI))).
  - reflexivity.
  - reflexivity.
  - reflexivity.
  - reflexivity.
  - reflexivity.
  - lra.
  - apply Rinv_0_lt_compat, sqrt_lt_R0. pose proof PI_RGT_0. lra.
Defined.

End SimulationExtra.
